(** * bolds-hybrid-ai: the batch uploader, its configuration and its verifier

    A shallow embedding of [config.py], [upload_data.py] and
    [verify_upload.py].  Python dictionaries read from the environment are
    finite maps, JSON records are Rocq records whose optional keys are
    [option]s, and the calls to the embedding model, the vector index and
    the graph database are events of a small state-and-exception monad. *)

From Stdlib Require Import ZArith Ascii String DecimalString.
From Stdlib Require DecimalPos DecimalZ.
From stdpp Require Import base decidable option strings list gmap.

Open Scope string_scope.
Open Scope list_scope.
Open Scope nat_scope.

(** ** Python strings

    A Python [str] is a sequence of code points; a Rocq [string] stands for
    it, one [ascii] per code point.  Only length, slicing, concatenation and
    equality of strings are used, none of which looks inside a character. *)

Definition nl : string := String "010"%char EmptyString.

(** [sep.join(parts)] *)
Definition join (sep : string) (parts : list string) : string :=
  String.concat sep parts.

(** [needle in hay] on strings: [needle] occurs as a contiguous slice. *)
Fixpoint contains (needle hay : string) : bool :=
  String.prefix needle hay ||
  match hay with
  | EmptyString => false
  | String _ rest => contains needle rest
  end.

(** Exceptions: [exn_type] is the class name, [exn_msg] is [str(e)], and
    [is_Exception] tells whether the class derives from Python's [Exception],
    which an [except Exception] clause catches.  [KeyboardInterrupt],
    [SystemExit] and [GeneratorExit] derive from [BaseException] only. *)
Record exn := Exn { exn_type : string; exn_msg : string; is_Exception : bool }.

Definition ValueError (msg : string) : exn := Exn "ValueError" msg true.

Definition KeyboardInterrupt : exn := Exn "KeyboardInterrupt" "" false.

Inductive result (A : Type) : Type :=
| Ok (a : A)
| Raise (e : exn).
Arguments Ok {A} a.
Arguments Raise {A} e.

(** ** config.py *)
Module Config.

(** [os.environ] after [load_dotenv] *)
Definition getenv (env : gmap string string) (key dflt : string) : string :=
  default dflt (env !! key).

(** The string settings of the module, the ones [validate_config] reads
    among them.  The settings that are parsed when the module is imported
    are in [module_state], below. *)
Record settings := {
  NEO4J_URI : string;
  NEO4J_USER : string;
  NEO4J_PASSWORD : string;
  PINECONE_API_KEY : string;
  PINECONE_HOST : string;
  LLM_PROVIDER : string;
  OPENAI_API_KEY : string;
  HUGGINGFACE_API_KEY : string;
  PINECONE_INDEX_NAME : string;
  API_HOST : string
}.

Definition load (env : gmap string string) : settings := {|
  NEO4J_URI := getenv env "NEO4J_URI" "neo4j+s://your-neo4j-uri.databases.neo4j.io";
  NEO4J_USER := getenv env "NEO4J_USER" "neo4j";
  NEO4J_PASSWORD := getenv env "NEO4J_PASSWORD" "";
  PINECONE_API_KEY := getenv env "PINECONE_API_KEY" "";
  PINECONE_HOST := getenv env "PINECONE_HOST" "";
  LLM_PROVIDER := getenv env "LLM_PROVIDER" "huggingface";
  OPENAI_API_KEY := getenv env "OPENAI_API_KEY" "";
  HUGGINGFACE_API_KEY := getenv env "HUGGINGFACE_API_KEY" "";
  PINECONE_INDEX_NAME := getenv env "PINECONE_INDEX_NAME" "sikkim-service-rule";
  API_HOST := getenv env "API_HOST" "0.0.0.0"
|}.

(** [s.split(sep)] for a separator of one character *)
Fixpoint split (sep : ascii) (s : string) : list string :=
  match s with
  | EmptyString => [""]
  | String c rest =>
      if decide (c = sep) then "" :: split sep rest
      else match split sep rest with
           | [] => [String c ""]
           | part :: parts => String c part :: parts
           end
  end.

(** The module once it is imported: the string settings, and the settings
    that are parsed. *)
Record module_state := {
  strings : settings;
  PINECONE_VECTOR_DIM : Z;
  PINECONE_TOP_K : Z;
  API_PORT : Z;
  CORS_ORIGINS : list string
}.

(** The import of the module, which runs its assignments in their order.
    [int] is Python's [int] on a string: [os.getenv] with a default does not
    raise, but [int] raises [ValueError] on a setting that is no numeral, and
    the import then ends on it, before [validate_config] can be called. *)
Definition import_module (int : string → result Z) (env : gmap string string) :
    result module_state :=
  match int (getenv env "PINECONE_VECTOR_DIM" "1024") with
  | Raise e => Raise e
  | Ok dim =>
      match int (getenv env "PINECONE_TOP_K" "5") with
      | Raise e => Raise e
      | Ok top_k =>
          match int (getenv env "API_PORT" "8000") with
          | Raise e => Raise e
          | Ok port =>
              Ok {| strings := load env;
                    PINECONE_VECTOR_DIM := dim;
                    PINECONE_TOP_K := top_k;
                    API_PORT := port;
                    CORS_ORIGINS :=
                      split ","
                        (getenv env "CORS_ORIGINS"
                           "http://localhost:5173,http://localhost:3000") |}
          end
      end
  end.

(** [not X or X == ""] for a string [X] *)
Definition unset (x : string) : bool := bool_decide (x = "").

(** [errors.append(msg)] under [if c:] *)
Definition append_if (c : bool) (msg : string) (errors : list string) : list string :=
  if c then errors ++ [msg] else errors.

(** The list [errors] when [validate_config] reaches [if errors:]. *)
Definition collect_errors (c : settings) : list string :=
  let errors := [] in
  let errors := append_if (unset (PINECONE_API_KEY c)) "PINECONE_API_KEY is not set" errors in
  let errors := append_if (unset (NEO4J_PASSWORD c)) "NEO4J_PASSWORD is not set" errors in
  let errors :=
    if bool_decide (LLM_PROVIDER c = "openai") && unset (OPENAI_API_KEY c)
    then errors ++ ["OPENAI_API_KEY is not set (LLM_PROVIDER=openai)"]
    else if bool_decide (LLM_PROVIDER c = "huggingface") && unset (HUGGINGFACE_API_KEY c)
    then errors ++ ["HUGGINGFACE_API_KEY is not set (LLM_PROVIDER=huggingface)"]
    else errors in
  let errors := append_if (contains "your-neo4j-uri" (NEO4J_URI c))
                  "NEO4J_URI is not properly configured" errors in
  errors.

(** ["Configuration errors:\n" + "\n".join(f"  - {e}" for e in errors)] *)
Definition error_msg (errors : list string) : string :=
  "Configuration errors:" +:+ nl +:+ join nl (map (fun e => "  - " +:+ e) errors).

Definition validate_config (c : settings) : result bool :=
  let errors := collect_errors c in
  match errors with
  | [] => Ok true
  | _ :: _ => Raise (ValueError (error_msg errors))
  end.

End Config.

(** ** The dataset (upload_data.py, [data = json.load(f)])

    A record of the dataset is a JSON object with the keys [id], [name],
    [description], [type] and [connections]; any of them may be absent
    ([None] below, so that [item.get(key, dflt)] is [default dflt]).  The
    identifier is a JSON string or integer, the three text fields are JSON
    strings, and [connections] is an array of objects with the keys [id] and
    [type] (specification, section 3); JSON values of other types in these
    places are outside the model. *)

Inductive value :=
| VStr (s : string)
| VInt (z : Z).

#[global] Instance value_eq_dec : EqDecision value.
Proof. solve_decision. Defined.

Record connection := Connection {
  conn_id : option value;
  conn_type : option string
}.

Record item := Item {
  item_id : option value;
  item_name : option string;
  item_description : option string;
  item_type : option string;
  item_connections : option (list connection)
}.

(** [str(n)] for an integer [n] *)
Definition str_int (z : Z) : string := NilZero.string_of_int (Z.to_int z).

(** [str(v)] *)
Definition str (v : value) : string :=
  match v with
  | VStr s => s
  | VInt z => str_int z
  end.

(** [s[:n]] for [n >= 0] *)
Definition slice_to (n : nat) (s : string) : string := String.substring 0 n s.

(** [enumerate(l)], counting from [start] *)
Fixpoint enumerate_from {A} (start : nat) (l : list A) : list (nat * A) :=
  match l with
  | [] => []
  | x :: l' => (start, x) :: enumerate_from (S start) l'
  end.

Definition enumerate {A} (l : list A) : list (nat * A) := enumerate_from 0 l.

Definition BATCH_SIZE : nat := 32.

(** [create_embedding_text]: [filter(None, text_parts)] keeps the strings that
    are not empty. *)
Definition create_embedding_text (it : item) : string :=
  let text_parts := [
    default "" (item_name it);
    default "" (item_description it);
    default "" (item_type it)
  ] in
  join " " (filter (λ s, s ≠ "") text_parts).

(** ** The graph store

    Modelled from the spec: the graph database is an external service of
    which the repository holds only the Cypher texts it sends.  The store is
    a property graph (nodes with labels and properties, directed typed
    relationships with properties), and each of the query texts of the
    source has the meaning Cypher gives it: [MATCH] selects the nodes that
    carry the label and the property value, [MERGE] creates what its pattern
    does not match (spec, section 3: an upsert, create-if-absent else
    update), and a [MATCH] that selects nothing leaves the clauses after it
    with nothing to do. *)

Inductive prop :=
| PStr (s : string)
| PInt (z : Z)
| PDateTime (t : Z).

#[global] Instance prop_eq_dec : EqDecision prop.
Proof. solve_decision. Defined.

(** A query parameter as the store receives it. *)
Definition param (v : value) : prop :=
  match v with
  | VStr s => PStr s
  | VInt z => PInt z
  end.

Record node := Node {
  nid : nat;
  labels : list string;
  props : gmap string prop
}.

Record rel := Rel {
  r_start : nat;
  r_end : nat;
  r_type : string;
  r_props : gmap string prop
}.

Record graph := Graph {
  nodes : list node;
  rels : list rel;
  next_id : nat
}.

Definition empty_graph : graph := Graph [] [] 0.

(** The node pattern [(n:label {key: v})] *)
Definition matches (label key : string) (v : prop) (n : node) : bool :=
  bool_decide (label ∈ labels n) && bool_decide (props n !! key = Some v).

(** [MATCH (n) DETACH DELETE n] *)
Definition detach_delete_all (g : graph) : graph :=
  Graph [] [] (next_id g).

(** [SET n.name = $name, n.description = $description, n.type = $type,
    n.created_at = datetime()] *)
Definition set_fields (name description type : prop) (now : Z) (n : node) : node :=
  Node (nid n) (labels n)
    (<["created_at" := PDateTime now]>
      (<["type" := type]> (<["description" := description]> (<["name" := name]> (props n))))).

(** [MERGE (n:ServiceRule {id: $id}) SET ...]: the [SET] applies to every
    node the pattern matches, or to the node it creates when there is none. *)
Definition merge_node (id name description type : prop) (now : Z) (g : graph) : graph :=
  let hit := matches "ServiceRule" "id" id in
  let set := set_fields name description type now in
  if existsb hit (nodes g)
  then Graph (map (λ n, if hit n then set n else n) (nodes g)) (rels g) (next_id g)
  else Graph (nodes g ++ [set (Node (next_id g) ["ServiceRule"] {["id" := id]})])
         (rels g) (S (next_id g)).

(** The relationship pattern [(a)-[:RELATED_TO {type: ty}]->(b)] *)
Definition rel_matches (a b : nat) (ty : prop) (r : rel) : bool :=
  bool_decide (r_start r = a) && bool_decide (r_end r = b) &&
  bool_decide (r_type r = "RELATED_TO") && bool_decide (r_props r !! "type" = Some ty).

(** [MERGE (a)-[:RELATED_TO {type: ty}]->(b)] for one row [(a, b)] *)
Definition merge_rel_row (ty : prop) (rs : list rel) (row : nat * nat) : list rel :=
  if existsb (rel_matches row.1 row.2 ty) rs then rs
  else rs ++ [Rel row.1 row.2 "RELATED_TO" {["type" := ty]}].

(** [MATCH (a:ServiceRule {id: $from_id}) MATCH (b:ServiceRule {id: $to_id})
    MERGE (a)-[:RELATED_TO {type: $relation_type}]->(b)]: one row per pair of
    matched nodes, the [MERGE] runs once per row. *)
Definition merge_rel (from_id to_id relation_type : prop) (g : graph) : graph :=
  let as_ := filter (λ n, matches "ServiceRule" "id" from_id n = true) (nodes g) in
  let bs := filter (λ n, matches "ServiceRule" "id" to_id n = true) (nodes g) in
  let rows := a ← as_; b ← bs; [(nid a, nid b)] in
  Graph (nodes g) (foldl (merge_rel_row relation_type) (rels g) rows) (next_id g).

(** The query texts of the source, with their parameters. *)
Inductive query :=
| ClearDatabase
| CreateNode (id name description type : prop)
| CreateRelationship (from_id to_id relation_type : prop)
| CountServiceRule
| CountNodes
| CountRelationships
| NodeTypes.

(** The effect of a query on the store at clock reading [now]. *)
Definition exec (q : query) (now : Z) (g : graph) : graph :=
  match q with
  | ClearDatabase => detach_delete_all g
  | CreateNode id name description type => merge_node id name description type now g
  | CreateRelationship from_id to_id relation_type => merge_rel from_id to_id relation_type g
  | CountServiceRule | CountNodes | CountRelationships | NodeTypes => g
  end.

(** Grouping for [RETURN n.type as node_type, count(n) as count]: one row per
    distinct value of [n.type] ([None] is Cypher's null), in order of first
    occurrence. *)
Fixpoint tally (k : option prop) (rows : list (option prop * nat)) : list (option prop * nat) :=
  match rows with
  | [] => [(k, 1)]
  | (k', c) :: rows' => if decide (k = k') then (k', S c) :: rows' else (k', c) :: tally k rows'
  end.

Definition group_by_type (ns : list node) : list (option prop * nat) :=
  foldl (λ rows n, tally (props n !! "type") rows) [] ns.

(** [ORDER BY count DESC]: a stable insertion sort, so rows with equal
    counts stay in grouping order (the store leaves their order open). *)
Fixpoint insert_desc (row : option prop * nat) (rows : list (option prop * nat)) : list (option prop * nat) :=
  match rows with
  | [] => [row]
  | r :: rows' => if decide (r.2 ≤ row.2) then row :: r :: rows' else r :: insert_desc row rows'
  end.

Definition order_by_count_desc (rows : list (option prop * nat)) : list (option prop * nat) :=
  foldr insert_desc [] rows.

(** [MATCH (n:label) RETURN n.type as node_type, count(n) as count
    ORDER BY count DESC LIMIT 10] *)
Definition type_breakdown (label : string) (g : graph) : list (option prop * nat) :=
  take 10 (order_by_count_desc (group_by_type (filter (λ n, label ∈ labels n) (nodes g)))).

(** ** The run: external calls, state and exceptions *)

(** The outside world of a run: the embedding the model computes for a
    text, whether the [k]-th call into a client library raises (and what),
    and the reading of the store's clock at that call. *)
Record services (vector : Type) := Services {
  encode_of : string → vector;
  fault_at : nat → option exn;
  clock_at : nat → Z
}.
Arguments Services {vector} _ _ _.
Arguments encode_of {vector} _ _.
Arguments fault_at {vector} _ _.
Arguments clock_at {vector} _ _.

(** [metadata] and the dictionary appended to [vectors_to_upload] *)
Record metadata := Metadata {
  md_id : value;
  md_name : string;
  md_description : string;
  md_type : string;
  md_text : string
}.

Record vector_entry (vector : Type) := VectorEntry {
  ve_id : string;
  ve_values : vector;
  ve_metadata : metadata
}.
Arguments VectorEntry {vector} _ _ _.
Arguments ve_id {vector} _.
Arguments ve_values {vector} _.
Arguments ve_metadata {vector} _.

(** What the process does to the outside, in order.  A call into a client
    library is recorded when it is issued, whether it returns or raises;
    [TxCommit] and [TxRollback] record how a transaction ended.
    [PrintError msg] is the line printed by the handler of the main block,
    which ends in [msg]. *)
Inductive event (vector : Type) :=
| ModelEncode (text : string)
| IndexUpsert (vectors : list (vector_entry vector))
| DescribeIndexStats
| SessionOpen
| SessionClose
| TxBegin
| TxRun (q : query)
| TxCommit
| TxRollback
| SessionRun (q : query)
| PrintError (msg : string)
| PrintTraceback (e : exn)
| DriverClose.
Arguments ModelEncode {vector} _.
Arguments IndexUpsert {vector} _.
Arguments DescribeIndexStats {vector}.
Arguments SessionOpen {vector}.
Arguments SessionClose {vector}.
Arguments TxBegin {vector}.
Arguments TxRun {vector} _.
Arguments TxCommit {vector}.
Arguments TxRollback {vector}.
Arguments SessionRun {vector} _.
Arguments PrintError {vector} _.
Arguments PrintTraceback {vector} _.
Arguments DriverClose {vector}.

(** The state a run threads: the number of calls issued so far and the
    content of the graph store. *)
Record world := World {
  ticks : nat;
  store : graph
}.

(** What a computation leaves: its result, the state, and the events it
    produced. *)
Record outcome (vector A : Type) := Outcome {
  res : result A;
  final : world;
  log : list (event vector)
}.
Arguments Outcome {vector A} _ _ _.
Arguments res {vector A} _.
Arguments final {vector A} _.
Arguments log {vector A} _.

Section Run.
Context {vector : Type} (svc : services vector).

Definition M (A : Type) : Type := world → outcome vector A.

Definition ret {A} (a : A) : M A := λ w, Outcome (Ok a) w [].

Definition raise {A} (e : exn) : M A := λ w, Outcome (Raise e) w [].

Definition bind {A B} (m : M A) (k : A → M B) : M B :=
  λ w, let o := m w in
       match res o with
       | Ok a => let o' := k a (final o) in
                 Outcome (res o') (final o') (log o ++ log o')
       | Raise e => Outcome (Raise e) (final o) (log o)
       end.

(** [try: m except C as e: handler(e)], where [caught] tells the instances
    of the class [C]: an exception that is not one of them goes through. *)
Definition try_except {A} (m : M A) (caught : exn → bool) (handler : exn → M A) : M A :=
  λ w, let o := m w in
       match res o with
       | Ok a => o
       | Raise e => if caught e
                    then let o' := handler e (final o) in
                         Outcome (res o') (final o') (log o ++ log o')
                    else o
       end.

(** The class [BaseException]: every exception is an instance. *)
Definition BaseException (e : exn) : bool := true.

(** [try: m finally: fin]; also the exit of a [with] block.  An exception
    of [fin] replaces the result of [m]. *)
Definition try_finally {A} (m : M A) (fin : M unit) : M A :=
  λ w, let o := m w in
       let o' := fin (final o) in
       Outcome (match res o' with Ok _ => res o | Raise e => Raise e end)
               (final o') (log o ++ log o').

(** Sequencing, written as in the source: one statement after the other. *)
Local Notation "x ← m ; k" := (bind m (λ x, k))
  (at level 20, m at level 100, k at level 200, only parsing).
Local Notation "m ;; k" := (bind m (λ _, k))
  (at level 100, k at level 200, only parsing, right associativity).

(** [for x in l: body(x)] *)
Fixpoint for_each {A} (body : A → M unit) (l : list A) : M unit :=
  match l with
  | [] => ret tt
  | x :: l' => body x;; for_each body l'
  end.

(** A loop that updates a local variable [acc]. *)
Fixpoint for_acc {A S} (body : S → A → M S) (l : list A) (acc : S) : M S :=
  match l with
  | [] => ret acc
  | x :: l' => acc ← body acc x; for_acc body l' acc
  end.

(** Something the process does itself and that does not raise. *)
Definition emit (ev : event vector) : M unit := λ w, Outcome (Ok tt) w [ev].

(** A call into a client library: recorded, counted, and raising when the
    outside world says so. *)
Definition call (ev : event vector) : M unit :=
  λ w, Outcome (match fault_at svc (ticks w) with
                | Some e => Raise e
                | None => Ok tt
                end)
               (World (S (ticks w)) (store w)) [ev].

Definition get_store : M graph := λ w, Outcome (Ok (store w)) w [].

Definition put_store (g : graph) : M unit := λ w, Outcome (Ok tt) (World (ticks w) g) [].

(** The reading of the store's clock at the next call. *)
Definition get_clock : M Z := λ w, Outcome (Ok (clock_at svc (ticks w))) w [].

(** [model.encode(text).tolist()] *)
Definition model_encode (text : string) : M vector :=
  call (ModelEncode text);;
  ret (encode_of svc text).

(** [index.upsert(vectors=vectors)] *)
Definition index_upsert (vectors : list (vector_entry vector)) : M unit :=
  call (IndexUpsert vectors).

(** [tx.run(query, ...)]: when the call returns, the store has executed
    the query at its clock reading. *)
Definition tx_run (q : query) : M unit :=
  now ← get_clock;
  call (TxRun q);;
  g ← get_store;
  put_store (exec q now g).

(** The end of a managed transaction whose function returned: the work is
    committed ([TxCommit] records that it was), unless the commit raises. *)
Definition commit : M unit :=
  λ w, match fault_at svc (ticks w) with
       | Some e => Outcome (Raise e) (World (S (ticks w)) (store w)) []
       | None => Outcome (Ok tt) (World (S (ticks w)) (store w)) [TxCommit]
       end.

(** [session.write_transaction(f, ...)]: the work of [f] is committed when
    [f] returns, and undone ([TxRollback]) when [f] or the commit raises,
    whatever the exception: work that is not committed is not in the store.
    The driver may run [f] again after a transient failure; that is not
    modelled, a failure ends the transaction. *)
Definition write_transaction (f : M unit) : M unit :=
  g0 ← get_store;
  call TxBegin;;
  try_except (f;; commit) BaseException
    (λ e, put_store g0;; emit TxRollback;; raise e).

(** [with driver.session() as session: body] *)
Definition with_session {A} (body : M A) : M A :=
  call SessionOpen;;
  try_finally body (emit SessionClose).

(** *** upload_to_pinecone *)

(** The dictionary built in the loop body from [text], [embedding], the
    index [i] and the record. *)
Definition make_entry (text : string) (embedding : vector) (i : nat) (it : item)
  : vector_entry vector :=
  let metadata := {|
    md_id := default (VStr (str_int (Z.of_nat i))) (item_id it);
    md_name := default "" (item_name it);
    md_description := default "" (item_description it);
    md_type := default "" (item_type it);
    md_text := slice_to 1000 text
  |} in
  {| ve_id := str (default (VInt (Z.of_nat i)) (item_id it));
     ve_values := embedding;
     ve_metadata := metadata |}.

Definition pinecone_step (vectors_to_upload : list (vector_entry vector)) (ix : nat * item)
  : M (list (vector_entry vector)) :=
  let text := create_embedding_text ix.2 in
  embedding ← model_encode text;
  let vectors_to_upload := vectors_to_upload ++ [make_entry text embedding ix.1 ix.2] in
  if decide (BATCH_SIZE ≤ length vectors_to_upload)
  then index_upsert vectors_to_upload;; ret []
  else ret vectors_to_upload.

Definition upload_to_pinecone (data : list item) : M unit :=
  vectors_to_upload ← for_acc pinecone_step (enumerate data) [];
  match vectors_to_upload with
  | [] => ret tt
  | _ :: _ => index_upsert vectors_to_upload
  end.

(** *** upload_to_neo4j *)

Definition clear_database : M unit := tx_run ClearDatabase.

(** The query of [create_node] with its parameters. *)
Definition node_query (it : item) : query :=
  CreateNode
    (param (default (VStr "") (item_id it)))
    (PStr (default "" (item_name it)))
    (PStr (default "" (item_description it)))
    (PStr (default "" (item_type it))).

Definition create_node (it : item) : M unit := tx_run (node_query it).

(** The query of [create_relationships] for one connection. *)
Definition relationship_query (it : item) (c : connection) : query :=
  CreateRelationship
    (param (default (VStr "") (item_id it)))
    (param (default (VStr "") (conn_id c)))
    (PStr (default "RELATED" (conn_type c))).

Definition create_relationships (it : item) : M unit :=
  match item_connections it with
  | Some conns => for_each (λ c, tx_run (relationship_query it c)) conns
  | None => ret tt
  end.

(** The loop under [# Create nodes] *)
Definition create_nodes (data : list item) : M unit :=
  for_each (λ it, write_transaction (create_node it)) data.

(** The loop under [# Create relationships] *)
Definition create_all_relationships (data : list item) : M unit :=
  for_each (λ it, write_transaction (create_relationships it)) data.

Definition upload_to_neo4j (data : list item) : M unit :=
  with_session (
    write_transaction clear_database;;
    create_nodes data;;
    create_all_relationships data).

(** *** Main execution *)

Definition session_run (q : query) : M unit := call (SessionRun q).

(** The [try] block. *)
Definition upload_body (data : list item) : M unit :=
  upload_to_pinecone data;;
  upload_to_neo4j data;;
  call DescribeIndexStats;;
  with_session (session_run CountServiceRule).

(** The [except Exception as e] block. *)
Definition report_error (e : exn) : M unit :=
  emit (PrintError (exn_msg e));;
  emit (PrintTraceback e).

Definition main (data : list item) : M unit :=
  try_finally (try_except (upload_body data) is_Exception report_error) (emit DriverClose).

(** *** verify_upload.py *)

Record report := Report {
  total_nodes : nat;
  total_relationships : nat;
  node_types : list (option prop * nat)
}.

Definition verify_upload : M report :=
  call DescribeIndexStats;;
  r ← with_session (
    session_run CountNodes;;
    g ← get_store;
    let total_nodes := length (nodes g) in
    session_run CountRelationships;;
    g ← get_store;
    let total_relationships := length (rels g) in
    session_run NodeTypes;;
    g ← get_store;
    ret (Report total_nodes total_relationships (type_breakdown "Entity" g)));
  emit DriverClose;;
  ret r.

End Run.

Arguments M : clear implicits.

(** ** Vocabulary of the properties

    What the statements below say about runs, logs and stores, in terms that
    are not names of the source; and the inputs of the examples. *)

(** The fields among [name], [description], [type] that are present and not
    empty, in that order. *)
Definition nonempty_fields (it : item) : list string :=
  omap (λ f : option string,
          match f with
          | Some s => if decide (s = "") then None else Some s
          | None => None
          end)
       [item_name it; item_description it; item_type it].

(** [needle] occurs in [hay]. *)
Definition occurs_in (needle hay : string) : Prop :=
  ∃ before after, hay = before +:+ needle +:+ after.

(** The settings [validate_config] looks at. *)
Definition mandatory_keys : list string :=
  ["PINECONE_API_KEY"; "NEO4J_PASSWORD"; "LLM_PROVIDER"; "OPENAI_API_KEY";
   "HUGGINGFACE_API_KEY"; "NEO4J_URI"].

(** [int] reads the defaults of the settings that are parsed. *)
Definition reads_defaults (int : string → result Z) : Prop :=
  ∀ s, s ∈ ["1024"; "5"; "8000"] → ∃ z, int s = Ok z.

(** The outside world raises nothing. *)
Definition no_faults {vector} (svc : services vector) : Prop :=
  ∀ k, fault_at svc k = None.

(** The batches handed to [index.upsert], in order. *)
Definition upsert_calls {vector} (t : list (event vector)) : list (list (vector_entry vector)) :=
  omap (λ ev, match ev with IndexUpsert vectors => Some vectors | _ => None end) t.

(** The entry of the record at index [ix.1]. *)
Definition entry_of {vector} (svc : services vector) (ix : nat * item) : vector_entry vector :=
  make_entry (create_embedding_text ix.2) (encode_of svc (create_embedding_text ix.2)) ix.1 ix.2.

(** The events of a node transaction that was committed. *)
Definition node_transaction {vector} (it : item) : list (event vector) :=
  [TxBegin; TxRun (node_query it); TxCommit].

(** The event is a relationship query handed to the store. *)
Definition relationship_run {vector} (ev : event vector) : Prop :=
  match ev with
  | TxRun (CreateRelationship _ _ _) => True
  | _ => False
  end.

(** The event belongs to the handler or to the [finally] block of the main
    block. *)
Definition top_level {vector} (ev : event vector) : Prop :=
  match ev with
  | PrintError _ | PrintTraceback _ | DriverClose => True
  | _ => False
  end.

(** [emits P m]: whatever happens, [m] produces only events in [P]. *)
Definition emits {vector A} (P : event vector → Prop) (m : M vector A) : Prop :=
  ∀ w, Forall P (log (m w)).

(** Every entry handed to the index by the event is in [Q]. *)
Definition upserts_only {vector} (Q : vector_entry vector → Prop) (ev : event vector) : Prop :=
  match ev with
  | IndexUpsert vectors => Forall Q vectors
  | _ => True
  end.

(** An outside world in which nothing raises: the embedding of a text is its
    length and the clock reads the number of calls made so far. *)
Definition quiet : services nat := Services String.length (λ _, None) Z.of_nat.

(** The run starts with no call made and an empty store. *)
Definition start : world := World 0 empty_graph.

(** The end-to-end scenario of the specification (section 8). *)
Definition scenario : list item := [
  Item (Some (VStr "1")) (Some "A") (Some "d1") (Some "t1")
       (Some [Connection (Some (VStr "2")) (Some "NEXT")]);
  Item (Some (VStr "2")) (Some "B") (Some "d2") (Some "t2") None
].

(** A record whose embedding text has 1200 characters. *)
Definition long_record : item :=
  Item (Some (VInt 7)) (Some (join "" (replicate 600 "ab"))) None None None.

(** The event is a node query handed to the store. *)
Definition node_run {vector} (ev : event vector) : Prop :=
  match ev with
  | TxRun (CreateNode _ _ _ _) => True
  | _ => False
  end.

(** The record with its list of connections replaced. *)
Definition with_connections (it : item) (conns : list connection) : item :=
  Item (item_id it) (item_name it) (item_description it) (item_type it) (Some conns).

(** The identifier under which a node answers [(n:ServiceRule {id: ...})]. *)
Definition node_key (n : node) : option prop :=
  if decide ("ServiceRule" ∈ labels n) then props n !! "id" else None.

(** The identifiers of the [ServiceRule] nodes of the store, one per node. *)
Definition service_rule_ids (g : graph) : list prop := omap node_key (nodes g).

(** The node, and the store, without the [created_at] property. *)
Definition forget_node (n : node) : node :=
  Node (nid n) (labels n) (delete "created_at" (props n)).

Definition forget_created_at (g : graph) : graph :=
  Graph (map forget_node (nodes g)) (rels g) (next_id g).

(** The node query of a record run at a clock reading. *)
Definition upsert (g : graph) (x : item * Z) : graph := exec (node_query x.1) x.2 g.

(** What that query does to one node of a store in which it matches. *)
Definition touch (n : node) (x : item * Z) : node :=
  if matches "ServiceRule" "id" (param (default (VStr "") (item_id x.1))) n
  then set_fields (PStr (default "" (item_name x.1))) (PStr (default "" (item_description x.1)))
         (PStr (default "" (item_type x.1))) x.2 n
  else n.

(** The records of a pass of [create_nodes] that starts after [t] calls,
    each with the clock reading of its query. *)
Fixpoint timed {vector} (svc : services vector) (t : nat) (data : list item) : list (item * Z) :=
  match data with
  | [] => []
  | it :: data' => (it, clock_at svc (S t)) :: timed svc (t + 3) data'
  end.

(** The identifier a record is upserted under. *)
Definition record_key (it : item) : prop := param (default (VStr "") (item_id it)).

(** Some node answers [(n:ServiceRule {id: v})]. *)
Definition present (v : prop) (g : graph) : bool :=
  existsb (matches "ServiceRule" "id" v) (nodes g).

(** [reads_only m]: whatever happens, [m] leaves the store as it was. *)
Definition reads_only {vector A} (m : M vector A) : Prop :=
  ∀ w, store (final (m w)) = store w.

(** The texts handed to [model.encode], in order. *)
Definition encode_calls {vector} (t : list (event vector)) : list string :=
  omap (λ ev, match ev with ModelEncode text => Some text | _ => None end) t.

(** The node holds the name, the description and the type of the record. *)
Definition holds_fields (it : item) (n : node) : Prop :=
  props n !! "name" = Some (PStr (default "" (item_name it))) ∧
  props n !! "description" = Some (PStr (default "" (item_description it))) ∧
  props n !! "type" = Some (PStr (default "" (item_type it))).

(** The relationship queries of a record, and of a dataset, in the order in
    which [create_relationships] hands them to the store. *)
Definition queries_of (it : item) : list query :=
  map (relationship_query it) (default [] (item_connections it)).

Definition all_queries (data : list item) : list query := data ≫= queries_of.

(** The store after a list of queries (none of which reads the clock). *)
Definition run_queries (g : graph) (qs : list query) : graph :=
  foldl (λ g q, exec q 0 g) g qs.

(** The second store has the nodes of the first and its relationships,
    followed by new ones. *)
Definition extends_rels (g g' : graph) : Prop :=
  nodes g' = nodes g ∧ next_id g' = next_id g ∧ rels g `prefix_of` rels g'.

(** [only_adds_rels m]: whatever happens, [m] changes no node and removes no
    relationship. *)
Definition only_adds_rels {vector A} (m : M vector A) : Prop :=
  ∀ w, extends_rels (store w) (store (final (m w))).

(** The pairs of nodes selected by the two [MATCH] clauses of the
    relationship query. *)
Definition rows_of (from_id to_id : prop) (g : graph) : list (nat * nat) :=
  a ← filter (λ n, matches "ServiceRule" "id" from_id n = true) (nodes g);
  b ← filter (λ n, matches "ServiceRule" "id" to_id n = true) (nodes g);
  [(nid a, nid b)].

(** Every pair the query selects is already joined as the query asks. *)
Definition merged (q : query) (g : graph) : Prop :=
  match q with
  | CreateRelationship from_id to_id ty =>
      ∀ row, row ∈ rows_of from_id to_id g → existsb (rel_matches row.1 row.2 ty) (rels g) = true
  | _ => True
  end.

(** The events of the transaction of a record in the loop over the
    relationships, when it was committed. *)
Definition relationship_transaction {vector} (it : item) : list (event vector) :=
  TxBegin :: map TxRun (queries_of it) ++ [TxCommit].

(** Every relationship of the store is a [RELATED_TO] between two nodes of
    the store. *)
Definition joins_nodes (g : graph) : Prop :=
  ∀ r, r ∈ rels g →
    r_type r = "RELATED_TO" ∧
    ∃ a b, a ∈ nodes g ∧ b ∈ nodes g ∧ r_start r = nid a ∧ r_end r = nid b.

(** ** The start of upload_data.py

    The statements of the module that run before the main block: the
    settings, the clients, the index and the dataset.  [sys.exit(1)] and an
    exception that nothing catches both end the process, with status 1. *)

(** The calls of the start into the client libraries and the file system,
    and the pause after the creation of the index. *)
Inductive setup_event :=
| PineconeInit (api_key : string)
| LoadModel (name : string)
| MakeDriver (uri username password : string)
| ListIndexes
| CreateIndex (name : string) (dimension : Z)
| Sleep (seconds : nat)
| OpenIndex (name : string)
| LoadData (path : string).

(** How a piece of the start ends: it goes on, it leaves through [sys.exit],
    or it raises. *)
Inductive ending (A : Type) : Type :=
| Done (a : A)
| Exit (status : Z)
| Uncaught (e : exn).
Arguments Done {A} a.
Arguments Exit {A} status.
Arguments Uncaught {A} e.

(** What the start finds outside: Python's [int] on a string, whether its
    [k]-th call raises, the answer of [pinecone.list_indexes()], and the
    records of [DATA_FILE] when the file exists. *)
Record host := Host {
  int_of : string → result Z;
  setup_fault : nat → option exn;
  existing_indexes : list string;
  data_file : option (list item)
}.

(** A piece of the start, from the calls made so far to its ending and the
    calls made then. *)
Definition Setup (A : Type) : Type := list setup_event → ending A * list setup_event.

Definition sret {A} (a : A) : Setup A := λ t, (Done a, t).

Definition sbind {A B} (m : Setup A) (k : A → Setup B) : Setup B :=
  λ t, match m t with
       | (Done a, t') => k a t'
       | (Exit status, t') => (Exit status, t')
       | (Uncaught e, t') => (Uncaught e, t')
       end.

(** [sys.exit(status)] *)
Definition sys_exit {A} (status : Z) : Setup A := λ t, (Exit status, t).

(** A call that may raise: the [k]-th call raises when the host says so. *)
Definition scall (h : host) (ev : setup_event) : Setup unit :=
  λ t, (match setup_fault h (length t) with
        | Some e => Uncaught e
        | None => Done tt
        end, t ++ [ev]).

(** [time.sleep(seconds)] *)
Definition sleep (seconds : nat) : Setup unit := λ t, (Done tt, t ++ [Sleep seconds]).

(** The value of an expression that may raise. *)
Definition of_result {A} (r : result A) : Setup A :=
  λ t, (match r with Ok a => Done a | Raise e => Uncaught e end, t).

(** [not x] for the value of [os.getenv(key)]: unset, or empty. *)
Definition falsy (x : option string) : bool :=
  match x with
  | Some s => bool_decide (s = "")
  | None => true
  end.

Definition DATA_FILE : string := "public/sikkim-gov-service-rules-dataset.json".

Section Start.
Context (h : host) (env : gmap string string).

Local Notation "x ← m ; k" := (sbind m (λ x, k))
  (at level 20, m at level 100, k at level 200, only parsing).
Local Notation "m ;; k" := (sbind m (λ _, k))
  (at level 100, k at level 200, only parsing, right associativity).

Definition INDEX_NAME : string := Config.getenv env "PINECONE_INDEX_NAME" "sikkim-service-rule".

(** The module of upload_data.py up to [data = json.load(f)]. *)
Definition startup : Setup (list item) :=
  VECTOR_DIM ← of_result (int_of h (Config.getenv env "PINECONE_VECTOR_DIM" "1024"));
  let PINECONE_API_KEY := env !! "PINECONE_API_KEY" in
  let NEO4J_URI := env !! "NEO4J_URI" in
  let NEO4J_USERNAME := env !! "NEO4J_USERNAME" in
  let NEO4J_PASSWORD := env !! "NEO4J_PASSWORD" in
  (if falsy PINECONE_API_KEY then sys_exit 1 else sret tt);;
  scall h (PineconeInit (default "" PINECONE_API_KEY));;
  scall h (LoadModel "BAAI/bge-large-en-v1.5");;
  (if falsy NEO4J_URI || falsy NEO4J_USERNAME || falsy NEO4J_PASSWORD
   then sys_exit 1 else sret tt);;
  scall h (MakeDriver (default "" NEO4J_URI) (default "" NEO4J_USERNAME)
             (default "" NEO4J_PASSWORD));;
  scall h ListIndexes;;
  (if bool_decide (INDEX_NAME ∈ existing_indexes h)
   then sret tt
   else scall h (CreateIndex INDEX_NAME VECTOR_DIM);; sleep 30);;
  scall h (OpenIndex INDEX_NAME);;
  match data_file h with
  | None => sys_exit 1
  | Some data => scall h (LoadData DATA_FILE);; sret data
  end.

End Start.

(** What a run of the script leaves: the exit status of the process, what
    it did (the start, then the main block), and the state of the stores. *)
Record run (vector : Type) := Run {
  status : Z;
  events : list (setup_event + event vector);
  after : world
}.
Arguments Run {vector} _ _ _.
Arguments status {vector} _.
Arguments events {vector} _.
Arguments after {vector} _.

(** upload_data.py run as a script. *)
Definition script {vector} (h : host) (svc : services vector) (env : gmap string string)
    (w : world) : run vector :=
  match startup h env [] with
  | (Done data, t) =>
      let o := main svc data w in
      Run (match res o with Ok _ => 0%Z | Raise _ => 1%Z end)
          (map inl t ++ map inr (log o)) (final o)
  | (Exit status, t) => Run status (map inl t) w
  | (Uncaught e, t) => Run 1 (map inl t) w
  end.

(** [semits P m]: whatever happens, the calls [m] adds are in [P]. *)
Definition semits {A} (P : setup_event → Prop) (m : Setup A) : Prop :=
  ∀ t, ∃ t', (m t).2 = t ++ t' ∧ Forall P t'.

(** Services whose [k]-th call raises [e], and no other. *)
Definition failing_at (k : nat) (e : exn) : services nat :=
  Services String.length (λ n, if decide (n = k) then Some e else None) Z.of_nat.

Definition timed_out : exn := Exn "TimeoutError" "timed out" true.

(** An environment that is in order but for the spelling of the provider. *)
Definition capitalised_provider : gmap string string :=
  list_to_map [("LLM_PROVIDER", "OpenAI"); ("PINECONE_API_KEY", "pc-key");
               ("NEO4J_PASSWORD", "secret"); ("NEO4J_URI", "neo4j+s://db.example.io");
               ("NEO4J_USERNAME", "neo4j")].

(** The calls of a start that goes through, in their order, for the
    dimension [d] of the index. *)
Definition full_start (h : host) (env : gmap string string) (d : Z) : list setup_event :=
  [PineconeInit (default "" (env !! "PINECONE_API_KEY"));
   LoadModel "BAAI/bge-large-en-v1.5";
   MakeDriver (default "" (env !! "NEO4J_URI")) (default "" (env !! "NEO4J_USERNAME"))
     (default "" (env !! "NEO4J_PASSWORD"));
   ListIndexes] ++
  (if bool_decide (INDEX_NAME env ∈ existing_indexes h)
   then [] else [CreateIndex (INDEX_NAME env) d; Sleep 30]) ++
  [OpenIndex (INDEX_NAME env); LoadData DATA_FILE].

(** Every exception the outside world raises is in [P]. *)
Definition faults_are {vector} (P : exn → Prop) (svc : services vector) : Prop :=
  ∀ k e, fault_at svc k = Some e → P e.

(** [raises_only P m]: an exception [m] ends on is in [P]. *)
Definition raises_only {vector A} (P : exn → Prop) (m : M vector A) : Prop :=
  ∀ w e, res (m w) = Raise e → P e.

(** No call of the start raises. *)
Definition no_setup_faults (h : host) : Prop := ∀ k, setup_fault h k = None.

(** A host for the examples: [int] reads decimal numerals, no call of the
    start raises, the index is not there yet, and the data file holds the
    records of the scenario. *)
Definition read_int (s : string) : result Z :=
  match NilZero.int_of_string s with
  | Some d => Ok (Z.of_int d)
  | None => Raise (ValueError ("invalid literal for int() with base 10: '" +:+ s +:+ "'"))
  end.

Definition fresh_host : host := Host read_int (λ _, None) [] (Some scenario).

(** * Properties *)

(** ** Strings *)

Lemma prefix_occurs (p s : string) :
  String.prefix p s = true ↔ ∃ rest, s = p +:+ rest.
Proof.
  revert s. induction p as [|a p IH]; intros [|b s]; simpl.
  - split; [intros _; exists ""; reflexivity | reflexivity].
  - split; [intros _; exists (String b s); reflexivity | reflexivity].
  - split; [discriminate | intros [rest H]; discriminate].
  - destruct (Ascii.ascii_dec a b) as [->|Hne].
    + rewrite IH. split; intros [rest H]; exists rest; simpl in *; [by rewrite H | by inversion H].
    + split; [discriminate | intros [rest H]; simpl in H; inversion H; done].
Qed.

Lemma contains_occurs (needle hay : string) :
  contains needle hay = true ↔ occurs_in needle hay.
Proof.
  unfold occurs_in. induction hay as [|c hay IH]; cbn [contains].
  - rewrite orb_false_r, prefix_occurs. split.
    + intros [rest H]. exists "", rest. done.
    + intros [before [after H]]. destruct before; simpl in H.
      * by exists after.
      * discriminate.
  - rewrite orb_true_iff, prefix_occurs, IH. split.
    + intros [[rest H] | [before [after H]]].
      * exists "", rest. done.
      * exists (String c before), after. simpl. by rewrite H.
    + intros [before [after H]]. destruct before as [|b before]; simpl in H.
      * left. by exists after.
      * right. exists before, after. by inversion H.
Qed.

Lemma slice_to_length (n : nat) (s : string) :
  String.length (slice_to n s) = Nat.min n (String.length s).
Proof.
  unfold slice_to. revert s. induction n as [|n IH]; intros s.
  - by destruct s.
  - destruct s as [|c s]; simpl; [done | by rewrite IH].
Qed.

Lemma slice_to_prefix (n : nat) (s : string) :
  ∃ rest, s = slice_to n s +:+ rest.
Proof.
  unfold slice_to. revert s. induction n as [|n IH]; intros s.
  - exists s. by destruct s.
  - destruct s as [|c s]; simpl; [by exists "" |].
    destruct (IH s) as [rest H]. exists rest.
    change (String c s = String c (substring 0 n s +:+ rest)). by rewrite <- H.
Qed.

Lemma slice_to_short (n : nat) (s : string) :
  String.length s ≤ n → slice_to n s = s.
Proof.
  unfold slice_to. revert s. induction n as [|n IH]; intros s.
  - destruct s; simpl; [done | lia].
  - destruct s as [|c s]; simpl; [done |]. intros H. rewrite IH; [done | lia].
Qed.

(** ** create_embedding_text *)

(** C2 -- [create_embedding_text] returns the fields among name, description
    and type that are present and not empty, in that order, joined by one
    space; when every one of the three is absent or empty the result is the
    empty string. *)
Theorem create_embedding_text_joins_nonempty (it : item) :
  create_embedding_text it = join " " (nonempty_fields it) ∧
  ((∀ f, f ∈ [item_name it; item_description it; item_type it] → f = None ∨ f = Some "") →
   create_embedding_text it = "").
Proof.
  assert (Heq : create_embedding_text it = join " " (nonempty_fields it)).
  { unfold create_embedding_text, nonempty_fields. f_equal.
    destruct it as [i [n|] [d|] [t|] c]; simpl;
      repeat (rewrite filter_cons; simpl);
      rewrite ?filter_nil;
      repeat case_decide; simplify_eq; try done. }
  split; [done |]. intros Hall. rewrite Heq. unfold nonempty_fields.
  destruct it as [i n d t c]; simpl in *.
  destruct (Hall n) as [-> | ->]; [set_solver | |];
    (destruct (Hall d) as [-> | ->]; [set_solver | |]);
    (destruct (Hall t) as [-> | ->]; [set_solver | |]); done.
Qed.

Lemma create_embedding_text_joins_nonempty_witness :
  create_embedding_text (Item (Some (VStr "1")) (Some "A") (Some "") (Some "t1") None) = "A t1" ∧
  create_embedding_text (Item (Some (VStr "1")) (Some "") None (Some "") None) = "".
Proof.
  split; [reflexivity |].
  apply (create_embedding_text_joins_nonempty
           (Item (Some (VStr "1")) (Some "") None (Some "") None)).
  intros f Hf. simpl in Hf.
  apply elem_of_cons in Hf as [-> | Hf]; [by right |].
  apply elem_of_cons in Hf as [-> | Hf]; [by left |].
  apply elem_of_cons in Hf as [-> | Hf]; [by right |].
  by apply elem_of_nil in Hf.
Defined.

Example create_embedding_text_all_fields :
  create_embedding_text (Item (Some (VInt 7)) (Some "A") (Some "d1") (Some "t1") None) = "A d1 t1".
Proof. reflexivity. Qed.

(** ** validate_config *)

Lemma getenv_absent (env : gmap string string) (key dflt : string) :
  env !! key = None → Config.getenv env key dflt = dflt.
Proof. unfold Config.getenv. by intros ->. Qed.

Lemma getenv_delete_ne (env : gmap string string) (k key dflt : string) :
  k ≠ key → Config.getenv (delete k env) key dflt = Config.getenv env key dflt.
Proof. intros H. unfold Config.getenv. by rewrite lookup_delete_ne. Qed.

Lemma collect_errors_delete (env : gmap string string) (k : string) :
  k ∉ mandatory_keys →
  Config.collect_errors (Config.load (delete k env)) = Config.collect_errors (Config.load env).
Proof.
  intros Hk. unfold mandatory_keys in Hk.
  repeat (apply not_elem_of_cons in Hk as [? Hk]).
  unfold Config.collect_errors, Config.load; simpl.
  by rewrite !getenv_delete_ne.
Qed.

Lemma placeholder_occurs :
  contains "your-neo4j-uri" "neo4j+s://your-neo4j-uri.databases.neo4j.io" = true.
Proof. reflexivity. Qed.

(** The list of errors as a function of the five tests of the source. *)
Lemma collect_errors_tests (c : Config.settings) :
  Config.collect_errors c =
    let errors := Config.append_if (Config.unset (Config.NEO4J_PASSWORD c)) "NEO4J_PASSWORD is not set"
                    (Config.append_if (Config.unset (Config.PINECONE_API_KEY c))
                       "PINECONE_API_KEY is not set" []) in
    Config.append_if (contains "your-neo4j-uri" (Config.NEO4J_URI c))
      "NEO4J_URI is not properly configured"
      (if bool_decide (Config.LLM_PROVIDER c = "openai") && Config.unset (Config.OPENAI_API_KEY c)
       then errors ++ ["OPENAI_API_KEY is not set (LLM_PROVIDER=openai)"]
       else if bool_decide (Config.LLM_PROVIDER c = "huggingface") &&
               Config.unset (Config.HUGGINGFACE_API_KEY c)
       then errors ++ ["HUGGINGFACE_API_KEY is not set (LLM_PROVIDER=huggingface)"]
       else errors).
Proof. reflexivity. Qed.

Lemma errors_of_tests (k p o h u : bool) :
  let errors := Config.append_if p "NEO4J_PASSWORD is not set"
                  (Config.append_if k "PINECONE_API_KEY is not set" []) in
  let errors := Config.append_if u "NEO4J_URI is not properly configured"
      (if o then errors ++ ["OPENAI_API_KEY is not set (LLM_PROVIDER=openai)"]
       else if h then errors ++ ["HUGGINGFACE_API_KEY is not set (LLM_PROVIDER=huggingface)"]
       else errors) in
  NoDup errors ∧
  ("PINECONE_API_KEY is not set" ∈ errors ↔ k = true) ∧
  ("NEO4J_PASSWORD is not set" ∈ errors ↔ p = true) ∧
  ("OPENAI_API_KEY is not set (LLM_PROVIDER=openai)" ∈ errors ↔ o = true) ∧
  ("HUGGINGFACE_API_KEY is not set (LLM_PROVIDER=huggingface)" ∈ errors ↔ o = false ∧ h = true) ∧
  ("NEO4J_URI is not properly configured" ∈ errors ↔ u = true) ∧
  Forall (λ e, e ∈ ["PINECONE_API_KEY is not set"; "NEO4J_PASSWORD is not set";
                    "OPENAI_API_KEY is not set (LLM_PROVIDER=openai)";
                    "HUGGINGFACE_API_KEY is not set (LLM_PROVIDER=huggingface)";
                    "NEO4J_URI is not properly configured"]) errors.
Proof.
  destruct k, p, o, h, u; cbv zeta; unfold Config.append_if; cbn [app];
    apply (bool_decide_unpack _); vm_compute; exact I.
Qed.

(** The import goes through exactly when the three numbers are read, and
    its string settings are those of [load]. *)
Lemma import_module_ok (int : string → result Z) (env : gmap string string) :
  (∃ m, Config.import_module int env = Ok m) ↔
  (∃ z, int (Config.getenv env "PINECONE_VECTOR_DIM" "1024") = Ok z) ∧
  (∃ z, int (Config.getenv env "PINECONE_TOP_K" "5") = Ok z) ∧
  (∃ z, int (Config.getenv env "API_PORT" "8000") = Ok z).
Proof.
  unfold Config.import_module.
  destruct (int (Config.getenv env "PINECONE_VECTOR_DIM" "1024")) as [d|e];
    [| split; [by intros [m [=]] | by intros ([z [=]] & _)]].
  destruct (int (Config.getenv env "PINECONE_TOP_K" "5")) as [t|e];
    [| split; [by intros [m [=]] | by intros (_ & [z [=]] & _)]].
  destruct (int (Config.getenv env "API_PORT" "8000")) as [p|e];
    [| split; [by intros [m [=]] | by intros (_ & _ & [z [=]])]].
  split; [intros _; split_and!; by eexists | intros _; by eexists].
Qed.

Lemma import_module_strings (int : string → result Z) (env : gmap string string)
    (m : Config.module_state) :
  Config.import_module int env = Ok m → Config.strings m = Config.load env.
Proof.
  unfold Config.import_module.
  destruct (int (Config.getenv env "PINECONE_VECTOR_DIM" "1024")) as [d|e]; [| done].
  destruct (int (Config.getenv env "PINECONE_TOP_K" "5")) as [t|e]; [| done].
  destruct (int (Config.getenv env "API_PORT" "8000")) as [p|e]; [| done].
  by intros [= <-].
Qed.

(** A setting that is taken out leaves a number that is read: the one that
    was read before, or the default. *)
Lemma getenv_delete_reads (int : string → result Z) (env : gmap string string)
    (k key dflt : string) :
  (∃ z, int dflt = Ok z) →
  (∃ z, int (Config.getenv env key dflt) = Ok z) →
  ∃ z, int (Config.getenv (delete k env) key dflt) = Ok z.
Proof.
  intros Hd He. destruct (decide (k = key)) as [-> | Hne].
  - unfold Config.getenv. by rewrite lookup_delete_eq.
  - by rewrite getenv_delete_ne.
Qed.

(** C7 -- Once the module is imported, [validate_config] returns [True] when
    no check fails; otherwise it raises one [ValueError] whose message lists
    the collected errors, one line each: one error for each of the Pinecone
    API key and the Neo4j password that is missing or empty, for the
    credential of the selected LLM provider ([openai] or [huggingface]) that
    is missing or empty, and for a Neo4j URI that is missing or holds the
    placeholder [your-neo4j-uri]; all of them together, not the first only.
    A missing optional setting never makes it raise: without the setting the
    module is still imported and the outcome is the same. *)
Theorem validate_config_collects_all (int : string → result Z) (env : gmap string string)
    (m : Config.module_state) :
  Config.import_module int env = Ok m →
  let c := Config.strings m in
  ∃ errors : list string,
    Config.validate_config c =
      match errors with
      | [] => Ok true
      | _ :: _ => Raise (ValueError (Config.error_msg errors))
      end ∧
    NoDup errors ∧
    ("PINECONE_API_KEY is not set" ∈ errors ↔ Config.PINECONE_API_KEY c = "") ∧
    ("NEO4J_PASSWORD is not set" ∈ errors ↔ Config.NEO4J_PASSWORD c = "") ∧
    ("OPENAI_API_KEY is not set (LLM_PROVIDER=openai)" ∈ errors ↔
       Config.LLM_PROVIDER c = "openai" ∧ Config.OPENAI_API_KEY c = "") ∧
    ("HUGGINGFACE_API_KEY is not set (LLM_PROVIDER=huggingface)" ∈ errors ↔
       Config.LLM_PROVIDER c = "huggingface" ∧ Config.HUGGINGFACE_API_KEY c = "") ∧
    ("NEO4J_URI is not properly configured" ∈ errors ↔
       occurs_in "your-neo4j-uri" (Config.NEO4J_URI c)) ∧
    (∀ e, e ∈ errors →
       e ∈ ["PINECONE_API_KEY is not set"; "NEO4J_PASSWORD is not set";
            "OPENAI_API_KEY is not set (LLM_PROVIDER=openai)";
            "HUGGINGFACE_API_KEY is not set (LLM_PROVIDER=huggingface)";
            "NEO4J_URI is not properly configured"]) ∧
    (env !! "PINECONE_API_KEY" = None → "PINECONE_API_KEY is not set" ∈ errors) ∧
    (env !! "NEO4J_PASSWORD" = None → "NEO4J_PASSWORD is not set" ∈ errors) ∧
    (env !! "NEO4J_URI" = None → "NEO4J_URI is not properly configured" ∈ errors) ∧
    (∀ k, k ∉ mandatory_keys → reads_defaults int →
       ∃ m', Config.import_module int (delete k env) = Ok m' ∧
             Config.validate_config (Config.strings m') = Config.validate_config c).
Proof.
  intros Himport c. exists (Config.collect_errors c).
  assert (Hc : c = Config.load env) by (by apply (import_module_strings int)).
  pose proof (errors_of_tests
    (Config.unset (Config.PINECONE_API_KEY c)) (Config.unset (Config.NEO4J_PASSWORD c))
    (bool_decide (Config.LLM_PROVIDER c = "openai") && Config.unset (Config.OPENAI_API_KEY c))
    (bool_decide (Config.LLM_PROVIDER c = "huggingface") &&
       Config.unset (Config.HUGGINGFACE_API_KEY c))
    (contains "your-neo4j-uri" (Config.NEO4J_URI c))) as Hmain.
  cbv zeta in Hmain. rewrite <- collect_errors_tests in Hmain.
  destruct Hmain as (Hnd & Hk & Hp & Ho & Hh & Hu & Hsub).
  unfold Config.unset in *.
  rewrite bool_decide_eq_true in Hk, Hp.
  rewrite andb_true_iff, !bool_decide_eq_true in Ho.
  rewrite andb_true_iff, andb_false_iff, !bool_decide_eq_true, !bool_decide_eq_false in Hh.
  rewrite contains_occurs in Hu.
  split; [unfold Config.validate_config; by destruct (Config.collect_errors c) |].
  split; [done |]. split; [done |]. split; [done |]. split; [done |].
  split.
  { rewrite Hh. split; [tauto |]. intros [Hl ?]. split; [| done].
    left. rewrite Hl. discriminate. }
  split; [done |].
  split; [by apply Forall_forall |].
  split; [intros H; apply Hk; rewrite Hc; simpl; by apply getenv_absent |].
  split; [intros H; apply Hp; rewrite Hc; simpl; by apply getenv_absent |].
  split.
  { intros H. apply Hu, contains_occurs. rewrite Hc; simpl.
    rewrite (getenv_absent _ _ _ H). apply placeholder_occurs. }
  intros k Hk' Hdefaults.
  destruct (proj1 (import_module_ok int env)) as (Hd & Ht & Hport); [by exists m |].
  destruct (proj2 (import_module_ok int (delete k env))) as [m' Hm'].
  { split_and!; apply getenv_delete_reads; try done; apply Hdefaults;
      repeat first [ apply list_elem_of_here | apply list_elem_of_further ]. }
  exists m'. split; [done |].
  rewrite (import_module_strings _ _ _ Hm'), Hc. unfold Config.validate_config.
  by rewrite collect_errors_delete.
Qed.

Lemma validate_config_collects_all_witness :
  ∃ (m : Config.module_state) (errors : list string),
    Config.import_module read_int ∅ = Ok m ∧
    Config.CORS_ORIGINS m = ["http://localhost:5173"; "http://localhost:3000"] ∧
    Config.validate_config (Config.strings m) =
      match errors with
      | [] => Ok true
      | _ :: _ => Raise (ValueError (Config.error_msg errors))
      end ∧
    "PINECONE_API_KEY is not set" ∈ errors ∧
    "NEO4J_PASSWORD is not set" ∈ errors ∧
    "NEO4J_URI is not properly configured" ∈ errors ∧
    ∃ m', Config.import_module read_int (delete "API_PORT" ∅) = Ok m' ∧
          Config.validate_config (Config.strings m') =
            Config.validate_config (Config.strings m).
Proof.
  set (m := {| Config.strings := Config.load ∅;
               Config.PINECONE_VECTOR_DIM := 1024;
               Config.PINECONE_TOP_K := 5;
               Config.API_PORT := 8000;
               Config.CORS_ORIGINS := ["http://localhost:5173"; "http://localhost:3000"] |}).
  assert (Hm : Config.import_module read_int ∅ = Ok m) by reflexivity.
  destruct (validate_config_collects_all read_int ∅ m Hm)
    as (errors & Hv & _ & _ & _ & _ & _ & _ & _ & Hk & Hp & Hu & Hopt).
  exists m, errors. split; [exact Hm |]. split; [reflexivity |]. split; [exact Hv |].
  split; [apply Hk; reflexivity |].
  split; [apply Hp; reflexivity |].
  split; [apply Hu; reflexivity |].
  apply Hopt.
  - unfold mandatory_keys. intros Hin.
    repeat (apply elem_of_cons in Hin as [[=] | Hin]). by apply elem_of_nil in Hin.
  - intros s' Hs. repeat (apply elem_of_cons in Hs as [-> | Hs]; [by eexists |]).
    by apply elem_of_nil in Hs.
Defined.

(** With nothing set the module is imported, and [validate_config] does not
    return the errors: it raises, and the four errors are the lines of the
    message. *)
Lemma validate_config_raises_the_errors :
  ∃ m, Config.import_module read_int ∅ = Ok m ∧
    (∀ r, Config.validate_config (Config.strings m) ≠ Ok r) ∧
    Config.validate_config (Config.strings m) =
      Raise (ValueError
        ("Configuration errors:" +:+ nl +:+
         "  - PINECONE_API_KEY is not set" +:+ nl +:+
         "  - NEO4J_PASSWORD is not set" +:+ nl +:+
         "  - HUGGINGFACE_API_KEY is not set (LLM_PROVIDER=huggingface)" +:+ nl +:+
         "  - NEO4J_URI is not properly configured")).
Proof.
  eexists. split; [reflexivity |].
  split; [intros r; discriminate | reflexivity].
Qed.

(** A dimension that is no numeral ends the import, on the [ValueError] of
    [int]: [validate_config] is not reached. *)
Example import_module_rejects_a_dimension :
  Config.import_module read_int
    (<["PINECONE_VECTOR_DIM" := "abc"]>
       (<["PINECONE_API_KEY" := "pk"]> (<["NEO4J_PASSWORD" := "pw"]>
          (<["HUGGINGFACE_API_KEY" := "hf"]> (<["NEO4J_URI" := "neo4j+s://db.example"]> ∅)))))
  = Raise (ValueError "invalid literal for int() with base 10: 'abc'").
Proof. reflexivity. Qed.

Example validate_config_complete_environment :
  Config.validate_config
    (Config.load (<["PINECONE_API_KEY" := "pk"]> (<["NEO4J_PASSWORD" := "pw"]>
       (<["HUGGINGFACE_API_KEY" := "hf"]> (<["NEO4J_URI" := "neo4j+s://db.example"]> ∅)))))
  = Ok true.
Proof. reflexivity. Qed.

(** ** The monad of runs *)

Section RunFacts.
Context {vector : Type} (svc : services vector).

Implicit Types (w : world) (ev : event vector) (P : event vector → Prop).

Lemma bind_ok {A B} (m : M vector A) (k : A → M vector B) w a :
  res (m w) = Ok a →
  bind m k w = Outcome (res (k a (final (m w)))) (final (k a (final (m w))))
                 (log (m w) ++ log (k a (final (m w)))).
Proof. unfold bind. by intros ->. Qed.

Lemma bind_res_ok {A B} (m : M vector A) (k : A → M vector B) w b :
  res (bind m k w) = Ok b →
  ∃ a, res (m w) = Ok a ∧ res (k a (final (m w))) = Ok b.
Proof.
  unfold bind. destruct (res (m w)) as [a|e]; simpl; [| done].
  intros H. by exists a.
Qed.

Lemma bind_log {A B} (m : M vector A) (k : A → M vector B) w :
  log (bind m k w) =
    log (m w) ++ match res (m w) with
                 | Ok a => log (k a (final (m w)))
                 | Raise _ => []
                 end.
Proof. unfold bind. destruct (res (m w)); simpl; [done | by rewrite app_nil_r]. Qed.

Lemma bind_eq {A B} (m : M vector A) (k : A → M vector B) w a (w' : world)
    (t : list (event vector)) :
  m w = Outcome (Ok a) w' t →
  bind m k w = Outcome (res (k a w')) (final (k a w')) (t ++ log (k a w')).
Proof. unfold bind. by intros ->. Qed.

Lemma try_except_ok {A} (m : M vector A) caught (handler : exn → M vector A) w a (w' : world)
    (t : list (event vector)) :
  m w = Outcome (Ok a) w' t → try_except m caught handler w = Outcome (Ok a) w' t.
Proof. unfold try_except. by intros ->. Qed.

Lemma call_no_faults ev w :
  no_faults svc → call svc ev w = Outcome (Ok tt) (World (S (ticks w)) (store w)) [ev].
Proof. intros Hnf. unfold call. by rewrite Hnf. Qed.

Lemma commit_no_faults w :
  no_faults svc → commit svc w = Outcome (Ok tt) (World (S (ticks w)) (store w)) [TxCommit].
Proof. intros Hnf. unfold commit. by rewrite Hnf. Qed.

Lemma with_session_log {A} (body : M vector A) w :
  log (with_session svc body w) =
    SessionOpen :: match fault_at svc (ticks w) with
                   | Some _ => []
                   | None => log (body (World (S (ticks w)) (store w))) ++ [SessionClose]
                   end.
Proof.
  unfold with_session, bind, call, try_finally, emit. simpl.
  destruct (fault_at svc (ticks w)); done.
Qed.

Lemma emits_ret {A} P (a : A) : emits P (ret a).
Proof. intros w. constructor. Qed.

Lemma emits_raise {A} P e : emits P (raise (A:=A) e).
Proof. intros w. constructor. Qed.

Lemma emits_get_store P : emits P get_store.
Proof. intros w. constructor. Qed.

Lemma emits_put_store P g : emits P (put_store g).
Proof. intros w. constructor. Qed.

Lemma emits_get_clock P : emits P (get_clock svc).
Proof. intros w. constructor. Qed.

Lemma emits_emit P ev : P ev → emits P (emit ev).
Proof. intros H w. by repeat constructor. Qed.

Lemma emits_call P ev : P ev → emits P (call svc ev).
Proof. intros H w. by repeat constructor. Qed.

Lemma emits_commit P : P TxCommit → emits P (commit svc).
Proof. intros H w. unfold commit. destruct (fault_at svc (ticks w)); by repeat constructor. Qed.

Lemma emits_bind {A B} P (m : M vector A) (k : A → M vector B) :
  emits P m → (∀ a, emits P (k a)) → emits P (bind m k).
Proof.
  intros Hm Hk w. unfold bind. specialize (Hm w).
  destruct (res (m w)) as [a|e]; simpl; [| done].
  apply Forall_app. split; [done | apply Hk].
Qed.

Lemma emits_try_except {A} P (m : M vector A) caught (handler : exn → M vector A) :
  emits P m → (∀ e, emits P (handler e)) → emits P (try_except m caught handler).
Proof.
  intros Hm Hh w. unfold try_except. specialize (Hm w).
  destruct (res (m w)) as [a|e]; simpl; [done |].
  destruct (caught e); simpl; [| done].
  apply Forall_app. split; [done | apply Hh].
Qed.

Lemma emits_try_finally {A} P (m : M vector A) (fin : M vector unit) :
  emits P m → emits P fin → emits P (try_finally m fin).
Proof.
  intros Hm Hf w. unfold try_finally. simpl.
  apply Forall_app. split; [apply Hm | apply Hf].
Qed.

Lemma emits_for_each {A} P (body : A → M vector unit) (l : list A) :
  (∀ x, emits P (body x)) → emits P (for_each body l).
Proof.
  intros Hb. induction l as [|x l IH]; simpl.
  - apply emits_ret.
  - apply emits_bind; [apply Hb | intros _; apply IH].
Qed.

Lemma emits_for_acc {A S} P (body : S → A → M vector S) (l : list A) (acc : S) :
  (∀ acc x, emits P (body acc x)) → emits P (for_acc body l acc).
Proof.
  intros Hb. revert acc. induction l as [|x l IH]; intros acc; simpl.
  - apply emits_ret.
  - apply emits_bind; [apply Hb | intros acc'; apply IH].
Qed.

Lemma emits_tx_run P q : P (TxRun q) → emits P (tx_run svc q).
Proof.
  intros H. unfold tx_run.
  apply emits_bind; [apply emits_get_clock | intros now].
  apply emits_bind; [by apply emits_call | intros _].
  apply emits_bind; [apply emits_get_store | intros g]. apply emits_put_store.
Qed.

Lemma emits_write_transaction P (f : M vector unit) :
  P TxBegin → P TxCommit → P TxRollback → emits P f → emits P (write_transaction svc f).
Proof.
  intros Hb Hc Hr Hf. unfold write_transaction.
  apply emits_bind; [apply emits_get_store | intros g0].
  apply emits_bind; [by apply emits_call | intros _].
  apply emits_try_except.
  - apply emits_bind; [done | intros _; by apply emits_commit].
  - intros e. apply emits_bind; [apply emits_put_store | intros _].
    apply emits_bind; [by apply emits_emit | intros _; apply emits_raise].
Qed.

Lemma emits_with_session {A} P (body : M vector A) :
  P SessionOpen → P SessionClose → emits P body → emits P (with_session svc body).
Proof.
  intros Ho Hc Hb. unfold with_session.
  apply emits_bind; [by apply emits_call | intros _].
  apply emits_try_finally; [done | by apply emits_emit].
Qed.

Lemma emits_upload_to_pinecone P data :
  (∀ text, P (ModelEncode text)) → (∀ vectors, P (IndexUpsert vectors)) →
  emits P (upload_to_pinecone svc data).
Proof.
  intros He Hu. unfold upload_to_pinecone, pinecone_step, model_encode, index_upsert.
  apply emits_bind.
  - apply emits_for_acc. intros acc x.
    apply emits_bind; [apply emits_bind; [by apply emits_call | intros; apply emits_ret] |].
    intros a. case_decide.
    + apply emits_bind; [by apply emits_call | intros; apply emits_ret].
    + apply emits_ret.
  - intros [|v vs]; [apply emits_ret | by apply emits_call].
Qed.

Lemma emits_create_relationships P it :
  (∀ c, P (TxRun (relationship_query it c))) → emits P (create_relationships svc it).
Proof.
  intros Hq. unfold create_relationships.
  destruct (item_connections it) as [conns|]; [| apply emits_ret].
  apply emits_for_each. intros c. by apply emits_tx_run.
Qed.

Lemma emits_create_all_relationships P data :
  P TxBegin → P TxCommit → P TxRollback →
  (∀ it c, P (TxRun (relationship_query it c))) →
  emits P (create_all_relationships svc data).
Proof.
  intros Hb Hm Hr Hq. apply emits_for_each. intros it.
  apply emits_write_transaction; [done | done | done |].
  by apply emits_create_relationships.
Qed.

Lemma emits_create_nodes P data :
  P TxBegin → P TxCommit → P TxRollback → (∀ it, P (TxRun (node_query it))) →
  emits P (create_nodes svc data).
Proof.
  intros Hb Hm Hr Hq. apply emits_for_each. intros it.
  apply emits_write_transaction; [done | done | done |].
  by apply emits_tx_run.
Qed.

Lemma emits_upload_to_neo4j P data :
  P SessionOpen → P SessionClose → P TxBegin → P TxCommit → P TxRollback →
  (∀ q, P (TxRun q)) →
  emits P (upload_to_neo4j svc data).
Proof.
  intros Ho Hc Hb Hm Hr Hq. unfold upload_to_neo4j.
  apply emits_with_session; [done | done |].
  apply emits_bind.
  { apply emits_write_transaction; [done | done | done |]. by apply emits_tx_run. }
  intros _. apply emits_bind.
  - by apply emits_create_nodes.
  - intros _. by apply emits_create_all_relationships.
Qed.

Lemma emits_upload_body data :
  emits (λ ev, ¬ top_level ev) (upload_body svc data).
Proof.
  unfold upload_body.
  apply emits_bind; [apply emits_upload_to_pinecone; simpl; tauto | intros _].
  apply emits_bind; [apply emits_upload_to_neo4j; simpl; tauto | intros _].
  apply emits_bind; [apply emits_call; simpl; tauto | intros _].
  apply emits_with_session; [simpl; tauto | simpl; tauto |].
  apply emits_call. simpl. tauto.
Qed.

End RunFacts.

(** ** Main execution *)

(** C8 -- An exception raised in the [try] block (embedding, vector upsert,
    graph write, the verification queries) that is an instance of
    [Exception] is handled once, by the handler of the main block, which
    prints the error and then the trace; nothing else in the run prints
    them, and the run then ends without an exception.  An exception that is
    not an instance of [Exception] passes the handler: nothing is printed
    and the run ends on it.  On the success path and on every failure path
    alike, the last act of the run is to close the driver, once. *)
Theorem main_handles_once_and_closes {vector} (svc : services vector) (data : list item) (w : world) :
  let body := upload_body svc data w in
  let o := main svc data w in
  Forall (λ ev, ¬ top_level ev) (log body) ∧
  match res body with
  | Ok _ => res o = Ok tt ∧ log o = log body ++ [DriverClose]
  | Raise e =>
      if is_Exception e
      then res o = Ok tt ∧
           log o = log body ++ [PrintError (exn_msg e); PrintTraceback e; DriverClose]
      else res o = Raise e ∧ log o = log body ++ [DriverClose]
  end.
Proof.
  intros body o. subst o body. unfold main, try_finally, try_except.
  pose proof (emits_upload_body svc data w) as Hbody.
  destruct (upload_body svc data w) as [r w' t]; simpl in *.
  split; [exact Hbody |].
  destruct r as [[]|e]; simpl; [done |].
  destruct (is_Exception e); simpl; [| done].
  split; [reflexivity | by rewrite <- app_assoc].
Qed.

(** An interrupt during the first call of the model is not handled: the
    run ends on it and prints nothing, though it closes the driver. *)
Lemma keyboard_interrupt_passes_the_handler :
  let o := main (failing_at 0 KeyboardInterrupt) scenario start in
  res (upload_body (failing_at 0 KeyboardInterrupt) scenario start) = Raise KeyboardInterrupt ∧
  res o = Raise KeyboardInterrupt ∧
  log o = [ModelEncode "A d1 t1"; DriverClose].
Proof. vm_compute. done. Qed.

(** ** upload_to_pinecone *)

Section Pinecone.
Context {vector : Type} (svc : services vector).

Implicit Types (w : world) (acc : list (vector_entry vector)) (ix : nat * item).

Lemma upsert_calls_app (t1 t2 : list (event vector)) :
  upsert_calls (t1 ++ t2) = upsert_calls t1 ++ upsert_calls t2.
Proof. apply omap_app. Qed.

Lemma elem_of_enumerate_from {A} (l : list A) start i (x : A) :
  (i, x) ∈ enumerate_from start l ↔ start ≤ i ∧ l !! (i - start) = Some x.
Proof.
  revert start. induction l as [|y l IH]; intros start; simpl.
  - rewrite elem_of_nil. split; [done | by intros [_ ?]].
  - rewrite elem_of_cons, IH. split.
    + intros [Heq | [Hle Hl]].
      * simplify_eq. rewrite Nat.sub_diag. split; [lia | done].
      * split; [lia |]. replace (i - start) with (S (i - S start)) by lia. done.
    + intros [Hle Hl]. destruct (decide (i = start)) as [->|Hne].
      * rewrite Nat.sub_diag in Hl. simpl in Hl. left. congruence.
      * right. split; [lia |].
        replace (i - start) with (S (i - S start)) in Hl by lia. done.
Qed.

Lemma elem_of_enumerate {A} (l : list A) i (x : A) :
  (i, x) ∈ enumerate l ↔ l !! i = Some x.
Proof.
  unfold enumerate. rewrite elem_of_enumerate_from, Nat.sub_0_r. split; [tauto | ].
  intros H. split; [lia | done].
Qed.

Lemma length_enumerate_from {A} (l : list A) start :
  length (enumerate_from start l) = length l.
Proof. revert start. induction l as [|y l IH]; intros start; simpl; [done | by rewrite IH]. Qed.

(** One turn of the loop that returns: the accumulated batch is flushed
    exactly when it has reached [BATCH_SIZE]. *)
Lemma pinecone_step_returns acc ix w acc' :
  res (pinecone_step svc acc ix w) = Ok acc' →
  if decide (BATCH_SIZE ≤ length (acc ++ [entry_of svc ix]))
  then upsert_calls (log (pinecone_step svc acc ix w)) = [acc ++ [entry_of svc ix]] ∧ acc' = []
  else upsert_calls (log (pinecone_step svc acc ix w)) = [] ∧ acc' = acc ++ [entry_of svc ix].
Proof.
  unfold pinecone_step, model_encode, index_upsert, entry_of, bind, call, ret. simpl.
  destruct (fault_at svc (ticks w)); simpl; [done |].
  case_decide; simpl.
  - destruct (fault_at svc (S (ticks w))); simpl; [done |]. intros [= <-]. done.
  - intros [= <-]. done.
Qed.

Lemma pinecone_loop_returns (l : list (nat * item)) acc w acc' :
  length acc < BATCH_SIZE →
  res (for_acc (pinecone_step svc) l acc w) = Ok acc' →
  let calls := upsert_calls (log (for_acc (pinecone_step svc) l acc w)) in
  concat calls ++ acc' = acc ++ map (entry_of svc) l ∧
  Forall (λ batch, length batch = BATCH_SIZE) calls ∧
  length acc' < BATCH_SIZE.
Proof.
  revert acc w. induction l as [|ix l IH]; intros acc w Hlen; simpl.
  - intros [= <-]. rewrite app_nil_r. done.
  - intros Hres. destruct (bind_res_ok _ _ _ _ Hres) as (acc1 & Hstep & Hrest).
    rewrite (bind_ok _ _ _ _ Hstep). simpl. rewrite upsert_calls_app.
    pose proof (pinecone_step_returns _ _ _ _ Hstep) as Hshape.
    rewrite length_app in Hshape. simpl in Hshape.
    case_decide as Hfull; destruct Hshape as [Hcalls ->].
    + destruct (IH [] (final (pinecone_step svc acc ix w))) as (Hcat & Hall & Hlt);
        [unfold BATCH_SIZE; simpl; lia | done |].
      rewrite Hcalls. simpl. split; [| split].
      * rewrite <- !app_assoc, Hcat. done.
      * constructor; [| done]. rewrite length_app. simpl. lia.
      * done.
    + destruct (IH (acc ++ [entry_of svc ix]) (final (pinecone_step svc acc ix w)))
        as (Hcat & Hall & Hlt); [rewrite length_app; simpl; lia | done |].
      rewrite Hcalls. simpl. split; [| done].
      rewrite Hcat. by rewrite <- app_assoc.
Qed.

Lemma length_concat_batches (calls : list (list (vector_entry vector))) :
  Forall (λ batch, length batch = BATCH_SIZE) calls →
  length (concat calls) = BATCH_SIZE * length calls.
Proof.
  induction 1 as [|b calls Hb _ IH]; simpl; [lia |].
  rewrite length_app, IH, Hb. unfold BATCH_SIZE. lia.
Qed.

(** What a run of [upload_to_pinecone] that returns has handed to the
    index. *)
Lemma upload_to_pinecone_returns data w :
  res (upload_to_pinecone svc data w) = Ok tt →
  ∃ full remainder,
    upsert_calls (log (upload_to_pinecone svc data w)) =
      full ++ match remainder with [] => [] | _ :: _ => [remainder] end ∧
    Forall (λ batch, length batch = BATCH_SIZE) full ∧
    length remainder < BATCH_SIZE ∧
    concat full ++ remainder = map (entry_of svc) (enumerate data).
Proof.
  unfold upload_to_pinecone. intros Hres.
  destruct (bind_res_ok _ _ _ _ Hres) as (acc' & Hloop & Hlast).
  rewrite (bind_ok _ _ _ _ Hloop). simpl. rewrite upsert_calls_app.
  destruct (pinecone_loop_returns _ [] _ _ (ltac:(unfold BATCH_SIZE; simpl; lia)) Hloop)
    as (Hcat & Hall & Hlt).
  eexists _, acc'. split; [| done].
  f_equal. destruct acc'; reflexivity.
Qed.

(** With nothing raising outside, [upload_to_pinecone] returns. *)
Lemma pinecone_loop_no_faults (l : list (nat * item)) acc w :
  no_faults svc → ∃ acc', res (for_acc (pinecone_step svc) l acc w) = Ok acc'.
Proof.
  intros Hnf. revert acc w. induction l as [|ix l IH]; intros acc w; simpl.
  - by eexists.
  - unfold bind at 1.
    assert (∃ acc1, res (pinecone_step svc acc ix w) = Ok acc1) as [acc1 ->].
    { unfold pinecone_step, model_encode, index_upsert, bind, call, ret. simpl.
      rewrite Hnf. simpl. case_decide; simpl; [rewrite Hnf |]; by eexists. }
    simpl. apply IH.
Qed.

Lemma upload_to_pinecone_no_faults data w :
  no_faults svc → res (upload_to_pinecone svc data w) = Ok tt.
Proof.
  intros Hnf. unfold upload_to_pinecone.
  destruct (pinecone_loop_no_faults (enumerate data) [] w Hnf) as [acc' Hloop].
  rewrite (bind_ok _ _ _ _ Hloop). simpl.
  destruct acc'; simpl; [done |]. unfold index_upsert, call. simpl. by rewrite Hnf.
Qed.

End Pinecone.

(** C1 -- A run of [upload_to_pinecone] over N records that returns has made
    exactly ceil(N/32) upsert calls: N div 32 calls of 32 entries each, made
    when the accumulated batch reached 32, and then one call with the
    remaining N mod 32 entries when that number is not zero.  The calls
    taken together carry the entry of each record once, in the order of the
    dataset. *)
Theorem upload_to_pinecone_batches {vector} (svc : services vector) (data : list item) (w : world) :
  res (upload_to_pinecone svc data w) = Ok tt →
  let calls := upsert_calls (log (upload_to_pinecone svc data w)) in
  let N := length data in
  length calls = (N + 31) / 32 ∧
  concat calls = map (entry_of svc) (enumerate data) ∧
  ∃ full remainder,
    calls = full ++ match remainder with [] => [] | _ :: _ => [remainder] end ∧
    Forall (λ batch, length batch = 32) full ∧
    length full = N / 32 ∧
    length remainder = N mod 32.
Proof.
  intros Hres calls N.
  destruct (upload_to_pinecone_returns svc data w Hres) as (full & rem & Hcalls & Hfull & Hlt & Hcat).
  fold calls in Hcalls.
  assert (Hlen : 32 * length full + length rem = N).
  { change 32 with BATCH_SIZE.
    rewrite <- (length_concat_batches _ Hfull), <- length_app, Hcat, length_map.
    apply length_enumerate_from. }
  unfold BATCH_SIZE in Hlt.
  assert (Hq : length full = N / 32).
  { apply (Nat.div_unique N 32 _ (length rem)); lia. }
  assert (Hr : length rem = N mod 32).
  { apply (Nat.mod_unique N 32 (length full)); lia. }
  split; [| split].
  - rewrite Hcalls, length_app. destruct rem as [|e rem]; simpl in *.
    + apply (Nat.div_unique (N + 31) 32 _ 31); lia.
    + apply (Nat.div_unique (N + 31) 32 _ (length rem)); lia.
  - rewrite Hcalls, concat_app, <- Hcat. f_equal.
    destruct rem; simpl; [done | by rewrite app_nil_r].
  - by exists full, rem.
Qed.

Lemma upload_to_pinecone_batches_witness :
  let data := replicate 70 (Item None (Some "A") None None None) in
  res (upload_to_pinecone quiet data start) = Ok tt ∧
  length (upsert_calls (log (upload_to_pinecone quiet data start))) = 3.
Proof.
  intros data.
  assert (H : res (upload_to_pinecone quiet data start) = Ok tt) by (vm_compute; reflexivity).
  split; [exact H |].
  exact (proj1 (upload_to_pinecone_batches quiet data start H)).
Defined.

Section PineconeEntries.
Context {vector : Type} (svc : services vector).

Implicit Types (w : world) (acc : list (vector_entry vector)) (ix : nat * item).

(** Whether it returns or raises, the loop hands to the index only entries
    built from the records it has gone through. *)
Lemma pinecone_loop_entries (Q : vector_entry vector → Prop) (l : list (nat * item)) acc :
  Forall Q acc → Forall (λ ix, Q (entry_of svc ix)) l →
  emits (upserts_only Q) (for_acc (pinecone_step svc) l acc) ∧
  ∀ w acc', res (for_acc (pinecone_step svc) l acc w) = Ok acc' → Forall Q acc'.
Proof.
  revert acc. induction l as [|ix l IH]; intros acc Hacc Hl; simpl.
  - split; [apply emits_ret |]. by intros w acc' [= <-].
  - apply Forall_cons in Hl as [Hix Hl].
    assert (Hnext : Forall Q (acc ++ [entry_of svc ix])).
    { apply Forall_app. split; [done | by repeat constructor]. }
    assert (Hstep : emits (upserts_only Q) (pinecone_step svc acc ix) ∧
                    ∀ w acc1, res (pinecone_step svc acc ix w) = Ok acc1 → Forall Q acc1).
    { split.
      - intros w. unfold pinecone_step, model_encode, index_upsert, bind, call, ret. simpl.
        destruct (fault_at svc (ticks w)); simpl; [by repeat constructor |].
        case_decide; simpl; [destruct (fault_at svc (S (ticks w))); simpl |];
          by repeat constructor.
      - intros w acc1 Hres. pose proof (pinecone_step_returns svc _ _ _ _ Hres) as Hshape.
        case_decide; destruct Hshape as [_ ->]; [constructor | done]. }
    destruct Hstep as [Hemit Hinv]. split.
    + intros w. unfold bind. specialize (Hemit w).
      destruct (res (pinecone_step svc acc ix w)) as [acc1|e] eqn:Hres; simpl; [| done].
      apply Forall_app. split; [done |].
      apply IH; [by eapply Hinv | done].
    + intros w acc' Hres.
      destruct (bind_res_ok _ _ _ _ Hres) as (acc1 & Hres1 & Hres2).
      eapply IH; [by eapply Hinv | done | exact Hres2].
Qed.

Lemma upload_to_pinecone_entries (data : list item) :
  emits (upserts_only (λ e, ∃ ix, ix ∈ enumerate data ∧ e = entry_of svc ix))
    (upload_to_pinecone svc data).
Proof.
  set (Q := λ e, ∃ ix, ix ∈ enumerate data ∧ e = entry_of svc ix).
  destruct (pinecone_loop_entries Q (enumerate data) []) as [Hemit Hinv].
  { constructor. }
  { apply Forall_forall. intros ix Hix. by exists ix. }
  intros w. unfold upload_to_pinecone, bind. specialize (Hemit w).
  destruct (res (for_acc (pinecone_step svc) (enumerate data) [] w)) as [acc|e] eqn:Hres;
    simpl; [| done].
  apply Forall_app. split; [done |].
  destruct acc as [|v acc]; simpl; [constructor |].
  apply Forall_cons. split; [| constructor]. simpl. by eapply Hinv.
Qed.

End PineconeEntries.

(** C6 -- Every entry that [upload_to_pinecone] hands to the index comes
    from a record of the dataset, and its metadata field [text] holds the
    first 1000 characters of the embedding text of that record: exactly 1000
    characters when the text is longer, the whole text otherwise.  The
    identifier and the vector of the entry are computed from the record and
    from the whole text, so the truncation has no part in them. *)
Theorem upload_to_pinecone_truncates_text {vector} (svc : services vector)
    (data : list item) (w : world) (batch : list (vector_entry vector)) (e : vector_entry vector) :
  IndexUpsert batch ∈ log (upload_to_pinecone svc data w) →
  e ∈ batch →
  ∃ i it,
    data !! i = Some it ∧
    let text := create_embedding_text it in
    let stored := md_text (ve_metadata e) in
    (∃ rest, text = stored +:+ rest) ∧
    (1000 < String.length text → String.length stored = 1000) ∧
    (String.length text ≤ 1000 → stored = text) ∧
    ve_id e = str (default (VInt (Z.of_nat i)) (item_id it)) ∧
    ve_values e = encode_of svc text.
Proof.
  intros Hbatch He.
  pose proof (upload_to_pinecone_entries svc data w) as Hall.
  rewrite Forall_forall in Hall. specialize (Hall _ Hbatch). simpl in Hall.
  rewrite Forall_forall in Hall. destruct (Hall _ He) as ([i it] & Hix & ->).
  apply elem_of_enumerate in Hix.
  exists i, it. split; [done |]. simpl.
  split; [apply slice_to_prefix |].
  split; [intros Hlong; rewrite slice_to_length; lia |].
  split; [apply slice_to_short | done].
Qed.

Lemma upload_to_pinecone_truncates_text_witness :
  let e := entry_of quiet (0, long_record) in
  IndexUpsert [e] ∈ log (upload_to_pinecone quiet [long_record] start) ∧
  String.length (md_text (ve_metadata e)) = 1000 ∧
  ve_id e = "7".
Proof.
  intros e.
  assert (Hlog : IndexUpsert [e] ∈ log (upload_to_pinecone quiet [long_record] start)).
  { assert (Heq : log (upload_to_pinecone quiet [long_record] start)
                  = [ModelEncode (create_embedding_text long_record); IndexUpsert [e]])
      by (vm_compute; reflexivity).
    rewrite Heq. apply elem_of_cons. right. apply elem_of_cons. by left. }
  assert (He : e ∈ [e]) by (apply elem_of_cons; by left).
  split; [exact Hlog |].
  destruct (upload_to_pinecone_truncates_text quiet [long_record] start [e] e Hlog He)
    as (i & it & Hit & _ & Hlong & _ & Hid & _).
  destruct i as [|i]; [| by destruct i].
  injection Hit as <-.
  split; [apply Hlong; vm_compute; lia | exact Hid].
Defined.

(** ** upload_to_neo4j: the order of the transactions *)

Lemma app_split_after {A} (P : A → Prop) (t1 t2 pre post : list A) (x : A) :
  Forall P t1 → ¬ P x → t1 ++ t2 = pre ++ x :: post →
  ∃ mid, pre = t1 ++ mid ∧ t2 = mid ++ x :: post.
Proof.
  intros Ht1 Hx. revert pre. induction Ht1 as [|a t1 Ha _ IH]; intros pre Heq; simpl in *.
  - by exists pre.
  - destruct pre as [|b pre]; simpl in Heq.
    + injection Heq as -> _. done.
    + injection Heq as -> Heq. destruct (IH _ Heq) as (mid & -> & ->). by exists mid.
Qed.

Section Transactions.
Context {vector : Type} (svc : services vector).

Implicit Types (w : world) (f : M vector unit).

(** A managed transaction that returns has begun, run its function to the
    end and committed; the store is as the function left it. *)
Lemma write_transaction_returns f w :
  res (write_transaction svc f w) = Ok tt →
  let w1 := World (S (ticks w)) (store w) in
  res (f w1) = Ok tt ∧
  log (write_transaction svc f w) = TxBegin :: log (f w1) ++ [TxCommit] ∧
  final (write_transaction svc f w) = World (S (ticks (final (f w1)))) (store (final (f w1))).
Proof.
  unfold write_transaction, bind, get_store, call, try_except, commit, put_store, emit, raise.
  simpl. destruct (fault_at svc (ticks w)); simpl; [done |].
  destruct (f (World (S (ticks w)) (store w))) as [[[]|e] w' t]; simpl; [| done].
  destruct (fault_at svc (ticks w')); simpl; [done |]. done.
Qed.

Lemma tx_run_no_faults q w :
  no_faults svc →
  tx_run svc q w =
    Outcome (Ok tt) (World (S (ticks w)) (exec q (clock_at svc (ticks w)) (store w))) [TxRun q].
Proof.
  intros Hnf. unfold tx_run, bind, get_clock, call, get_store, put_store. simpl.
  by rewrite Hnf.
Qed.

Lemma write_transaction_no_faults f w (w' : world) (t : list (event vector)) :
  no_faults svc →
  f (World (S (ticks w)) (store w)) = Outcome (Ok tt) w' t →
  write_transaction svc f w =
    Outcome (Ok tt) (World (S (ticks w')) (store w')) (TxBegin :: t ++ [TxCommit]).
Proof.
  intros Hnf Hf. unfold write_transaction.
  rewrite (bind_eq get_store _ w (store w) w []) by done.
  rewrite (bind_eq (call svc TxBegin) _ w tt _ [TxBegin]) by (by apply call_no_faults).
  assert (Hbody : bind f (λ _, commit svc) (World (S (ticks w)) (store w)) =
                  Outcome (Ok tt) (World (S (ticks w')) (store w')) (t ++ [TxCommit])).
  { rewrite (bind_eq f _ _ tt w' t Hf). by rewrite commit_no_faults. }
  rewrite (try_except_ok _ _ _ _ _ _ _ Hbody). done.
Qed.

Lemma tx_run_log q w : log (tx_run svc q w) = [TxRun q].
Proof.
  unfold tx_run, bind, get_clock, call, get_store, put_store. simpl.
  destruct (fault_at svc (ticks w)); simpl; done.
Qed.

(** The loop over the nodes, when it returns, has committed the node
    transaction of each record, in the order of the dataset. *)
Lemma create_nodes_returns data w :
  res (create_nodes svc data w) = Ok tt →
  log (create_nodes svc data w) = concat (map node_transaction data).
Proof.
  unfold create_nodes. revert w. induction data as [|it data IH]; intros w; simpl; [done |].
  intros Hres. destruct (bind_res_ok _ _ _ _ Hres) as ([] & Hit & Hrest).
  rewrite (bind_ok _ _ _ _ Hit). cbn [log]. rewrite (IH _ Hrest).
  destruct (write_transaction_returns _ _ Hit) as (Hrun & -> & _).
  unfold create_node. rewrite tx_run_log. done.
Qed.

Lemma clear_without_relationships w :
  Forall (λ ev, ¬ relationship_run ev) (log (write_transaction svc (clear_database svc) w)).
Proof.
  apply emits_write_transaction; simpl; try tauto.
  apply emits_tx_run. simpl. tauto.
Qed.

Lemma nodes_without_relationships data w :
  Forall (λ ev, ¬ relationship_run ev) (log (create_nodes svc data w)).
Proof. apply emits_create_nodes; simpl; tauto. Qed.

(** The shape of every log of [upload_to_neo4j]: a part without any
    relationship query, and after it, only when the store was cleared and
    the node transaction of every record was committed, a part without any
    node query. *)
Lemma upload_to_neo4j_phases data w :
  ∃ t1 t2,
    log (upload_to_neo4j svc data w) = t1 ++ t2 ∧
    Forall (λ ev, ¬ relationship_run ev) t1 ∧
    Forall (λ ev, ¬ node_run ev) t2 ∧
    (t2 = [] ∨
     t1 = [SessionOpen; TxBegin; TxRun ClearDatabase; TxCommit] ++
          concat (map node_transaction data)).
Proof.
  unfold upload_to_neo4j. rewrite with_session_log.
  destruct (fault_at svc (ticks w)) as [e|].
  { exists [SessionOpen], [].
    split; [done | split; [| split; [constructor | by left]]].
    rewrite Forall_singleton. simpl. tauto. }
  set (w1 := World (S (ticks w)) (store w)).
  rewrite bind_log.
  pose proof (clear_without_relationships w1) as Hclear.
  destruct (res (write_transaction svc (clear_database svc) w1)) as [[]|e] eqn:Hres1.
  2:{ eexists _, []. split; [symmetry; apply app_nil_r |].
      split; [| split; [constructor | by left]].
      constructor; [simpl; tauto |]. rewrite ?app_nil_r. apply Forall_app. split; [done |].
      rewrite Forall_singleton. simpl. tauto. }
  set (w2 := final (write_transaction svc (clear_database svc) w1)).
  rewrite bind_log.
  pose proof (nodes_without_relationships data w2) as Hnodes.
  destruct (res (create_nodes svc data w2)) as [[]|e] eqn:Hres2.
  2:{ eexists _, []. split; [symmetry; apply app_nil_r |].
      split; [| split; [constructor | by left]].
      constructor; [simpl; tauto |]. rewrite ?app_nil_r. apply Forall_app. split.
      - apply Forall_app. split; done.
      - rewrite Forall_singleton. simpl. tauto. }
  destruct (write_transaction_returns _ _ Hres1) as (_ & Hlog1 & _).
  unfold clear_database in Hlog1. rewrite tx_run_log in Hlog1.
  pose proof (create_nodes_returns _ _ Hres2) as Hlog2.
  set (w3 := final (create_nodes svc data w2)).
  exists ([SessionOpen; TxBegin; TxRun ClearDatabase; TxCommit] ++ concat (map node_transaction data)),
         (log (create_all_relationships svc data w3) ++ [SessionClose]).
  split; [| split; [| split; [| by right]]].
  - change (tx_run svc ClearDatabase) with (clear_database svc) in Hlog1.
    rewrite Hlog1, Hlog2. cbn [app]. by rewrite <- !app_assoc.
  - rewrite <- Hlog2. repeat (constructor; [simpl; tauto |]). done.
  - apply Forall_app. split; [| rewrite Forall_singleton; simpl; tauto].
    apply emits_create_all_relationships; simpl; tauto.
Qed.

End Transactions.

(** C3 -- In every log of [upload_to_neo4j], whatever raises, a relationship
    query reaches the store only after the store was cleared and the node
    transaction of every record of the dataset was committed, in the order of
    the dataset; no node query comes after it. *)
Theorem nodes_before_relationships {vector} (svc : services vector) (data : list item) (w : world)
    (pre post : list (event vector)) (ev : event vector) :
  log (upload_to_neo4j svc data w) = pre ++ ev :: post →
  relationship_run ev →
  (∃ mid, pre = [SessionOpen; TxBegin; TxRun ClearDatabase; TxCommit] ++
                concat (map node_transaction data) ++ mid) ∧
  Forall (λ ev', ¬ node_run ev') post.
Proof.
  intros Hlog Hev.
  destruct (upload_to_neo4j_phases svc data w) as (t1 & t2 & Heq & Ht1 & Ht2 & Hshape).
  rewrite Heq in Hlog.
  destruct (app_split_after _ _ _ _ _ _ Ht1 (λ H, H Hev) Hlog) as (mid & Hpre & Hpost).
  destruct Hshape as [-> | ->].
  { by destruct mid. }
  split.
  - exists mid. by rewrite Hpre, <- app_assoc.
  - rewrite Hpost in Ht2. apply Forall_app in Ht2 as [_ Ht2]. by apply Forall_cons in Ht2 as [_ ?].
Qed.

Lemma nodes_before_relationships_witness :
  ∃ pre ev post,
    log (upload_to_neo4j quiet scenario start) = pre ++ ev :: post ∧
    relationship_run ev ∧
    (∃ mid, pre = [SessionOpen; TxBegin; TxRun ClearDatabase; TxCommit] ++
                  concat (map node_transaction scenario) ++ mid) ∧
    Forall (λ ev', ¬ node_run ev') post.
Proof.
  exists ([SessionOpen; TxBegin; TxRun ClearDatabase; TxCommit] ++
          concat (map node_transaction scenario) ++ [TxBegin]),
         (TxRun (CreateRelationship (PStr "1") (PStr "2") (PStr "NEXT"))),
         [TxCommit; TxBegin; TxCommit; SessionClose].
  assert (Hlog : log (upload_to_neo4j quiet scenario start) =
                 ([SessionOpen; TxBegin; TxRun ClearDatabase; TxCommit] ++
                  concat (map node_transaction scenario) ++ [TxBegin]) ++
                 TxRun (CreateRelationship (PStr "1") (PStr "2") (PStr "NEXT")) ::
                 [TxCommit; TxBegin; TxCommit; SessionClose])
    by (vm_compute; reflexivity).
  split; [exact Hlog |]. split; [exact I |].
  exact (nodes_before_relationships quiet scenario start _ _ _ Hlog I).
Defined.

(** ** The store: relationships *)

Lemma graph_eta (g : graph) : Graph (nodes g) (rels g) (next_id g) = g.
Proof. by destruct g. Qed.

(** A [MATCH] on the target that selects no node leaves nothing to merge. *)
Lemma merge_rel_no_target (from_id to_id ty : prop) (g : graph) :
  (∀ n, n ∈ nodes g → matches "ServiceRule" "id" to_id n = false) →
  merge_rel from_id to_id ty g = g.
Proof.
  intros Hnone. unfold merge_rel.
  assert (Hbs : filter (λ n, matches "ServiceRule" "id" to_id n = true) (nodes g) = []).
  { induction (nodes g) as [|n ns IH]; [done |].
    rewrite filter_cons_False.
    - apply IH. intros m Hm. apply Hnone. by right.
    - rewrite (Hnone n); [done | by left]. }
  rewrite Hbs.
  assert (Hrows : ∀ l : list node, (a ← l; b ← []; [(nid a, nid b)]) = @nil (nat * nat)).
  { induction l as [|a l IH]; [done |]. rewrite bind_cons, IH. done. }
  rewrite Hrows. simpl. apply graph_eta.
Qed.

Lemma merge_rel_row_keeps (ty : prop) (rs : list rel) (row : nat * nat) (r : rel) :
  r ∈ rs → r ∈ merge_rel_row ty rs row.
Proof.
  intros Hr. unfold merge_rel_row. case_match; [done |].
  apply elem_of_app. by left.
Qed.

Lemma merge_rel_rows_keep (ty : prop) (rows : list (nat * nat)) (rs : list rel) (r : rel) :
  r ∈ rs → r ∈ foldl (merge_rel_row ty) rs rows.
Proof.
  revert rs. induction rows as [|row rows IH]; intros rs Hr; simpl; [done |].
  apply IH. by apply merge_rel_row_keeps.
Qed.

Lemma merge_rel_keeps (from_id to_id ty : prop) (g : graph) (r : rel) :
  r ∈ rels g → r ∈ rels (merge_rel from_id to_id ty g).
Proof. intros Hr. simpl. by apply merge_rel_rows_keep. Qed.

Lemma merge_rel_row_has (ty : prop) (rs : list rel) (row : nat * nat) :
  ∃ r, r ∈ merge_rel_row ty rs row ∧ rel_matches row.1 row.2 ty r = true.
Proof.
  unfold merge_rel_row. destruct (existsb _ rs) eqn:Hex.
  - apply existsb_exists in Hex as (r & Hin & Hr). exists r.
    split; [by apply list_elem_of_In | done].
  - eexists. split; [apply elem_of_app; right; apply list_elem_of_singleton; reflexivity |].
    unfold rel_matches. simpl. rewrite !bool_decide_eq_true_2; done.
Qed.

Lemma merge_rel_rows_have (ty : prop) (rows : list (nat * nat)) (rs : list rel) (row : nat * nat) :
  row ∈ rows →
  ∃ r, r ∈ foldl (merge_rel_row ty) rs rows ∧ rel_matches row.1 row.2 ty r = true.
Proof.
  revert rs. induction rows as [|row' rows IH]; intros rs Hrow; [by apply elem_of_nil in Hrow |].
  apply elem_of_cons in Hrow as [-> | Hrow]; simpl.
  - destruct (merge_rel_row_has ty rs row') as (r & Hin & Hr).
    exists r. split; [by apply merge_rel_rows_keep | done].
  - by apply IH.
Qed.

(** When both endpoints are matched, the relationship is in the store after
    the [MERGE]. *)
Lemma merge_rel_has (from_id to_id ty : prop) (g : graph) (a b : node) :
  a ∈ nodes g → b ∈ nodes g →
  matches "ServiceRule" "id" from_id a = true →
  matches "ServiceRule" "id" to_id b = true →
  ∃ r, r ∈ rels (merge_rel from_id to_id ty g) ∧ rel_matches (nid a) (nid b) ty r = true.
Proof.
  intros Ha Hb Hma Hmb. simpl.
  apply (merge_rel_rows_have ty _ _ (nid a, nid b)).
  apply list_elem_of_bind. exists a. split; [| by apply list_elem_of_filter].
  apply list_elem_of_bind. exists b. split; [| by apply list_elem_of_filter].
  apply list_elem_of_singleton. reflexivity.
Qed.

(** ** create_relationships *)

Section Relationships.
Context {vector : Type} (svc : services vector).

Implicit Types (w : world) (it : item) (c : connection).

(** The store after the queries of a list of connections. *)
Lemma relationships_no_faults it (conns : list connection) w :
  no_faults svc →
  for_each (λ c, tx_run svc (relationship_query it c)) conns w =
    Outcome (Ok tt)
      (World (ticks w + length conns)
             (foldl (λ g c, exec (relationship_query it c) 0 g) (store w) conns))
      (map (λ c, TxRun (relationship_query it c)) conns).
Proof.
  intros Hnf. revert w. induction conns as [|c conns IH]; intros w; cbn [for_each].
  - simpl. rewrite Nat.add_0_r. by destruct w.
  - unfold bind. rewrite (tx_run_no_faults svc _ _ Hnf). cbn [res final log].
    rewrite IH. cbn [res final log ticks store length foldl map app].
    f_equal. f_equal. lia.
Qed.

Lemma create_relationships_no_faults it (conns : list connection) w :
  no_faults svc → item_connections it = Some conns →
  create_relationships svc it w =
    Outcome (Ok tt)
      (World (ticks w + length conns)
             (foldl (λ g c, exec (relationship_query it c) 0 g) (store w) conns))
      (map (λ c, TxRun (relationship_query it c)) conns).
Proof.
  intros Hnf Hconns. unfold create_relationships. rewrite Hconns.
  by apply relationships_no_faults.
Qed.

Lemma relationships_nodes it (conns : list connection) (g : graph) :
  nodes (foldl (λ g c, exec (relationship_query it c) 0 g) g conns) = nodes g.
Proof.
  revert g. induction conns as [|c conns IH]; intros g; simpl; [done |].
  by rewrite IH.
Qed.

Lemma relationships_keep it (conns : list connection) (g : graph) (r : rel) :
  r ∈ rels g → r ∈ rels (foldl (λ g c, exec (relationship_query it c) 0 g) g conns).
Proof.
  revert g. induction conns as [|c conns IH]; intros g Hr; simpl; [done |].
  apply IH. by apply merge_rel_keeps.
Qed.

End Relationships.

(** C4 -- When a connection of a record names an identifier that no node of
    the graph carries, [create_relationships] still hands the query of every
    connection to the store and returns without an error; the query of that
    connection leaves the store as it is, and the store ends as it would
    have without that connection, so the other connections are processed. *)
Theorem dangling_connection_is_skipped {vector} (svc : services vector)
    (it : item) (before after : list connection) (c : connection) (w : world) :
  no_faults svc →
  item_connections it = Some (before ++ c :: after) →
  (∀ n, n ∈ nodes (store w) →
        matches "ServiceRule" "id" (param (default (VStr "") (conn_id c))) n = false) →
  let o := create_relationships svc it w in
  res o = Ok tt ∧
  log o = map (λ c', TxRun (relationship_query it c')) (before ++ c :: after) ∧
  (∀ now, exec (relationship_query it c) now (store w) = store w) ∧
  store (final o) =
    store (final (create_relationships svc (with_connections it (before ++ after)) w)).
Proof.
  intros Hnf Hconns Hnone o. subst o.
  rewrite (create_relationships_no_faults svc it _ w Hnf Hconns).
  rewrite (create_relationships_no_faults svc (with_connections it (before ++ after))
             (before ++ after) w Hnf eq_refl).
  cbn [res final log store]. split; [done |]. split; [done |].
  assert (Hskip : ∀ now g, nodes g = nodes (store w) → exec (relationship_query it c) now g = g).
  { intros now g Hg. apply merge_rel_no_target. rewrite Hg. exact Hnone. }
  split; [intros now; by apply Hskip |].
  change (λ g c', exec (relationship_query (with_connections it (before ++ after)) c') 0 g)
    with (λ g c', exec (relationship_query it c') 0 g).
  rewrite !foldl_app. cbn [foldl]. f_equal.
  apply Hskip, relationships_nodes.
Qed.

Lemma quiet_no_faults : no_faults quiet.
Proof. intros k. reflexivity. Qed.

Lemma dangling_connection_is_skipped_witness :
  let it := Item (Some (VStr "1")) (Some "A") (Some "d1") (Some "t1")
              (Some [Connection (Some (VStr "9")) (Some "NEXT");
                     Connection (Some (VStr "2")) (Some "NEXT")]) in
  let w := final (create_nodes quiet scenario start) in
  let o := create_relationships quiet it w in
  res o = Ok tt ∧ length (rels (store (final o))) = 1.
Proof.
  intros it w o.
  assert (Hnone : ∀ n, n ∈ nodes (store w) →
            matches "ServiceRule" "id" (param (default (VStr "") (Some (VStr "9")))) n = false).
  { apply Forall_forall. apply (bool_decide_unpack _). vm_compute. exact I. }
  destruct (dangling_connection_is_skipped quiet it []
              [Connection (Some (VStr "2")) (Some "NEXT")]
              (Connection (Some (VStr "9")) (Some "NEXT")) w
              quiet_no_faults eq_refl Hnone) as (Hres & _ & _ & Hstore).
  split; [exact Hres |].
  fold o in Hstore. rewrite Hstore. vm_compute. reflexivity.
Defined.

(** C10 -- A connection without a [type] is handed to the store with the
    relation type [RELATED], and a record or a connection without an [id]
    with the empty string as its identifier.  With nothing raising outside,
    the query of the connection is among those handed to the store, and
    when both endpoints are matched the store then holds a [RELATED_TO]
    relationship between them whose [type] is the relation type of the
    query, [RELATED] for a connection without a [type]. *)
Theorem missing_type_defaults_to_RELATED {vector} (svc : services vector)
    (it : item) (before after : list connection) (c : connection) (w : world) (a b : node) :
  ∃ from_id to_id relation_type,
    relationship_query it c = CreateRelationship from_id to_id relation_type ∧
    (conn_type c = None → relation_type = PStr "RELATED") ∧
    (item_id it = None → from_id = PStr "") ∧
    (conn_id c = None → to_id = PStr "") ∧
    (no_faults svc →
     item_connections it = Some (before ++ c :: after) →
     let o := create_relationships svc it w in
     res o = Ok tt ∧
     TxRun (CreateRelationship from_id to_id relation_type) ∈ log o ∧
     (a ∈ nodes (store w) → b ∈ nodes (store w) →
      matches "ServiceRule" "id" from_id a = true →
      matches "ServiceRule" "id" to_id b = true →
      ∃ r, r ∈ rels (store (final o)) ∧
           r_start r = nid a ∧ r_end r = nid b ∧ r_type r = "RELATED_TO" ∧
           r_props r !! "type" = Some relation_type)).
Proof.
  exists (param (default (VStr "") (item_id it))), (param (default (VStr "") (conn_id c))),
         (PStr (default "RELATED" (conn_type c))).
  split; [reflexivity |].
  split; [by intros -> |]. split; [by intros -> |]. split; [by intros -> |].
  intros Hnf Hconns o. subst o.
  rewrite (create_relationships_no_faults svc it _ w Hnf Hconns).
  cbn [res final log store]. split; [done |]. split.
  - change (@TxRun vector (relationship_query it c) ∈
            map (λ c', TxRun (relationship_query it c')) (before ++ c :: after)).
    apply list_elem_of_fmap. exists c. split; [done |].
    apply elem_of_app. right. by left.
  - intros Ha Hb Hma Hmb. rewrite foldl_app. cbn [foldl].
    set (g := foldl (λ g c', exec (relationship_query it c') 0 g) (store w) before).
    assert (Hg : nodes g = nodes (store w)) by apply relationships_nodes.
    destruct (merge_rel_has (param (default (VStr "") (item_id it)))
                (param (default (VStr "") (conn_id c)))
                (PStr (default "RELATED" (conn_type c))) g a b)
      as (r & Hr & Hm); [by rewrite Hg | by rewrite Hg | done | done |].
    exists r. split.
    + apply relationships_keep. exact Hr.
    + unfold rel_matches in Hm.
      rewrite !andb_true_iff, !bool_decide_eq_true in Hm. tauto.
Qed.

Lemma missing_type_defaults_to_RELATED_witness :
  let c := Connection (Some (VStr "2")) None in
  let it := Item (Some (VStr "1")) (Some "A") (Some "d1") (Some "t1") (Some [c]) in
  let w := final (create_nodes quiet scenario start) in
  conn_type c = None ∧
  ∃ r, r ∈ rels (store (final (create_relationships quiet it w))) ∧
       r_type r = "RELATED_TO" ∧ r_props r !! "type" = Some (PStr "RELATED").
Proof.
  intros c it w. split; [reflexivity |].
  assert (Hnodes : ∃ a b, nodes (store w) = [a; b] ∧
                          matches "ServiceRule" "id" (PStr "1") a = true ∧
                          matches "ServiceRule" "id" (PStr "2") b = true).
  { vm_compute. eexists _, _. split; [reflexivity |]. split; reflexivity. }
  destruct Hnodes as (a & b & Hnodes & Hma & Hmb).
  destruct (missing_type_defaults_to_RELATED quiet it [] [] c w a b)
    as (from_id & to_id & relation_type & Hq & Hty & _ & _ & Hrun).
  injection Hq as <- <- _. rewrite (Hty eq_refl) in Hrun.
  destruct (Hrun quiet_no_faults eq_refl) as (_ & _ & Hedge).
  destruct Hedge as (r & Hr & _ & _ & Hrt & Hprop).
  - rewrite Hnodes. apply elem_of_cons. by left.
  - rewrite Hnodes. apply elem_of_cons. right. apply elem_of_cons. by left.
  - exact Hma.
  - exact Hmb.
  - exists r. split; [exact Hr |]. split; [exact Hrt | exact Hprop].
Defined.

(** ** The store: nodes *)

Lemma matches_node_key (v : prop) (n : node) :
  matches "ServiceRule" "id" v n = true ↔ node_key n = Some v.
Proof.
  unfold matches, node_key. rewrite andb_true_iff, !bool_decide_eq_true.
  case_decide; split; try tauto; try done.
Qed.

Lemma node_key_set_fields (a b c : prop) (t : Z) (n : node) :
  node_key (set_fields a b c t n) = node_key n.
Proof.
  unfold node_key, set_fields. simpl. case_decide; [| done].
  by rewrite !lookup_insert_ne.
Qed.

Lemma matches_set_fields (v a b c : prop) (t : Z) (n : node) :
  matches "ServiceRule" "id" v (set_fields a b c t n) = matches "ServiceRule" "id" v n.
Proof.
  apply eq_true_iff_eq. by rewrite !matches_node_key, node_key_set_fields.
Qed.

Lemma node_key_touch (n : node) (x : item * Z) : node_key (touch n x) = node_key n.
Proof. unfold touch. case_match; [apply node_key_set_fields | done]. Qed.

Lemma matches_touch (v : prop) (n : node) (x : item * Z) :
  matches "ServiceRule" "id" v (touch n x) = matches "ServiceRule" "id" v n.
Proof. apply eq_true_iff_eq. by rewrite !matches_node_key, node_key_touch. Qed.

Lemma matches_touches (v : prop) (l : list (item * Z)) (n : node) :
  matches "ServiceRule" "id" v (foldl touch n l) = matches "ServiceRule" "id" v n.
Proof.
  revert n. induction l as [|x l IH]; intros n; simpl; [done |].
  by rewrite IH, matches_touch.
Qed.

(** A later [SET] of the four properties hides an earlier one, and without
    [created_at] the clock reading of the [SET] does not show. *)
Lemma forget_set_fields_twice (a b c a' b' c' : prop) (t t' t'' : Z) (n : node) :
  forget_node (set_fields a b c t (set_fields a' b' c' t' n)) =
  forget_node (set_fields a b c t'' n).
Proof.
  unfold forget_node, set_fields. simpl. f_equal.
  apply map_eq. intros k.
  repeat (rewrite lookup_delete || rewrite lookup_insert || case_decide); congruence.
Qed.

Lemma forget_set_fields_time (a b c : prop) (t t' : Z) (n : node) :
  forget_node (set_fields a b c t n) = forget_node (set_fields a b c t' n).
Proof.
  unfold forget_node, set_fields. simpl. f_equal.
  apply map_eq. intros k.
  repeat (rewrite lookup_delete || rewrite lookup_insert || case_decide); congruence.
Qed.

Lemma forget_set_fields_touch (a b c : prop) (t t' : Z) (n : node) (x : item * Z) :
  forget_node (set_fields a b c t (touch n x)) = forget_node (set_fields a b c t' n).
Proof.
  unfold touch. case_match; [apply forget_set_fields_twice | apply forget_set_fields_time].
Qed.

Lemma forget_set_fields_touches (a b c : prop) (t t' : Z) (l : list (item * Z)) (n : node) :
  forget_node (set_fields a b c t (foldl touch n l)) = forget_node (set_fields a b c t' n).
Proof.
  revert n. induction l as [|x l IH]; intros n; simpl.
  - apply forget_set_fields_time.
  - rewrite (IH (touch n x)). apply forget_set_fields_touch.
Qed.

Lemma upsert_present (g : graph) (x : item * Z) :
  present (record_key x.1) g = true →
  upsert g x = Graph (map (λ n, touch n x) (nodes g)) (rels g) (next_id g).
Proof.
  unfold present, upsert, node_query, record_key. simpl. unfold merge_node.
  intros ->. done.
Qed.

Lemma upsert_absent (g : graph) (x : item * Z) :
  present (record_key x.1) g = false →
  upsert g x =
    Graph (nodes g ++
           [set_fields (PStr (default "" (item_name x.1))) (PStr (default "" (item_description x.1)))
              (PStr (default "" (item_type x.1))) x.2
              (Node (next_id g) ["ServiceRule"] {["id" := record_key x.1]})])
          (rels g) (S (next_id g)).
Proof.
  unfold present, upsert, node_query, record_key. simpl. unfold merge_node.
  intros ->. done.
Qed.

Lemma present_elem (v : prop) (g : graph) :
  present v g = true ↔ ∃ n, n ∈ nodes g ∧ matches "ServiceRule" "id" v n = true.
Proof.
  unfold present. rewrite existsb_exists. split; intros (n & Hn & Hm); exists n;
    (split; [by apply list_elem_of_In | done]).
Qed.

Lemma absent_elem (v : prop) (g : graph) (n : node) :
  present v g = false → n ∈ nodes g → matches "ServiceRule" "id" v n = false.
Proof.
  intros Habs Hn. destruct (matches "ServiceRule" "id" v n) eqn:Hm; [| done].
  assert (present v g = true) by (apply present_elem; by exists n). congruence.
Qed.

Lemma matches_new_node (v a b c : prop) (t : Z) (i : nat) :
  matches "ServiceRule" "id" v (set_fields a b c t (Node i ["ServiceRule"] {["id" := v]})) = true.
Proof.
  rewrite matches_set_fields. unfold matches. simpl.
  rewrite lookup_singleton_eq. by apply bool_decide_eq_true_2.
Qed.

Lemma present_upsert (v : prop) (g : graph) (x : item * Z) :
  present v g = true → present v (upsert g x) = true.
Proof.
  intros Hv. destruct (present (record_key x.1) g) eqn:Hx.
  - rewrite (upsert_present _ _ Hx). apply present_elem in Hv as (n & Hn & Hm).
    apply present_elem. exists (touch n x). simpl. split.
    + apply list_elem_of_fmap. by exists n.
    + by rewrite matches_touch.
  - rewrite (upsert_absent _ _ Hx). apply present_elem in Hv as (n & Hn & Hm).
    apply present_elem. exists n. simpl. split; [apply elem_of_app; by left | done].
Qed.

Lemma present_upsert_self (g : graph) (x : item * Z) :
  present (record_key x.1) (upsert g x) = true.
Proof.
  destruct (present (record_key x.1) g) eqn:Hx.
  - by apply present_upsert.
  - rewrite (upsert_absent _ _ Hx). apply present_elem. eexists. simpl. split.
    + apply elem_of_app. right. apply list_elem_of_singleton. reflexivity.
    + apply matches_new_node.
Qed.

Lemma present_upserts (v : prop) (l : list (item * Z)) (g : graph) :
  present v g = true → present v (foldl upsert g l) = true.
Proof.
  revert g. induction l as [|x l IH]; intros g Hv; simpl; [done |].
  by apply IH, present_upsert.
Qed.

(** After a pass, the identifier of every record of the pass is present. *)
Lemma present_after_pass (l : list (item * Z)) (g : graph) (x : item * Z) :
  x ∈ l → present (record_key x.1) (foldl upsert g l) = true.
Proof.
  revert g. induction l as [|y l IH]; intros g Hx; [by apply elem_of_nil in Hx |].
  apply elem_of_cons in Hx as [-> | Hx]; simpl.
  - apply present_upserts, present_upsert_self.
  - by apply IH.
Qed.

(** A pass over records that are all present touches the nodes in place. *)
Lemma pass_over_present (l : list (item * Z)) (g : graph) :
  (∀ x, x ∈ l → present (record_key x.1) g = true) →
  foldl upsert g l = Graph (map (λ n, foldl touch n l) (nodes g)) (rels g) (next_id g).
Proof.
  revert g. induction l as [|x l IH]; intros g Hall; simpl.
  - rewrite map_id. by destruct g.
  - rewrite (upsert_present g x) by (apply Hall; by left).
    rewrite IH.
    + simpl. by rewrite map_map.
    + intros y Hy. apply present_elem.
      destruct (proj1 (present_elem _ _) (Hall y (ltac:(by right)))) as (n & Hn & Hm).
      exists (touch n x). simpl. split; [apply list_elem_of_fmap; by exists n |].
      by rewrite matches_touch.
Qed.

Lemma touch_hit (n : node) (x : item * Z) :
  matches "ServiceRule" "id" (record_key x.1) n = true →
  touch n x = set_fields (PStr (default "" (item_name x.1)))
                (PStr (default "" (item_description x.1)))
                (PStr (default "" (item_type x.1))) x.2 n.
Proof. unfold touch, record_key. by intros ->. Qed.

Lemma touch_miss (n : node) (x : item * Z) :
  matches "ServiceRule" "id" (record_key x.1) n = false → touch n x = n.
Proof. unfold touch, record_key. by intros ->. Qed.

(** Once a pass has run, a second pass over the same records, at whatever
    clock readings, changes no node but for [created_at]. *)
Lemma touches_after_pass (l1 l2 : list (item * Z)) (g : graph) (n : node) :
  l2.*1 = l1.*1 → n ∈ nodes (foldl upsert g l1) →
  forget_node (foldl touch n l2) = forget_node n.
Proof.
  revert l2 n. induction l1 as [|x1 l1 IH] using rev_ind; intros l2 n Hfst Hn.
  - destruct l2; [done | discriminate].
  - rewrite fmap_app in Hfst. cbn [fmap list_fmap] in Hfst.
    apply fmap_app_inv in Hfst as (l2' & l2x & Hl2' & Hl2x & ->).
    destruct l2x as [|x2 [|? ?]]; try discriminate.
    injection Hl2x as Hx.
    rewrite foldl_app in Hn. cbn [foldl] in Hn. rewrite foldl_app. cbn [foldl].
    assert (Hhit : ∀ m,
              matches "ServiceRule" "id" (record_key x1.1) m = true →
              forget_node (touch (foldl touch (touch m x1) l2') x2) = forget_node (touch m x1)).
    { intros m Hm.
      rewrite (touch_hit (foldl touch _ _) x2)
        by (by rewrite <- Hx, matches_touches, matches_touch).
      rewrite (forget_set_fields_touches _ _ _ _ x2.2).
      rewrite (touch_hit m x1 Hm), Hx. apply forget_set_fields_twice. }
    assert (Hmiss : ∀ m,
              m ∈ nodes (foldl upsert g l1) →
              matches "ServiceRule" "id" (record_key x1.1) m = false →
              forget_node (touch (foldl touch m l2') x2) = forget_node m).
    { intros m Hin Hm.
      rewrite touch_miss by (by rewrite <- Hx, matches_touches).
      by apply IH. }
    destruct (present (record_key x1.1) (foldl upsert g l1)) eqn:Hpres.
    + rewrite (upsert_present _ _ Hpres) in Hn. cbn [nodes] in Hn.
      apply list_elem_of_fmap in Hn as (m & -> & Hin).
      destruct (matches "ServiceRule" "id" (record_key x1.1) m) eqn:Hm.
      * by apply Hhit.
      * rewrite (touch_miss m x1 Hm). by apply Hmiss.
    + rewrite (upsert_absent _ _ Hpres) in Hn. cbn [nodes] in Hn.
      apply elem_of_app in Hn as [Hin | Hnew].
      * apply Hmiss; [done |]. by eapply absent_elem.
      * apply list_elem_of_singleton in Hnew as ->.
        set (base := Node (next_id (foldl upsert g l1)) ["ServiceRule"]
                       {["id" := record_key x1.1]}).
        assert (Hbase : matches "ServiceRule" "id" (record_key x1.1) base = true).
        { unfold matches, base. simpl. rewrite lookup_singleton_eq.
          by apply bool_decide_eq_true_2. }
        rewrite <- (touch_hit base x1 Hbase). by apply Hhit.
Qed.

(** A second pass leaves the store as it was, but for [created_at]. *)
Lemma second_pass_forgets (l1 l2 : list (item * Z)) (g : graph) :
  l2.*1 = l1.*1 →
  forget_created_at (foldl upsert (foldl upsert g l1) l2) = forget_created_at (foldl upsert g l1).
Proof.
  intros Hfst. rewrite pass_over_present.
  - unfold forget_created_at. simpl. f_equal. rewrite map_map.
    apply map_ext_in. intros n Hn. apply (touches_after_pass l1 l2 g); [done |].
    by apply list_elem_of_In.
  - intros x2 Hx2.
    assert (x2.1 ∈ l1.*1) as Hin by (rewrite <- Hfst; by apply list_elem_of_fmap_2).
    apply list_elem_of_fmap in Hin as (x1 & -> & Hx1).
    by apply present_after_pass.
Qed.

Lemma service_rule_ids_absent (v : prop) (g : graph) :
  present v g = false → v ∉ service_rule_ids g.
Proof.
  intros Habs Hin. unfold service_rule_ids in Hin.
  apply list_elem_of_omap in Hin as (n & Hn & Hkey).
  apply matches_node_key in Hkey. by rewrite (absent_elem v g n Habs Hn) in Hkey.
Qed.

Lemma service_rule_ids_touch (ns : list node) (x : item * Z) :
  omap node_key (map (λ n, touch n x) ns) = omap node_key ns.
Proof.
  induction ns as [|n ns IH]; [done |].
  cbn [map]. change (omap node_key (touch n x :: map (λ n, touch n x) ns))
    with (match node_key (touch n x) with
          | Some k => k :: omap node_key (map (λ n, touch n x) ns)
          | None => omap node_key (map (λ n, touch n x) ns)
          end).
  rewrite node_key_touch, IH. done.
Qed.

(** [MERGE] keeps the identifiers of the [ServiceRule] nodes distinct. *)
Lemma upsert_no_duplicates (g : graph) (x : item * Z) :
  NoDup (service_rule_ids g) → NoDup (service_rule_ids (upsert g x)).
Proof.
  intros Hnd. destruct (present (record_key x.1) g) eqn:Hx.
  - rewrite (upsert_present _ _ Hx). unfold service_rule_ids. simpl.
    by rewrite service_rule_ids_touch.
  - rewrite (upsert_absent _ _ Hx). unfold service_rule_ids. simpl.
    rewrite omap_app. simpl. rewrite node_key_set_fields. unfold node_key at 2. simpl.
    rewrite lookup_singleton_eq. apply NoDup_app. split; [done |]. split.
    + intros v Hv Hin. apply list_elem_of_singleton in Hin as ->.
      by apply (service_rule_ids_absent _ _ Hx).
    + apply NoDup_singleton.
Qed.

Lemma pass_no_duplicates (l : list (item * Z)) (g : graph) :
  NoDup (service_rule_ids g) → NoDup (service_rule_ids (foldl upsert g l)).
Proof.
  revert g. induction l as [|x l IH]; intros g Hnd; simpl; [done |].
  by apply IH, upsert_no_duplicates.
Qed.

Lemma filter_none {A} (P : A → Prop) `{!∀ x, Decision (P x)} (l : list A) :
  (∀ x, x ∈ l → ¬ P x) → filter P l = [].
Proof.
  induction l as [|y l IH]; intros Hnone; [done |].
  rewrite filter_cons_False by (apply Hnone; by left).
  apply IH. intros x Hx. apply Hnone. by right.
Qed.

Lemma key_once (v : prop) (ns : list node) :
  NoDup (omap node_key ns) →
  (∃ m, m ∈ ns ∧ matches "ServiceRule" "id" v m = true) →
  ∃ n, filter (λ n, matches "ServiceRule" "id" v n = true) ns = [n].
Proof.
  induction ns as [|n ns IH]; intros Hnd (m & Hm & Hmatch); [by apply elem_of_nil in Hm |].
  destruct (matches "ServiceRule" "id" v n) eqn:Hn.
  - exists n. rewrite filter_cons_True by done. f_equal.
    apply matches_node_key in Hn. simpl in Hnd. rewrite Hn in Hnd.
    apply NoDup_cons in Hnd as [Hnotin _].
    apply filter_none. intros x Hx Hx'. apply Hnotin.
    apply list_elem_of_omap. exists x. split; [done | by apply matches_node_key].
  - rewrite filter_cons_False by (by rewrite Hn).
    apply IH.
    + simpl in Hnd. destruct (node_key n); [by apply NoDup_cons in Hnd as [_ ?] | done].
    + exists m. split; [| done].
      apply elem_of_cons in Hm as [-> | Hm]; [congruence | done].
Qed.

(** With distinct identifiers, an identifier that is present selects one
    node. *)
Lemma present_once (v : prop) (g : graph) :
  NoDup (service_rule_ids g) → present v g = true →
  ∃ n, filter (λ n, matches "ServiceRule" "id" v n = true) (nodes g) = [n].
Proof.
  intros Hnd Hv. apply key_once; [done | by apply present_elem].
Qed.

(** ** create_node, twice *)

Section Nodes.
Context {vector : Type} (svc : services vector).

Implicit Types (w : world) (data : list item).

Lemma timed_records (t : nat) data : (timed svc t data).*1 = data.
Proof.
  revert t. induction data as [|it data IH]; intros t; simpl; [done |].
  by rewrite IH.
Qed.

(** With nothing raising outside, the loop over the nodes returns, and the
    store has then run the node query of each record in turn. *)
Lemma create_nodes_no_faults data w :
  no_faults svc →
  create_nodes svc data w =
    Outcome (Ok tt)
      (World (ticks w + 3 * length data) (foldl upsert (store w) (timed svc (ticks w) data)))
      (concat (map node_transaction data)).
Proof.
  intros Hnf. unfold create_nodes. revert w.
  induction data as [|it data IH]; intros w; cbn [for_each].
  - simpl. rewrite Nat.add_0_r. by destruct w.
  - unfold bind.
    rewrite (write_transaction_no_faults svc (create_node svc it) w _ _ Hnf
               (tx_run_no_faults svc _ _ Hnf)).
    cbn [res final log]. rewrite IH.
    cbn [res final log ticks store length timed foldl map concat app].
    f_equal. f_equal; [lia |]. f_equal. f_equal. f_equal. lia.
Qed.

End Nodes.

(** C5 -- With nothing raising outside and a store whose [ServiceRule]
    nodes have distinct identifiers (an empty store, as [clear_database]
    leaves it, is one), two passes of [create_nodes] over the same records
    both return and leave distinct identifiers, exactly one node for the
    identifier of each record, and a store that differs from the store after
    the first pass in nothing but the [created_at] property of its nodes. *)
Theorem create_nodes_twice {vector} (svc : services vector) (data : list item) (w : world) :
  no_faults svc →
  NoDup (service_rule_ids (store w)) →
  let o1 := create_nodes svc data w in
  let o2 := create_nodes svc data (final o1) in
  res o1 = Ok tt ∧ res o2 = Ok tt ∧
  NoDup (service_rule_ids (store (final o2))) ∧
  (∀ it, it ∈ data →
     ∃ n, filter (λ n, matches "ServiceRule" "id" (record_key it) n = true)
            (nodes (store (final o2))) = [n]) ∧
  forget_created_at (store (final o2)) = forget_created_at (store (final o1)).
Proof.
  intros Hnf Hnd o1 o2. subst o2 o1.
  rewrite (create_nodes_no_faults svc data w Hnf). cbn [res final].
  rewrite (create_nodes_no_faults svc data _ Hnf). cbn [res final store ticks].
  set (l1 := timed svc (ticks w) data).
  set (l2 := timed svc (ticks w + 3 * length data) data).
  assert (Hnd2 : NoDup (service_rule_ids (foldl upsert (foldl upsert (store w) l1) l2))).
  { by do 2 apply pass_no_duplicates. }
  split; [done |]. split; [done |]. split; [done |]. split.
  - intros it Hit. apply present_once; [done |].
    assert (∃ x, x ∈ l2 ∧ x.1 = it) as (x & Hx & <-).
    { assert (it ∈ l2.*1) as Hin by (unfold l2; by rewrite timed_records).
      apply list_elem_of_fmap in Hin as (x & -> & Hx). by exists x. }
    by apply present_after_pass.
  - apply second_pass_forgets. unfold l1, l2. by rewrite !timed_records.
Qed.

Lemma create_nodes_twice_witness :
  let o1 := create_nodes quiet scenario start in
  let o2 := create_nodes quiet scenario (final o1) in
  NoDup (service_rule_ids (store start)) ∧
  length (nodes (store (final o2))) = 2 ∧
  forget_created_at (store (final o2)) = forget_created_at (store (final o1)).
Proof.
  intros o1 o2.
  assert (Hnd : NoDup (service_rule_ids (store start))) by constructor.
  split; [exact Hnd |].
  split; [vm_compute; reflexivity |].
  exact (proj2 (proj2 (proj2 (proj2 (create_nodes_twice quiet scenario start quiet_no_faults Hnd))))).
Defined.

(** The second pass sets [created_at] anew: with a clock that moves, the
    store after two passes is not the store after one. *)
Lemma second_pass_changes_created_at :
  let o1 := create_nodes quiet scenario start in
  let o2 := create_nodes quiet scenario (final o1) in
  res o1 = Ok tt ∧ res o2 = Ok tt ∧
  (nodes (store (final o1)) !! 0) ≫= (λ n, props n !! "created_at") = Some (PDateTime 1) ∧
  (nodes (store (final o2)) !! 0) ≫= (λ n, props n !! "created_at") = Some (PDateTime 7) ∧
  store (final o2) ≠ store (final o1).
Proof.
  intros o1 o2.
  assert (H1 : (nodes (store (final o1)) !! 0) ≫= (λ n, props n !! "created_at")
               = Some (PDateTime 1)) by (vm_compute; reflexivity).
  assert (H2 : (nodes (store (final o2)) !! 0) ≫= (λ n, props n !! "created_at")
               = Some (PDateTime 7)) by (vm_compute; reflexivity).
  split; [vm_compute; reflexivity |]. split; [vm_compute; reflexivity |].
  split; [exact H1 |]. split; [exact H2 |].
  intros Heq. rewrite Heq, H1 in H2. discriminate.
Qed.

(** ** verify_upload.py *)

Section ReadOnly.
Context {vector : Type} (svc : services vector).

Implicit Types (w : world).

Lemma reads_only_ret {A} (a : A) : reads_only (ret (vector:=vector) a).
Proof. intros w. done. Qed.

Lemma reads_only_emit (ev : event vector) : reads_only (emit ev).
Proof. intros w. done. Qed.

Lemma reads_only_call (ev : event vector) : reads_only (call svc ev).
Proof. intros w. done. Qed.

Lemma reads_only_get_store : reads_only (get_store (vector:=vector)).
Proof. intros w. done. Qed.

Lemma reads_only_bind {A B} (m : M vector A) (k : A → M vector B) :
  reads_only m → (∀ a, reads_only (k a)) → reads_only (bind m k).
Proof.
  intros Hm Hk w. unfold bind. specialize (Hm w).
  destruct (res (m w)) as [a|e]; cbn [final]; [| done].
  by rewrite Hk.
Qed.

Lemma reads_only_try_finally {A} (m : M vector A) (fin : M vector unit) :
  reads_only m → reads_only fin → reads_only (try_finally m fin).
Proof. intros Hm Hf w. unfold try_finally. cbn [final]. by rewrite Hf. Qed.

Lemma reads_only_with_session {A} (body : M vector A) :
  reads_only body → reads_only (with_session svc body).
Proof.
  intros Hb. unfold with_session.
  apply reads_only_bind; [apply reads_only_call | intros _].
  apply reads_only_try_finally; [done | apply reads_only_emit].
Qed.

(** The verifier only reads: whatever happens, the store is as it was. *)
Lemma verify_upload_reads_only : reads_only (verify_upload svc).
Proof.
  unfold verify_upload, session_run.
  apply reads_only_bind; [apply reads_only_call | intros _].
  apply reads_only_bind.
  - apply reads_only_with_session.
    repeat first [ apply reads_only_call | apply reads_only_get_store | apply reads_only_ret
                 | apply reads_only_bind | intro ].
  - intros r. apply reads_only_bind; [apply reads_only_emit | intros _; apply reads_only_ret].
Qed.

Lemma runs_bind {A B} (m : M vector A) (k : A → M vector B) w a b (w1 w2 : world)
    (t1 t2 : list (event vector)) :
  m w = Outcome (Ok a) w1 t1 → k a w1 = Outcome (Ok b) w2 t2 →
  bind m k w = Outcome (Ok b) w2 (t1 ++ t2).
Proof. intros Hm Hk. unfold bind. rewrite Hm. cbn [res final log]. by rewrite Hk. Qed.

Lemma runs_with_session {A} (body : M vector A) w a (w1 : world) (t : list (event vector)) :
  no_faults svc →
  body (World (S (ticks w)) (store w)) = Outcome (Ok a) w1 t →
  with_session svc body w = Outcome (Ok a) w1 (SessionOpen :: t ++ [SessionClose]).
Proof.
  intros Hnf Hb. unfold with_session.
  eapply (runs_bind _ _ w tt a _ _ [SessionOpen]); [by apply call_no_faults |].
  unfold try_finally, emit. by rewrite Hb.
Qed.

(** With nothing raising outside, the report holds the number of nodes, the
    number of relationships, and the breakdown by type of the nodes
    labelled [Entity]. *)
Lemma verify_upload_no_faults w :
  no_faults svc →
  res (verify_upload svc w) =
    Ok (Report (length (nodes (store w))) (length (rels (store w)))
               (type_breakdown "Entity" (store w))).
Proof.
  intros Hnf.
  assert (∃ w' t, verify_upload svc w =
            Outcome (Ok (Report (length (nodes (store w))) (length (rels (store w)))
                           (type_breakdown "Entity" (store w)))) w' t) as (w' & t & ->); [| done].
  unfold verify_upload, session_run. do 2 eexists.
  eapply runs_bind; [by apply call_no_faults |].
  eapply runs_bind.
  - apply runs_with_session; [done |].
    eapply runs_bind; [by apply call_no_faults |].
    eapply runs_bind; [reflexivity |].
    eapply runs_bind; [by apply call_no_faults |].
    eapply runs_bind; [reflexivity |].
    eapply runs_bind; [by apply call_no_faults |].
    eapply runs_bind; [reflexivity |]. reflexivity.
  - eapply runs_bind; reflexivity.
Qed.

End ReadOnly.

(** ** What the uploader leaves for the verifier *)

Lemma labels_touch (n : node) (x : item * Z) : labels (touch n x) = labels n.
Proof. unfold touch. by case_match. Qed.

Lemma upsert_labels (g : graph) (x : item * Z) :
  Forall (λ n, labels n = ["ServiceRule"]) (nodes g) →
  Forall (λ n, labels n = ["ServiceRule"]) (nodes (upsert g x)).
Proof.
  intros Hall. destruct (present (record_key x.1) g) eqn:Hx.
  - rewrite (upsert_present _ _ Hx). cbn [nodes].
    apply Forall_fmap. eapply Forall_impl; [exact Hall |].
    intros n Hn. simpl. by rewrite labels_touch.
  - rewrite (upsert_absent _ _ Hx). cbn [nodes].
    apply Forall_app. split; [done |]. by repeat constructor.
Qed.

Lemma pass_labels (l : list (item * Z)) (g : graph) :
  Forall (λ n, labels n = ["ServiceRule"]) (nodes g) →
  Forall (λ n, labels n = ["ServiceRule"]) (nodes (foldl upsert g l)).
Proof.
  revert g. induction l as [|x l IH]; intros g Hall; simpl; [done |].
  by apply IH, upsert_labels.
Qed.

(** No row for a label that no node carries. *)
Lemma type_breakdown_other_label (g : graph) :
  Forall (λ n, labels n = ["ServiceRule"]) (nodes g) →
  type_breakdown "Entity" g = [].
Proof.
  intros Hall. unfold type_breakdown.
  rewrite filter_none; [done |].
  intros n Hn. rewrite Forall_forall in Hall. rewrite (Hall n Hn).
  intros Hin. apply list_elem_of_singleton in Hin. discriminate.
Qed.

Section Uploaded.
Context {vector : Type} (svc : services vector).

Implicit Types (w : world) (data : list item).

Lemma create_all_relationships_no_faults data w :
  no_faults svc →
  ∃ w' t, create_all_relationships svc data w = Outcome (Ok tt) w' t ∧
          nodes (store w') = nodes (store w).
Proof.
  intros Hnf. unfold create_all_relationships. revert w.
  induction data as [|it data IH]; intros w; cbn [for_each].
  - by exists w, [].
  - assert (∃ w1 t1, create_relationships svc it (World (S (ticks w)) (store w)) =
                     Outcome (Ok tt) w1 t1 ∧ nodes (store w1) = nodes (store w))
      as (w1 & t1 & Hrun & Hnodes).
    { destruct (item_connections it) as [conns|] eqn:Hconns.
      - rewrite (create_relationships_no_faults svc it conns _ Hnf Hconns).
        do 2 eexists. split; [reflexivity |]. cbn [store]. apply relationships_nodes.
      - unfold create_relationships. rewrite Hconns. by do 2 eexists. }
    destruct (IH (World (S (ticks w1)) (store w1))) as (w' & t & Hrest & Hnodes').
    exists w', ((TxBegin :: t1 ++ [TxCommit]) ++ t). split.
    + eapply runs_bind; [| exact Hrest].
      by apply write_transaction_no_faults.
    + by rewrite Hnodes'.
Qed.

(** With nothing raising outside, [upload_to_neo4j] returns and leaves only
    nodes labelled [ServiceRule]. *)
Lemma upload_to_neo4j_no_faults data w :
  no_faults svc →
  res (upload_to_neo4j svc data w) = Ok tt ∧
  Forall (λ n, labels n = ["ServiceRule"]) (nodes (store (final (upload_to_neo4j svc data w)))).
Proof.
  intros Hnf.
  assert (∃ w' t, upload_to_neo4j svc data w = Outcome (Ok tt) w' t ∧
                  Forall (λ n, labels n = ["ServiceRule"]) (nodes (store w')))
    as (w' & t & -> & Hall); [| done].
  unfold upload_to_neo4j.
  set (w2 := World (S (S (S (S (ticks w))))) (detach_delete_all (store w))).
  destruct (create_all_relationships_no_faults data (final (create_nodes svc data w2)) Hnf)
    as (w' & t & Hrels & Hnodes).
  exists w'. eexists. split.
  - apply runs_with_session; [done |].
    eapply runs_bind.
    { apply write_transaction_no_faults; [done |]. by apply tx_run_no_faults. }
    eapply runs_bind; [by apply create_nodes_no_faults |].
    rewrite (create_nodes_no_faults svc data w2 Hnf) in Hrels. exact Hrels.
  - rewrite Hnodes, (create_nodes_no_faults svc data w2 Hnf). cbn [final store].
    apply pass_labels. constructor.
Qed.

(** With nothing raising outside, whatever the dataset, the verifier run on
    the store the uploader has written reports no type at all. *)
Lemma verify_upload_after_upload data w (wv : world) :
  no_faults svc →
  store wv = store (final (upload_to_neo4j svc data w)) →
  ∃ r, res (verify_upload svc wv) = Ok r ∧ node_types r = [] ∧
       total_nodes r = length (nodes (store wv)).
Proof.
  intros Hnf Hstore. eexists. split; [by apply verify_upload_no_faults |].
  cbn [node_types total_nodes]. split; [| done].
  apply type_breakdown_other_label. rewrite Hstore.
  by apply upload_to_neo4j_no_faults.
Qed.

End Uploaded.

(** C9 -- On the store that the uploader writes for the dataset of section 8
    of the specification (two [ServiceRule] nodes, of types [t1] and [t2], and
    one relationship) the verifier reports two nodes, one relationship and an
    empty breakdown by type: its query selects the nodes labelled [Entity],
    and the uploader labels every node [ServiceRule].  The same breakdown
    over the label [ServiceRule] has one row per type.  The verifier leaves
    the store as it was. *)
Theorem verify_upload_misses_service_rules :
  let w := final (upload_to_neo4j quiet scenario start) in
  let o := verify_upload quiet w in
  res o = Ok (Report 2 1 []) ∧
  type_breakdown "ServiceRule" (store w) = [(Some (PStr "t1"), 1); (Some (PStr "t2"), 1)] ∧
  store (final o) = store w.
Proof.
  intros w o. split; [vm_compute; reflexivity |]. split; [vm_compute; reflexivity |].
  apply verify_upload_reads_only.
Qed.

(** ** The end-to-end scenario *)

(** The two records of the scenario give one upsert call with two entries,
    two nodes, and one relationship from node ["1"] to node ["2"] with the
    relation type [NEXT]; the run ends with the driver closed. *)
Example scenario_end_to_end :
  let o := main quiet scenario start in
  res o = Ok tt ∧
  map (map ve_id) (upsert_calls (log o)) = [["1"; "2"]] ∧
  map nid (nodes (store (final o))) = [0; 1] ∧
  service_rule_ids (store (final o)) = [PStr "1"; PStr "2"] ∧
  rels (store (final o)) = [Rel 0 1 "RELATED_TO" {["type" := PStr "NEXT"]}] ∧
  last (log o) = Some DriverClose.
Proof. vm_compute. repeat split; reflexivity. Qed.

(** * Further properties *)

(** ** upload_to_pinecone on every path *)

Section PineconePaths.
Context {vector : Type} (svc : services vector).

Implicit Types (w : world) (acc : list (vector_entry vector)) (ix : nat * item).

Lemma encode_calls_app (t1 t2 : list (event vector)) :
  encode_calls (t1 ++ t2) = encode_calls t1 ++ encode_calls t2.
Proof. apply omap_app. Qed.

(** The three ways a turn of the loop can go. *)
Lemma pinecone_step_cases acc ix w :
  let o := pinecone_step svc acc ix w in
  let text := create_embedding_text ix.2 in
  let acc1 := acc ++ [entry_of svc ix] in
  (∃ e, res o = Raise e ∧ log o = [ModelEncode text]) ∨
  (res o = Ok acc1 ∧ log o = [ModelEncode text] ∧ length acc1 < BATCH_SIZE) ∨
  ((res o = Ok [] ∨ ∃ e, res o = Raise e) ∧ log o = [ModelEncode text; IndexUpsert acc1]).
Proof.
  unfold pinecone_step, model_encode, index_upsert, entry_of, bind, call, ret. simpl.
  destruct (fault_at svc (ticks w)) as [e|]; simpl; [left; by exists e |].
  case_decide; simpl.
  - right. right. destruct (fault_at svc (S (ticks w))) as [e|]; simpl.
    + split; [right; by exists e | done].
    + split; [by left | done].
  - right. left. split; [done |]. split; [done | lia].
Qed.

(** Whatever happens in the loop, what it has handed to the index so far,
    followed by what it still holds, is an initial segment of the entries of
    the records it was given. *)
Lemma pinecone_loop_sent (l : list (nat * item)) acc w :
  let o := for_acc (pinecone_step svc) l acc w in
  ∃ held,
    concat (upsert_calls (log o)) ++ held `prefix_of` acc ++ map (entry_of svc) l ∧
    (∀ acc', res o = Ok acc' →
       held = acc' ∧ concat (upsert_calls (log o)) ++ acc' = acc ++ map (entry_of svc) l).
Proof.
  revert acc w. induction l as [|ix l IH]; intros acc w; cbn [for_acc].
  - exists acc. simpl. rewrite app_nil_r. split; [done |]. by intros acc' [= <-].
  - rewrite bind_log. unfold bind at 1.
    destruct (pinecone_step_cases acc ix w) as [(e & Hres & Hlog) | [(Hres & Hlog & _) | (Hres & Hlog)]];
      rewrite Hlog.
    + rewrite Hres. exists acc. simpl. split; [by apply prefix_app_r | done].
    + rewrite Hres. cbn [res].
      destruct (IH (acc ++ [entry_of svc ix]) (final (pinecone_step svc acc ix w)))
        as (held & Hpre & Hok).
      exists held. rewrite upsert_calls_app. simpl.
      rewrite <- app_assoc in Hpre, Hok. simpl in Hpre, Hok. done.
    + destruct Hres as [Hres | (e & Hres)]; rewrite Hres; cbn [res].
      * destruct (IH [] (final (pinecone_step svc acc ix w))) as (held & Hpre & Hok).
        exists held. rewrite upsert_calls_app.
        change (upsert_calls [ModelEncode (create_embedding_text ix.2);
                              IndexUpsert (acc ++ [entry_of svc ix])])
          with [acc ++ [entry_of svc ix]].
        cbn [concat app map] in *. rewrite <- ?app_assoc. cbn [app]. split.
        -- apply prefix_app, prefix_cons. exact Hpre.
        -- intros acc' Hacc'. destruct (Hok acc' Hacc') as [-> Heq]. split; [done |].
           rewrite <- app_assoc. cbn [app]. by rewrite Heq.
      * exists [].
        change (upsert_calls ([ModelEncode (create_embedding_text ix.2);
                               IndexUpsert (acc ++ [entry_of svc ix])] ++ []))
          with [acc ++ [entry_of svc ix]].
        cbn [concat app map]. rewrite ?app_nil_r, <- ?app_assoc. cbn [app].
        split; [by apply prefix_app, prefix_cons, prefix_nil | done].
Qed.

Lemma pinecone_loop_encoded (l : list (nat * item)) acc w :
  let o := for_acc (pinecone_step svc) l acc w in
  encode_calls (log o) `prefix_of` map (λ ix, create_embedding_text ix.2) l ∧
  (∀ acc', res o = Ok acc' → encode_calls (log o) = map (λ ix, create_embedding_text ix.2) l).
Proof.
  revert acc w. induction l as [|ix l IH]; intros acc w; cbn [for_acc].
  - simpl. done.
  - rewrite bind_log. unfold bind at 1.
    destruct (pinecone_step_cases acc ix w) as [(e & Hres & Hlog) | [(Hres & Hlog & _) | (Hres & Hlog)]];
      rewrite Hlog.
    + rewrite Hres. simpl. split; [apply prefix_cons, prefix_nil | done].
    + rewrite Hres. cbn [res].
      destruct (IH (acc ++ [entry_of svc ix]) (final (pinecone_step svc acc ix w))) as (Hpre & Hok).
      rewrite encode_calls_app. simpl. split; [by apply prefix_cons |].
      intros acc' Hacc'. by rewrite (Hok acc' Hacc').
    + destruct Hres as [Hres | (e & Hres)]; rewrite Hres; cbn [res].
      * destruct (IH [] (final (pinecone_step svc acc ix w))) as (Hpre & Hok).
        rewrite encode_calls_app. simpl. split; [by apply prefix_cons |].
        intros acc' Hacc'. by rewrite (Hok acc' Hacc').
      * simpl. split; [apply prefix_cons, prefix_nil | done].
Qed.

Lemma map_enumerate_from {A B} (f : A → B) (l : list A) (start : nat) :
  map (λ p : nat * A, f p.2) (enumerate_from start l) = map f l.
Proof. revert start. induction l as [|x l IH]; intros start; simpl; [done | by rewrite IH]. Qed.

End PineconePaths.

(** X1 -- On every path of [upload_to_pinecone], failing or not, the entries
    handed to the index, call after call, are an initial segment of the
    entries of the dataset: none is handed twice, none out of order, none
    before the entries of the records that precede it. *)
Theorem upload_to_pinecone_sends_initial_segment {vector} (svc : services vector)
    (data : list item) (w : world) :
  concat (upsert_calls (log (upload_to_pinecone svc data w)))
    `prefix_of` map (entry_of svc) (enumerate data).
Proof.
  unfold upload_to_pinecone. rewrite bind_log.
  destruct (pinecone_loop_sent svc (enumerate data) [] w) as (held & Hpre & Hok).
  simpl in Hpre, Hok.
  destruct (res (for_acc (pinecone_step svc) (enumerate data) [] w)) as [acc'|e] eqn:Hres.
  - destruct (Hok acc' eq_refl) as [-> Heq].
    rewrite upsert_calls_app, concat_app.
    destruct acc' as [|v acc']; simpl.
    + rewrite app_nil_r in Heq |- *. by rewrite Heq.
    + rewrite app_nil_r. by rewrite Heq.
  - rewrite app_nil_r. etrans; [| exact Hpre]. by apply prefix_app_r.
Qed.

(** X2 -- [model.encode] is called with the embedding texts of the records,
    in the order of the dataset, one call per record and none for anything
    else: on every path the calls made are an initial segment of these texts,
    and a run that returns has made all of them (also for a record whose
    text is empty). *)
Theorem upload_to_pinecone_encodes_each_record {vector} (svc : services vector)
    (data : list item) (w : world) :
  let o := upload_to_pinecone svc data w in
  encode_calls (log o) `prefix_of` map create_embedding_text data ∧
  (res o = Ok tt → encode_calls (log o) = map create_embedding_text data).
Proof.
  intros o. subst o. unfold upload_to_pinecone. rewrite bind_log.
  destruct (pinecone_loop_encoded svc (enumerate data) [] w) as (Hpre & Hok).
  unfold enumerate in *. rewrite map_enumerate_from in Hpre, Hok.
  unfold bind.
  destruct (res (for_acc (pinecone_step svc) (enumerate_from 0 data) [] w)) as [acc'|e] eqn:Hres.
  - rewrite encode_calls_app, (Hok acc' eq_refl).
    destruct acc' as [|v acc']; simpl; rewrite app_nil_r; done.
  - rewrite app_nil_r. cbn [res]. done.
Qed.

Lemma upload_to_pinecone_encodes_each_record_witness :
  let data := replicate 3 (Item None (Some "A") None (Some "t") None) in
  res (upload_to_pinecone quiet data start) = Ok tt ∧
  encode_calls (log (upload_to_pinecone quiet data start)) = ["A t"; "A t"; "A t"].
Proof.
  intros data.
  assert (H : res (upload_to_pinecone quiet data start) = Ok tt) by (vm_compute; reflexivity).
  split; [exact H |].
  exact (proj2 (upload_to_pinecone_encodes_each_record quiet data start) H).
Defined.

(** ** Identifiers in the two stores *)

(** [str] of an integer determines the integer. *)
Lemma str_int_inj (z1 z2 : Z) : str_int z1 = str_int z2 → z1 = z2.
Proof.
  unfold str_int. intros Heq.
  assert (Hnn : ∀ z, Z.to_int z ≠ Decimal.Pos Decimal.Nil ∧ Z.to_int z ≠ Decimal.Neg Decimal.Nil).
  { intros [|p|p]; simpl; split; try discriminate;
      intros [= H]; by apply DecimalPos.Unsigned.to_uint_nonnil in H. }
  assert (Hint : Z.to_int z1 = Z.to_int z2).
  { destruct (Hnn z1) as [H1 H1'], (Hnn z2) as [H2 H2'].
    pose proof (NilZero.isi _ H1 H1') as E1. pose proof (NilZero.isi _ H2 H2') as E2.
    rewrite Heq in E1. rewrite E1 in E2. by injection E2. }
  rewrite <- (DecimalZ.of_to z1), <- (DecimalZ.of_to z2). by rewrite Hint.
Qed.

(** X3 -- In every entry handed to the index, the vector identifier is the
    string form of the identifier kept in the metadata, whether the record
    has a string identifier, an integer identifier or none (both are then
    the index of the record in decimal). *)
Theorem vector_id_is_str_of_metadata_id {vector} (svc : services vector)
    (data : list item) (w : world) (batch : list (vector_entry vector)) (e : vector_entry vector) :
  IndexUpsert batch ∈ log (upload_to_pinecone svc data w) →
  e ∈ batch →
  ve_id e = str (md_id (ve_metadata e)).
Proof.
  intros Hbatch He.
  pose proof (upload_to_pinecone_entries svc data w) as Hall.
  rewrite Forall_forall in Hall. specialize (Hall _ Hbatch). simpl in Hall.
  rewrite Forall_forall in Hall. destruct (Hall _ He) as ([i it] & _ & ->).
  unfold entry_of, make_entry. simpl. by destruct (item_id it).
Qed.

Lemma vector_id_is_str_of_metadata_id_witness :
  let it := Item None (Some "A") None None None in
  let e := entry_of quiet (0, it) in
  IndexUpsert [e] ∈ log (upload_to_pinecone quiet [it] start) ∧
  ve_id e = str (md_id (ve_metadata e)).
Proof.
  intros it e.
  assert (Hlog : IndexUpsert [e] ∈ log (upload_to_pinecone quiet [it] start)).
  { assert (Heq : log (upload_to_pinecone quiet [it] start)
                  = [ModelEncode (create_embedding_text it); IndexUpsert [e]])
      by (vm_compute; reflexivity).
    rewrite Heq. apply elem_of_cons. right. apply elem_of_cons. by left. }
  split; [exact Hlog |].
  apply (vector_id_is_str_of_metadata_id quiet [it] start [e] e Hlog).
  apply elem_of_cons. by left.
Defined.

Section NodesOfRecords.
Context {vector : Type} (svc : services vector).

Implicit Types (w : world) (data : list item) (it : item).

(** After the loop over the nodes, with nothing raising outside, the
    identifier of each record selects exactly one node, provided the
    identifiers of the store were distinct before. *)
Lemma create_nodes_selects_one data w it :
  no_faults svc → NoDup (service_rule_ids (store w)) → it ∈ data →
  ∃ n, filter (λ n, matches "ServiceRule" "id" (record_key it) n = true)
         (nodes (store (final (create_nodes svc data w)))) = [n].
Proof.
  intros Hnf Hnd Hit. rewrite (create_nodes_no_faults svc data w Hnf). cbn [final store].
  apply present_once; [by apply pass_no_duplicates |].
  assert (∃ x, x ∈ timed svc (ticks w) data ∧ x.1 = it) as (x & Hx & <-).
  { assert (it ∈ (timed svc (ticks w) data).*1) as Hin by (by rewrite timed_records).
    apply list_elem_of_fmap in Hin as (x & -> & Hx). by exists x. }
  by apply present_after_pass.
Qed.

End NodesOfRecords.

Lemma filter_singleton_elem {A} (P : A → Prop) `{!∀ x, Decision (P x)} (l : list A) (x : A) :
  filter P l = [x] → P x ∧ x ∈ l.
Proof.
  intros Heq. apply (list_elem_of_filter P l x). rewrite Heq. apply elem_of_cons. by left.
Qed.

(** X4 -- A record whose identifier is the integer [z] and a record whose
    identifier is the string of the digits of [z] get the same vector
    identifier, so the second upsert replaces the first in the index, while
    the graph store keeps them apart: after the loop over the nodes each of
    the two identifiers selects its own node. *)
Theorem integer_and_string_ids_meet_in_the_index_only {vector} (svc : services vector)
    (data : list item) (w : world) (it1 it2 : item) (i j : nat) (z : Z) :
  no_faults svc → NoDup (service_rule_ids (store w)) →
  it1 ∈ data → it2 ∈ data →
  item_id it1 = Some (VInt z) → item_id it2 = Some (VStr (str_int z)) →
  ve_id (entry_of svc (i, it1)) = ve_id (entry_of svc (j, it2)) ∧
  ∃ n1 n2,
    filter (λ n, matches "ServiceRule" "id" (record_key it1) n = true)
      (nodes (store (final (create_nodes svc data w)))) = [n1] ∧
    filter (λ n, matches "ServiceRule" "id" (record_key it2) n = true)
      (nodes (store (final (create_nodes svc data w)))) = [n2] ∧
    n1 ≠ n2.
Proof.
  intros Hnf Hnd Hin1 Hin2 Hid1 Hid2. split.
  - unfold entry_of, make_entry. simpl. by rewrite Hid1, Hid2.
  - destruct (create_nodes_selects_one svc data w it1 Hnf Hnd Hin1) as [n1 H1].
    destruct (create_nodes_selects_one svc data w it2 Hnf Hnd Hin2) as [n2 H2].
    exists n1, n2. split; [done |]. split; [done |].
    apply filter_singleton_elem in H1 as [H1 _]. apply filter_singleton_elem in H2 as [H2 _].
    apply matches_node_key in H1, H2. intros ->. rewrite H1 in H2.
    unfold record_key in H2. rewrite Hid1, Hid2 in H2. discriminate.
Qed.

Lemma integer_and_string_ids_meet_in_the_index_only_witness :
  let it1 := Item (Some (VInt 7)) (Some "A") None None None in
  let it2 := Item (Some (VStr "7")) (Some "B") None None None in
  ve_id (entry_of quiet (0, it1)) = ve_id (entry_of quiet (1, it2)) ∧
  length (nodes (store (final (create_nodes quiet [it1; it2] start)))) = 2.
Proof.
  intros it1 it2. split; [| vm_compute; reflexivity].
  refine (proj1 (integer_and_string_ids_meet_in_the_index_only quiet [it1; it2] start it1 it2
                   0 1 7 quiet_no_faults _ _ _ eq_refl eq_refl)).
  - constructor.
  - apply elem_of_cons. by left.
  - apply elem_of_cons. right. apply elem_of_cons. by left.
Defined.

(** X5 -- Records without an identifier: in the index each gets its own
    vector identifier, the index of the record in decimal, so two of them
    collide only at the same index; in the graph they all go under the empty
    identifier, and after the loop over the nodes that identifier selects
    one node for all of them. *)
Theorem records_without_id {vector} (svc : services vector)
    (data : list item) (w : world) (it1 it2 : item) (i j : nat) :
  no_faults svc → NoDup (service_rule_ids (store w)) →
  it1 ∈ data → it2 ∈ data →
  item_id it1 = None → item_id it2 = None →
  (ve_id (entry_of svc (i, it1)) = ve_id (entry_of svc (j, it2)) ↔ i = j) ∧
  record_key it1 = PStr "" ∧ record_key it2 = PStr "" ∧
  ∃ n, filter (λ n, matches "ServiceRule" "id" (PStr "") n = true)
         (nodes (store (final (create_nodes svc data w)))) = [n].
Proof.
  intros Hnf Hnd Hin1 Hin2 Hid1 Hid2.
  assert (Hk1 : record_key it1 = PStr "") by (unfold record_key; by rewrite Hid1).
  assert (Hk2 : record_key it2 = PStr "") by (unfold record_key; by rewrite Hid2).
  split; [| split; [done | split; [done |]]].
  - unfold entry_of, make_entry. simpl. rewrite Hid1, Hid2. simpl. split.
    + intros Heq. apply str_int_inj in Heq. lia.
    + by intros ->.
  - rewrite <- Hk1. by apply create_nodes_selects_one.
Qed.

Lemma records_without_id_witness :
  let it1 := Item None (Some "A") None None None in
  let it2 := Item None (Some "B") None None None in
  ve_id (entry_of quiet (0, it1)) ≠ ve_id (entry_of quiet (1, it2)) ∧
  length (nodes (store (final (create_nodes quiet [it1; it2] start)))) = 1.
Proof.
  intros it1 it2. split; [| vm_compute; reflexivity].
  intros Heq.
  assert (Hij : 0 = 1); [| discriminate].
  refine (proj1 (proj1 (records_without_id quiet [it1; it2] start it1 it2
                   0 1 quiet_no_faults _ _ _ eq_refl eq_refl)) Heq).
  - constructor.
  - apply elem_of_cons. by left.
  - apply elem_of_cons. right. apply elem_of_cons. by left.
Defined.

(** ** Records that share an identifier *)

Lemma holds_fields_set_fields (it : item) (t : Z) (n : node) :
  holds_fields it
    (set_fields (PStr (default "" (item_name it))) (PStr (default "" (item_description it)))
       (PStr (default "" (item_type it))) t n).
Proof.
  unfold holds_fields, set_fields. simpl.
  repeat split; repeat (rewrite lookup_insert; case_decide; try done).
Qed.

(** After its query has run, every node that answers to the identifier of a
    record holds the fields of that record. *)
Lemma upsert_holds_fields (g : graph) (x : item * Z) (n : node) :
  n ∈ nodes (upsert g x) → matches "ServiceRule" "id" (record_key x.1) n = true →
  holds_fields x.1 n.
Proof.
  intros Hn Hm. destruct (present (record_key x.1) g) eqn:Hx.
  - rewrite (upsert_present _ _ Hx) in Hn. cbn [nodes] in Hn.
    apply list_elem_of_fmap in Hn as (m & -> & Hin).
    rewrite matches_touch in Hm. rewrite (touch_hit m x Hm). apply holds_fields_set_fields.
  - rewrite (upsert_absent _ _ Hx) in Hn. cbn [nodes] in Hn.
    apply elem_of_app in Hn as [Hin | Hnew].
    + by rewrite (absent_elem _ _ _ Hx Hin) in Hm.
    + apply list_elem_of_singleton in Hnew as ->. apply holds_fields_set_fields.
Qed.

(** The query of a record with another identifier leaves these nodes as they
    are. *)
Lemma upsert_other_key (P : node → Prop) (v : prop) (g : graph) (y : item * Z) :
  record_key y.1 ≠ v →
  (∀ n, n ∈ nodes g → matches "ServiceRule" "id" v n = true → P n) →
  ∀ n, n ∈ nodes (upsert g y) → matches "ServiceRule" "id" v n = true → P n.
Proof.
  intros Hne HP n Hn Hm. destruct (present (record_key y.1) g) eqn:Hy.
  - rewrite (upsert_present _ _ Hy) in Hn. cbn [nodes] in Hn.
    apply list_elem_of_fmap in Hn as (m & -> & Hin).
    rewrite matches_touch in Hm.
    destruct (matches "ServiceRule" "id" (record_key y.1) m) eqn:Hmy.
    + apply matches_node_key in Hm, Hmy. congruence.
    + rewrite (touch_miss m y Hmy). by apply HP.
  - rewrite (upsert_absent _ _ Hy) in Hn. cbn [nodes] in Hn.
    apply elem_of_app in Hn as [Hin | Hnew]; [by apply HP |].
    apply list_elem_of_singleton in Hnew as ->.
    rewrite matches_set_fields in Hm. apply matches_node_key in Hm.
    unfold node_key in Hm. simpl in Hm. rewrite lookup_singleton_eq in Hm. congruence.
Qed.

Lemma pass_other_keys (P : node → Prop) (v : prop) (l : list (item * Z)) (g : graph) :
  (∀ y, y ∈ l → record_key y.1 ≠ v) →
  (∀ n, n ∈ nodes g → matches "ServiceRule" "id" v n = true → P n) →
  ∀ n, n ∈ nodes (foldl upsert g l) → matches "ServiceRule" "id" v n = true → P n.
Proof.
  revert g. induction l as [|y l IH]; intros g Hne HP; simpl; [done |].
  apply IH.
  - intros y' Hy'. apply Hne. by right.
  - apply upsert_other_key; [apply Hne; by left | done].
Qed.

(** X6 -- When several records carry the same identifier, the last one
    wins: after the loop over the nodes, with nothing raising outside, a node
    answers to the identifier of a record, and every node that does holds the
    name, the description and the type of the last record of the dataset with
    that identifier. *)
Theorem last_record_with_an_id_wins {vector} (svc : services vector)
    (before after : list item) (it : item) (w : world) :
  no_faults svc →
  (∀ x, x ∈ after → record_key x ≠ record_key it) →
  let s := store (final (create_nodes svc (before ++ it :: after) w)) in
  present (record_key it) s = true ∧
  ∀ n, n ∈ nodes s → matches "ServiceRule" "id" (record_key it) n = true → holds_fields it n.
Proof.
  intros Hnf Hafter s. subst s.
  rewrite (create_nodes_no_faults svc _ w Hnf). cbn [final store].
  pose proof (timed_records svc (ticks w) (before ++ it :: after)) as Hfst.
  apply fmap_app_inv in Hfst as (l1 & l2x & Hl1 & Hl2x & Heq).
  destruct l2x as [|x l2]; [discriminate |].
  cbn [fmap list_fmap] in Hl2x. injection Hl2x as Hx Hl2.
  rewrite Heq, foldl_app. cbn [foldl]. split.
  - apply present_upserts. rewrite Hx. apply present_upsert_self.
  - apply pass_other_keys.
    + intros y Hy. apply Hafter. rewrite Hl2. by apply list_elem_of_fmap_2.
    + intros n Hn Hm. rewrite Hx in Hm |- *. by eapply upsert_holds_fields.
Qed.

Lemma last_record_with_an_id_wins_witness :
  let first := Item (Some (VStr "1")) (Some "old") (Some "d") (Some "t") None in
  let last := Item (Some (VStr "1")) (Some "new") None (Some "t2") None in
  let other := Item (Some (VStr "2")) (Some "B") None None None in
  let s := store (final (create_nodes quiet [first; last; other] start)) in
  present (PStr "1") s = true ∧
  ∀ n, n ∈ nodes s → matches "ServiceRule" "id" (PStr "1") n = true → holds_fields last n.
Proof.
  intros first last other s.
  apply (last_record_with_an_id_wins quiet [first] [other] last start quiet_no_faults).
  intros x Hx. apply list_elem_of_singleton in Hx as ->. discriminate.
Defined.

(** ** The loop over the relationships *)

Lemma extends_rels_refl (g : graph) : extends_rels g g.
Proof. by repeat split. Qed.

Lemma extends_rels_trans (g1 g2 g3 : graph) :
  extends_rels g1 g2 → extends_rels g2 g3 → extends_rels g1 g3.
Proof.
  intros (Hn1 & Hi1 & Hr1) (Hn2 & Hi2 & Hr2).
  split; [congruence |]. split; [congruence | by etrans].
Qed.

Lemma merge_rel_rows_extend (ty : prop) (rows : list (nat * nat)) (rs : list rel) :
  rs `prefix_of` foldl (merge_rel_row ty) rs rows.
Proof.
  revert rs. induction rows as [|row rows IH]; intros rs; simpl; [done |].
  etrans; [| apply IH]. unfold merge_rel_row. case_match; [done | by apply prefix_app_r].
Qed.

Lemma merge_rel_extends (from_id to_id ty : prop) (g : graph) :
  extends_rels g (merge_rel from_id to_id ty g).
Proof. split; [done |]. split; [done |]. apply merge_rel_rows_extend. Qed.

Section Relationships2.
Context {vector : Type} (svc : services vector).

Implicit Types (w : world) (it : item) (data : list item).

Lemma only_adds_rels_ret {A} (a : A) : only_adds_rels (ret (vector:=vector) a).
Proof. intros w. apply extends_rels_refl. Qed.

Lemma only_adds_rels_bind {A B} (m : M vector A) (k : A → M vector B) :
  only_adds_rels m → (∀ a, only_adds_rels (k a)) → only_adds_rels (bind m k).
Proof.
  intros Hm Hk w. unfold bind. specialize (Hm w).
  destruct (res (m w)) as [a|e]; cbn [final]; [| done].
  eapply extends_rels_trans; [exact Hm | apply Hk].
Qed.

Lemma only_adds_rels_for_each {A} (body : A → M vector unit) (l : list A) :
  (∀ x, only_adds_rels (body x)) → only_adds_rels (for_each body l).
Proof.
  intros Hb. induction l as [|x l IH]; cbn [for_each].
  - apply only_adds_rels_ret.
  - apply only_adds_rels_bind; [apply Hb | intros _; apply IH].
Qed.

Lemma only_adds_rels_relationship it (c : connection) :
  only_adds_rels (tx_run svc (relationship_query it c)).
Proof.
  intros w. unfold tx_run, bind, get_clock, call, get_store, put_store. simpl.
  destruct (fault_at svc (ticks w)); simpl; [apply extends_rels_refl | apply merge_rel_extends].
Qed.

Lemma only_adds_rels_create_relationships it : only_adds_rels (create_relationships svc it).
Proof.
  unfold create_relationships. destruct (item_connections it) as [conns|].
  - apply only_adds_rels_for_each. intros c. apply only_adds_rels_relationship.
  - apply only_adds_rels_ret.
Qed.

Lemma bind_final {A B} (m : M vector A) (k : A → M vector B) w :
  final (bind m k w) = match res (m w) with
                       | Ok a => final (k a (final (m w)))
                       | Raise _ => final (m w)
                       end.
Proof. unfold bind. by destruct (res (m w)). Qed.

Lemma bind_res {A B} (m : M vector A) (k : A → M vector B) w :
  res (bind m k w) = match res (m w) with
                     | Ok a => res (k a (final (m w)))
                     | Raise e => Raise e
                     end.
Proof. unfold bind. by destruct (res (m w)). Qed.

Lemma try_except_final {A} (m : M vector A) caught (handler : exn → M vector A) w :
  final (try_except m caught handler w) =
    match res (m w) with
    | Ok _ => final (m w)
    | Raise e => if caught e then final (handler e (final (m w))) else final (m w)
    end.
Proof. unfold try_except. destruct (res (m w)) as [a|e]; [done | by destruct (caught e)]. Qed.

(** A managed transaction leaves the store as its function left it, or,
    when it raises, as it found it. *)
Lemma write_transaction_store (f : M vector unit) w :
  store (final (write_transaction svc f w)) = store (final (f (World (S (ticks w)) (store w)))) ∨
  store (final (write_transaction svc f w)) = store w.
Proof.
  unfold write_transaction.
  rewrite bind_final. cbn [get_store res final].
  rewrite bind_final. unfold call. cbn [res final].
  destruct (fault_at svc (ticks w)); [by right |].
  rewrite try_except_final, bind_res, bind_final.
  destruct (res (f (World (S (ticks w)) (store w)))) as [[]|e].
  - unfold commit.
    destruct (fault_at svc (ticks (final (f (World (S (ticks w)) (store w))))));
      cbn [res final store]; [by right | by left].
  - by right.
Qed.

Lemma only_adds_rels_write_transaction (f : M vector unit) :
  only_adds_rels f → only_adds_rels (write_transaction svc f).
Proof.
  intros Hf w. destruct (write_transaction_store f w) as [-> | ->].
  - apply (Hf (World (S (ticks w)) (store w))).
  - apply extends_rels_refl.
Qed.

End Relationships2.

(** X7 -- On every path, failing or not, the loop over the relationships
    changes no node of the store, creates none, and removes no relationship:
    the store it leaves has the nodes it found and the relationships it
    found, followed by new ones. *)
Theorem create_all_relationships_only_adds {vector} (svc : services vector)
    (data : list item) (w : world) :
  extends_rels (store w) (store (final (create_all_relationships svc data w))).
Proof.
  revert w. fold (only_adds_rels (create_all_relationships svc data)).
  unfold create_all_relationships. apply only_adds_rels_for_each. intros it.
  apply only_adds_rels_write_transaction, only_adds_rels_create_relationships.
Qed.

Lemma run_queries_app (g : graph) (qs1 qs2 : list query) :
  run_queries g (qs1 ++ qs2) = run_queries (run_queries g qs1) qs2.
Proof. apply foldl_app. Qed.

Lemma run_queries_of (it : item) (g : graph) :
  run_queries g (queries_of it) =
  foldl (λ g c, exec (relationship_query it c) 0 g) g (default [] (item_connections it)).
Proof.
  unfold run_queries, queries_of.
  generalize (default [] (item_connections it)). intros conns. revert g.
  induction conns as [|c conns IH]; intros g; simpl; [done | by rewrite IH].
Qed.

Lemma merge_rel_rows_merged (ty : prop) (rows : list (nat * nat)) (rs : list rel) :
  (∀ row, row ∈ rows → existsb (rel_matches row.1 row.2 ty) rs = true) →
  foldl (merge_rel_row ty) rs rows = rs.
Proof.
  induction rows as [|row rows IH]; intros Hall; simpl; [done |].
  unfold merge_rel_row at 2. rewrite (Hall row) by (by left).
  apply IH. intros row' Hrow'. apply Hall. by right.
Qed.

(** A relationship query whose pairs are all joined already changes nothing. *)
Lemma exec_merged (q : query) (g : graph) :
  (∃ from_id to_id ty, q = CreateRelationship from_id to_id ty) →
  merged q g → exec q 0 g = g.
Proof.
  intros (f & t & ty & ->) Hm. simpl in *. unfold merge_rel.
  fold (rows_of f t g). rewrite merge_rel_rows_merged; [apply graph_eta | exact Hm].
Qed.

(** After a relationship query, its pairs are joined. *)
Lemma merged_exec (q : query) (g : graph) : merged q (exec q 0 g).
Proof.
  destruct q as [| | f t ty | | | |]; try exact I. simpl. intros row Hrow.
  change (rows_of f t (merge_rel f t ty g)) with (rows_of f t g) in Hrow.
  destruct (merge_rel_rows_have ty (rows_of f t g) (rels g) row Hrow) as (r & Hr & Hmatch).
  apply existsb_exists. exists r. split; [by apply list_elem_of_In | done].
Qed.

(** Joined pairs stay joined when the store gets more relationships. *)
Lemma merged_extends (q : query) (g g' : graph) :
  extends_rels g g' → merged q g → merged q g'.
Proof.
  intros (Hn & _ & Hr) Hm. destruct q as [| | f t ty | | | |]; try exact I.
  simpl in *. intros row Hrow. unfold rows_of in Hrow. rewrite Hn in Hrow.
  specialize (Hm row Hrow). apply existsb_exists in Hm as (r & Hin & Hmatch).
  apply existsb_exists. exists r. split; [| done].
  apply list_elem_of_In. destruct Hr as [extra ->]. apply elem_of_app. left.
  by apply list_elem_of_In.
Qed.

Lemma exec_relationship_extends (q : query) (g : graph) :
  (∃ from_id to_id ty, q = CreateRelationship from_id to_id ty) →
  extends_rels g (exec q 0 g).
Proof. intros (f & t & ty & ->). apply merge_rel_extends. Qed.

Lemma run_queries_extends (qs : list query) (g : graph) :
  Forall (λ q, ∃ from_id to_id ty, q = CreateRelationship from_id to_id ty) qs →
  extends_rels g (run_queries g qs).
Proof.
  intros Hqs. revert g. induction Hqs as [|q qs Hq _ IH]; intros g; simpl.
  - apply extends_rels_refl.
  - eapply extends_rels_trans; [by apply exec_relationship_extends | apply IH].
Qed.

Lemma run_queries_merged (qs : list query) (g : graph) (q : query) :
  Forall (λ q, ∃ from_id to_id ty, q = CreateRelationship from_id to_id ty) qs →
  q ∈ qs → merged q (run_queries g qs).
Proof.
  intros Hqs. revert g. induction Hqs as [|q' qs Hq' Hqs IH]; intros g Hin.
  - by apply elem_of_nil in Hin.
  - apply elem_of_cons in Hin as [-> | Hin]; simpl.
    + eapply merged_extends; [by apply run_queries_extends | apply merged_exec].
    + by apply IH.
Qed.

(** Running the queries again on the store they have left changes nothing. *)
Lemma run_queries_again (qs : list query) (g : graph) :
  Forall (λ q, ∃ from_id to_id ty, q = CreateRelationship from_id to_id ty) qs →
  (∀ q, q ∈ qs → merged q g) →
  run_queries g qs = g.
Proof.
  intros Hqs. induction Hqs as [|q qs Hq _ IH]; intros Hm; simpl; [done |].
  rewrite (exec_merged q g Hq) by (apply Hm; by left).
  apply IH. intros q' Hq'. apply Hm. by right.
Qed.

Lemma all_queries_are_relationships (data : list item) :
  Forall (λ q, ∃ from_id to_id ty, q = CreateRelationship from_id to_id ty) (all_queries data).
Proof.
  apply Forall_forall. intros q Hq. unfold all_queries in Hq.
  apply list_elem_of_bind in Hq as (it & Hq & _). unfold queries_of in Hq.
  apply list_elem_of_fmap in Hq as (c & -> & _). unfold relationship_query. by do 3 eexists.
Qed.

Section Relationships3.
Context {vector : Type} (svc : services vector).

Implicit Types (w : world) (it : item) (data : list item).

(** With nothing raising outside, the loop over the relationships returns
    and the store has run the queries of all the records in turn. *)
Lemma create_all_relationships_store data w :
  no_faults svc →
  ∃ w' t, create_all_relationships svc data w = Outcome (Ok tt) w' t ∧
          store w' = run_queries (store w) (all_queries data).
Proof.
  intros Hnf. unfold create_all_relationships. revert w.
  induction data as [|it data IH]; intros w; cbn [for_each].
  - by exists w, [].
  - assert (∃ w1 t1, create_relationships svc it (World (S (ticks w)) (store w)) =
                     Outcome (Ok tt) w1 t1 ∧ store w1 = run_queries (store w) (queries_of it))
      as (w1 & t1 & Hrun & Hstore).
    { rewrite run_queries_of. destruct (item_connections it) as [conns|] eqn:Hconns.
      - rewrite (create_relationships_no_faults svc it conns _ Hnf Hconns). by do 2 eexists.
      - unfold create_relationships. rewrite Hconns. by do 2 eexists. }
    destruct (IH (World (S (ticks w1)) (store w1))) as (w' & t & Hrest & Hstore').
    exists w', ((TxBegin :: t1 ++ [TxCommit]) ++ t). split.
    + eapply runs_bind; [| exact Hrest]. by apply write_transaction_no_faults.
    + rewrite Hstore'. cbn [store]. rewrite Hstore.
      unfold all_queries. rewrite bind_cons. by rewrite run_queries_app.
Qed.

End Relationships3.

(** X8 -- With nothing raising outside, the loop over the relationships can
    be run again without effect: the second run returns and leaves the store
    exactly as the first left it (a connection declared twice, or uploaded
    twice, gives one relationship). *)
Theorem create_all_relationships_twice {vector} (svc : services vector)
    (data : list item) (w : world) :
  no_faults svc →
  let o1 := create_all_relationships svc data w in
  let o2 := create_all_relationships svc data (final o1) in
  res o1 = Ok tt ∧ res o2 = Ok tt ∧ store (final o2) = store (final o1).
Proof.
  intros Hnf o1 o2. subst o2 o1.
  destruct (create_all_relationships_store svc data w Hnf) as (w1 & t1 & -> & Hs1).
  cbn [res final].
  destruct (create_all_relationships_store svc data w1 Hnf) as (w2 & t2 & -> & Hs2).
  cbn [res final]. split; [done |]. split; [done |].
  rewrite Hs2, Hs1.
  apply run_queries_again; [apply all_queries_are_relationships |].
  intros q Hq. apply run_queries_merged; [apply all_queries_are_relationships | done].
Qed.

Lemma create_all_relationships_twice_witness :
  let w := final (create_nodes quiet scenario start) in
  let o1 := create_all_relationships quiet scenario w in
  let o2 := create_all_relationships quiet scenario (final o1) in
  length (rels (store (final o1))) = 1 ∧ store (final o2) = store (final o1).
Proof.
  intros w o1 o2. split; [vm_compute; reflexivity |].
  exact (proj2 (proj2 (create_all_relationships_twice quiet scenario w quiet_no_faults))).
Defined.

Section RelationshipLog.
Context {vector : Type} (svc : services vector).

Implicit Types (w : world) (it : item) (data : list item).

Lemma create_relationships_returns it w :
  res (create_relationships svc it w) = Ok tt →
  log (create_relationships svc it w) = map TxRun (queries_of it).
Proof.
  unfold create_relationships, queries_of.
  destruct (item_connections it) as [conns|]; [| done]. simpl.
  revert w. induction conns as [|c conns IH]; intros w; cbn [for_each]; [done |].
  intros Hres. destruct (bind_res_ok _ _ _ _ Hres) as ([] & Hc & Hrest).
  rewrite (bind_ok _ _ _ _ Hc). cbn [log]. rewrite tx_run_log, (IH _ Hrest). done.
Qed.

End RelationshipLog.

(** X9 -- The loop over the relationships runs one transaction per record,
    not one per connection: when it returns, its log is, record after record,
    the begin of a transaction, one query for each connection of the record
    in the order of its list, and the commit; a record without connections
    still gets its (empty) transaction. *)
Theorem one_transaction_per_record {vector} (svc : services vector)
    (data : list item) (w : world) :
  res (create_all_relationships svc data w) = Ok tt →
  log (create_all_relationships svc data w) = concat (map relationship_transaction data).
Proof.
  unfold create_all_relationships. revert w.
  induction data as [|it data IH]; intros w; cbn [for_each]; [done |].
  intros Hres. destruct (bind_res_ok _ _ _ _ Hres) as ([] & Hit & Hrest).
  rewrite (bind_ok _ _ _ _ Hit). cbn [log]. rewrite (IH _ Hrest).
  destruct (write_transaction_returns svc _ _ Hit) as (Hrun & -> & _).
  rewrite (create_relationships_returns svc _ _ Hrun). done.
Qed.

Lemma one_transaction_per_record_witness :
  res (create_all_relationships quiet scenario start) = Ok tt ∧
  log (create_all_relationships quiet scenario start) =
    [TxBegin; TxRun (CreateRelationship (PStr "1") (PStr "2") (PStr "NEXT")); TxCommit;
     TxBegin; TxCommit].
Proof.
  assert (H : res (create_all_relationships quiet scenario start) = Ok tt)
    by (vm_compute; reflexivity).
  split; [exact H |].
  exact (one_transaction_per_record quiet scenario start H).
Defined.

(** ** The graph an upload leaves *)

Lemma present_service_rule_ids (v : prop) (g : graph) :
  present v g = true ↔ v ∈ service_rule_ids g.
Proof.
  rewrite present_elem. unfold service_rule_ids. rewrite list_elem_of_omap.
  split; intros (n & Hn & Hm); exists n; (split; [done | by apply matches_node_key]).
Qed.

Lemma upsert_service_rule_ids (g : graph) (x : item * Z) (v : prop) :
  v ∈ service_rule_ids (upsert g x) ↔ v ∈ service_rule_ids g ∨ v = record_key x.1.
Proof.
  destruct (present (record_key x.1) g) eqn:Hx.
  - rewrite (upsert_present _ _ Hx). unfold service_rule_ids at 1. cbn [nodes].
    rewrite service_rule_ids_touch. fold (service_rule_ids g).
    apply present_service_rule_ids in Hx. split; [by left | by intros [? | ->]].
  - rewrite (upsert_absent _ _ Hx). unfold service_rule_ids at 1. cbn [nodes].
    rewrite omap_app, elem_of_app. fold (service_rule_ids g). simpl.
    rewrite node_key_set_fields. unfold node_key at 1. simpl.
    rewrite lookup_singleton_eq, list_elem_of_singleton. done.
Qed.

Lemma pass_service_rule_ids (l : list (item * Z)) (g : graph) (v : prop) :
  v ∈ service_rule_ids (foldl upsert g l) ↔
  v ∈ service_rule_ids g ∨ ∃ x, x ∈ l ∧ record_key x.1 = v.
Proof.
  revert g. induction l as [|x l IH]; intros g; simpl.
  - split; [by left | intros [? | (x & Hx & _)]; [done | by apply elem_of_nil in Hx]].
  - rewrite IH, upsert_service_rule_ids. split.
    + intros [[? | ->] | (y & Hy & Hk)].
      * by left.
      * right. exists x. split; [by left | done].
      * right. exists y. split; [by right | done].
    + intros [? | (y & Hy & Hk)]; [by left; left |].
      apply elem_of_cons in Hy as [-> | Hy]; [left; by right | right; by exists y].
Qed.

Lemma upsert_rels (g : graph) (x : item * Z) : rels (upsert g x) = rels g.
Proof.
  destruct (present (record_key x.1) g) eqn:Hx.
  - by rewrite (upsert_present _ _ Hx).
  - by rewrite (upsert_absent _ _ Hx).
Qed.

Lemma pass_rels (l : list (item * Z)) (g : graph) : rels (foldl upsert g l) = rels g.
Proof.
  revert g. induction l as [|x l IH]; intros g; simpl; [done |].
  by rewrite IH, upsert_rels.
Qed.

Lemma upsert_keyed (g : graph) (x : item * Z) :
  Forall (λ n, is_Some (node_key n)) (nodes g) →
  Forall (λ n, is_Some (node_key n)) (nodes (upsert g x)).
Proof.
  intros Hall. destruct (present (record_key x.1) g) eqn:Hx.
  - rewrite (upsert_present _ _ Hx). cbn [nodes].
    apply Forall_fmap. eapply Forall_impl; [exact Hall |].
    intros n Hn. simpl. by rewrite node_key_touch.
  - rewrite (upsert_absent _ _ Hx). cbn [nodes].
    apply Forall_app. split; [done |]. apply Forall_singleton.
    rewrite node_key_set_fields. unfold node_key. simpl. by rewrite lookup_singleton_eq.
Qed.

Lemma pass_keyed (l : list (item * Z)) (g : graph) :
  Forall (λ n, is_Some (node_key n)) (nodes g) →
  Forall (λ n, is_Some (node_key n)) (nodes (foldl upsert g l)).
Proof.
  revert g. induction l as [|x l IH]; intros g Hall; simpl; [done |].
  by apply IH, upsert_keyed.
Qed.

Lemma merge_rel_row_joins (ty : prop) (g : graph) (rs : list rel) (row : nat * nat) :
  (∃ a b, a ∈ nodes g ∧ b ∈ nodes g ∧ row.1 = nid a ∧ row.2 = nid b) →
  joins_nodes (Graph (nodes g) rs (next_id g)) →
  joins_nodes (Graph (nodes g) (merge_rel_row ty rs row) (next_id g)).
Proof.
  intros (a & b & Ha & Hb & H1 & H2) Hj r Hr. cbn [rels nodes] in *.
  unfold merge_rel_row in Hr. case_match; [by apply Hj |].
  apply elem_of_app in Hr as [Hr | Hr]; [by apply Hj |].
  apply list_elem_of_singleton in Hr as ->. simpl. split; [done |]. by exists a, b.
Qed.

Lemma merge_rel_rows_join (ty : prop) (g : graph) (rows : list (nat * nat)) (rs : list rel) :
  (∀ row, row ∈ rows → ∃ a b, a ∈ nodes g ∧ b ∈ nodes g ∧ row.1 = nid a ∧ row.2 = nid b) →
  joins_nodes (Graph (nodes g) rs (next_id g)) →
  joins_nodes (Graph (nodes g) (foldl (merge_rel_row ty) rs rows) (next_id g)).
Proof.
  revert rs. induction rows as [|row rows IH]; intros rs Hrows Hj; simpl; [done |].
  apply IH.
  - intros row' Hrow'. apply Hrows. by right.
  - apply merge_rel_row_joins; [apply Hrows; by left | done].
Qed.

Lemma rows_of_nodes (from_id to_id : prop) (g : graph) (row : nat * nat) :
  row ∈ rows_of from_id to_id g →
  ∃ a b, a ∈ nodes g ∧ b ∈ nodes g ∧ row.1 = nid a ∧ row.2 = nid b.
Proof.
  unfold rows_of. intros Hrow.
  apply list_elem_of_bind in Hrow as (a & Hrow & Ha).
  apply list_elem_of_bind in Hrow as (b & Hrow & Hb).
  apply list_elem_of_singleton in Hrow as ->.
  apply list_elem_of_filter in Ha as [_ Ha]. apply list_elem_of_filter in Hb as [_ Hb].
  by exists a, b.
Qed.

Lemma merge_rel_joins (from_id to_id ty : prop) (g : graph) :
  joins_nodes g → joins_nodes (merge_rel from_id to_id ty g).
Proof.
  intros Hj. unfold merge_rel. fold (rows_of from_id to_id g).
  apply merge_rel_rows_join; [apply rows_of_nodes | by rewrite graph_eta].
Qed.

Lemma run_queries_joins (qs : list query) (g : graph) :
  Forall (λ q, ∃ from_id to_id ty, q = CreateRelationship from_id to_id ty) qs →
  joins_nodes g → joins_nodes (run_queries g qs).
Proof.
  intros Hqs. revert g. induction Hqs as [|q qs (f & t & ty & ->) _ IH]; intros g Hj; simpl.
  - done.
  - apply IH. by apply merge_rel_joins.
Qed.

Section UploadedGraph.
Context {vector : Type} (svc : services vector).

Implicit Types (w : world) (data : list item).

(** With nothing raising outside, [upload_to_neo4j] returns, and the store
    is then the emptied store after the node queries and the relationship
    queries of the dataset. *)
Lemma upload_to_neo4j_store data w :
  no_faults svc →
  ∃ w' t, upload_to_neo4j svc data w = Outcome (Ok tt) w' t ∧
          store w' = run_queries
                       (foldl upsert (detach_delete_all (store w))
                          (timed svc (S (S (S (S (ticks w))))) data))
                       (all_queries data).
Proof.
  intros Hnf. unfold upload_to_neo4j.
  set (w2 := World (S (S (S (S (ticks w))))) (detach_delete_all (store w))).
  destruct (create_all_relationships_store svc data (final (create_nodes svc data w2)) Hnf)
    as (w' & t & Hrels & Hstore).
  exists w'. eexists. split.
  - apply runs_with_session; [done |].
    eapply runs_bind.
    { apply write_transaction_no_faults; [done |]. by apply tx_run_no_faults. }
    eapply runs_bind; [by apply create_nodes_no_faults |].
    rewrite (create_nodes_no_faults svc data w2 Hnf) in Hrels. exact Hrels.
  - rewrite Hstore, (create_nodes_no_faults svc data w2 Hnf). done.
Qed.

End UploadedGraph.

(** X10 -- An upload replaces the graph.  With nothing raising outside,
    whatever the store held before, [upload_to_neo4j] returns and leaves
    exactly one node for each distinct identifier of the dataset and no other
    node: the identifiers of the nodes are distinct, they are those of the
    records, every node is labelled [ServiceRule] alone and has an [id]; and
    every relationship is a [RELATED_TO] between two of these nodes. *)
Theorem upload_to_neo4j_replaces_the_graph {vector} (svc : services vector)
    (data : list item) (w : world) :
  no_faults svc →
  let o := upload_to_neo4j svc data w in
  let s := store (final o) in
  res o = Ok tt ∧
  NoDup (service_rule_ids s) ∧
  (∀ v, v ∈ service_rule_ids s ↔ ∃ it, it ∈ data ∧ record_key it = v) ∧
  Forall (λ n, labels n = ["ServiceRule"] ∧ is_Some (props n !! "id")) (nodes s) ∧
  joins_nodes s.
Proof.
  intros Hnf o s. subst s o.
  destruct (upload_to_neo4j_store svc data w Hnf) as (w' & t & -> & Hs).
  cbn [res final]. rewrite Hs. clear Hs.
  set (l := timed svc (S (S (S (S (ticks w))))) data).
  set (g := foldl upsert (detach_delete_all (store w)) l).
  pose proof (run_queries_extends (all_queries data) g (all_queries_are_relationships data))
    as (Hnodes & _ & _).
  assert (Hids : service_rule_ids (run_queries g (all_queries data)) = service_rule_ids g)
    by (unfold service_rule_ids; by rewrite Hnodes).
  split; [done |]. split; [| split; [| split]].
  - rewrite Hids. apply pass_no_duplicates. constructor.
  - intros v. rewrite Hids. unfold g. rewrite pass_service_rule_ids. split.
    + intros [Hv | (x & Hx & <-)]; [by apply elem_of_nil in Hv |].
      exists x.1. split; [| done].
      rewrite <- (timed_records svc (S (S (S (S (ticks w))))) data).
      by apply list_elem_of_fmap_2.
    + intros (it & Hit & <-). right.
      rewrite <- (timed_records svc (S (S (S (S (ticks w))))) data) in Hit.
      apply list_elem_of_fmap in Hit as (x & -> & Hx). by exists x.
  - rewrite Hnodes.
    assert (Hl : Forall (λ n, labels n = ["ServiceRule"]) (nodes g))
      by (apply pass_labels; constructor).
    assert (Hk : Forall (λ n, is_Some (node_key n)) (nodes g))
      by (apply pass_keyed; constructor).
    rewrite Forall_forall in Hl, Hk. apply Forall_forall. intros n Hn.
    split; [by apply Hl |].
    specialize (Hk n Hn). unfold node_key in Hk. by case_decide; [| destruct Hk].
  - apply run_queries_joins; [apply all_queries_are_relationships |].
    intros r Hr. unfold g in Hr. rewrite pass_rels in Hr. by apply elem_of_nil in Hr.
Qed.

Lemma upload_to_neo4j_replaces_the_graph_witness :
  let old := Graph [Node 0 ["Entity"] {["id" := PStr "x"]}] [] 1 in
  let s := store (final (upload_to_neo4j quiet scenario (World 0 old))) in
  service_rule_ids s = [PStr "1"; PStr "2"] ∧ length (nodes s) = 2 ∧
  NoDup (service_rule_ids s).
Proof.
  intros old s. split; [vm_compute; reflexivity |]. split; [vm_compute; reflexivity |].
  exact (proj1 (proj2 (upload_to_neo4j_replaces_the_graph quiet scenario (World 0 old)
                         quiet_no_faults))).
Defined.

(** ** A failure of the vector upload *)

Section PineconeReads.
Context {vector : Type} (svc : services vector).

Lemma reads_only_for_acc {A B} (body : B → A → M vector B) (l : list A) (acc : B) :
  (∀ acc x, reads_only (body acc x)) → reads_only (for_acc body l acc).
Proof.
  intros Hb. revert acc. induction l as [|x l IH]; intros acc; cbn [for_acc].
  - apply reads_only_ret.
  - apply reads_only_bind; [apply Hb | intros acc'; apply IH].
Qed.

Lemma reads_only_upload_to_pinecone data : reads_only (upload_to_pinecone svc data).
Proof.
  unfold upload_to_pinecone, index_upsert.
  apply reads_only_bind.
  - apply reads_only_for_acc. intros acc x. unfold pinecone_step, model_encode, index_upsert.
    apply reads_only_bind.
    + apply reads_only_bind; [apply reads_only_call | intros _; apply reads_only_ret].
    + intros v. case_match.
      * apply reads_only_bind; [apply reads_only_call | intros _; apply reads_only_ret].
      * apply reads_only_ret.
  - intros acc. case_match; [apply reads_only_ret | apply reads_only_call].
Qed.

End PineconeReads.

(** X11 (src/upload_data.py, main block and upload_to_pinecone): when the
    upload of the vectors raises, whatever the exception, the graph store is
    not touched at all, not even cleared: the store is as it was before the
    run, and the run does nothing after the vector calls but close the
    driver, after the handler has printed the error and the traceback when
    the exception is an instance of [Exception].  In that case the run ends
    normally; otherwise it ends on the exception. *)
Theorem failed_vector_upload_leaves_the_graph {vector} (svc : services vector)
    (data : list item) (w : world) (e : exn) :
  res (upload_to_pinecone svc data w) = Raise e →
  let o := main svc data w in
  store (final o) = store w ∧
  Forall (λ ev, match ev with ModelEncode _ | IndexUpsert _ => True | _ => False end)
    (log (upload_to_pinecone svc data w)) ∧
  log o = log (upload_to_pinecone svc data w) ++
          (if is_Exception e then [PrintError (exn_msg e); PrintTraceback e] else []) ++
          [DriverClose] ∧
  res o = if is_Exception e then Ok tt else Raise e.
Proof.
  intros He o.
  assert (Hbody : upload_body svc data w =
                  Outcome (Raise e) (final (upload_to_pinecone svc data w))
                    (log (upload_to_pinecone svc data w))).
  { unfold upload_body. unfold bind at 1. by rewrite He. }
  assert (Ho : o = Outcome (if is_Exception e then Ok tt else Raise e)
                 (final (upload_to_pinecone svc data w))
                 (log (upload_to_pinecone svc data w) ++
                  (if is_Exception e then [PrintError (exn_msg e); PrintTraceback e] else []) ++
                  [DriverClose])).
  { subst o. unfold main, try_finally, try_except. rewrite Hbody. cbn [res final log].
    destruct (is_Exception e); cbn [res final log emit app]; [| done].
    unfold report_error, bind, emit. cbn [res final log app]. by rewrite <- app_assoc. }
  rewrite Ho. cbn [res final log]. split_and!; [| | done | done].
  - apply reads_only_upload_to_pinecone.
  - by apply emits_upload_to_pinecone.
Qed.

Lemma failed_vector_upload_leaves_the_graph_witness :
  res (upload_to_pinecone (failing_at 2 KeyboardInterrupt) scenario start) =
    Raise KeyboardInterrupt ∧
  store (final (main (failing_at 2 KeyboardInterrupt) scenario start)) = store start ∧
  res (main (failing_at 2 KeyboardInterrupt) scenario start) = Raise KeyboardInterrupt.
Proof.
  assert (H : res (upload_to_pinecone (failing_at 2 KeyboardInterrupt) scenario start) =
              Raise KeyboardInterrupt)
    by (vm_compute; reflexivity).
  pose proof (failed_vector_upload_leaves_the_graph (failing_at 2 KeyboardInterrupt) scenario
                start KeyboardInterrupt H) as T.
  cbv zeta in T. destruct T as (Hs & _ & _ & Hr).
  exact (conj H (conj Hs Hr)).
Defined.

(** ** The verifier and the driver *)

(** X12 (src/verify_upload.py, verify_upload): the verifier closes the
    driver exactly when nothing went wrong.  When it raises, no call closed
    the driver; when it returns, closing the driver is the last thing it
    did.  The session, in contrast, is closed on every path that opened
    it. *)
Theorem verify_upload_closes_the_driver_on_success_only {vector} (svc : services vector)
    (w : world) :
  let o := verify_upload svc w in
  (∀ e, res o = Raise e → DriverClose ∉ log o) ∧
  (∀ r, res o = Ok r → last (log o) = Some DriverClose) ∧
  (∀ q, SessionRun q ∈ log o → SessionClose ∈ log o).
Proof.
  intros o. subst o. unfold verify_upload.
  set (body := bind (session_run svc CountNodes) _).
  set (w1 := final (call svc DescribeIndexStats w)).
  assert (Hno : Forall (λ ev, ev ≠ DriverClose) (log (with_session svc body w1))).
  { subst body. apply emits_with_session; [done | done |]. unfold session_run.
    repeat first [ by apply emits_call | apply emits_get_store | apply emits_ret
                 | apply emits_bind | intro ]. }
  rewrite Forall_forall in Hno.
  assert (Hsess : ∀ q, SessionRun q ∈ log (with_session svc body w1) →
                       SessionClose ∈ log (with_session svc body w1)).
  { intros q. rewrite with_session_log. destruct (fault_at svc (ticks w1)).
    - intros Hq. apply list_elem_of_singleton in Hq. discriminate.
    - intros _. apply elem_of_cons; right; apply elem_of_app; right. apply list_elem_of_singleton.
      done. }
  rewrite bind_log, bind_res.
  change (log (call svc DescribeIndexStats w)) with [@DescribeIndexStats vector].
  fold w1.
  destruct (res (call svc DescribeIndexStats w)) as [[]|e0] eqn:Hc.
  - rewrite bind_log, bind_res. fold w1.
    destruct (res (with_session svc body w1)) as [r|e1] eqn:Hs.
    + rewrite bind_log, bind_res. cbn [emit ret res final log app].
      split_and!.
      * intros e [=].
      * intros r' _. by rewrite app_comm_cons, last_snoc.
      * intros q Hq. apply elem_of_cons in Hq as [[=] | Hq].
        apply elem_of_app in Hq as [Hq | Hq].
        -- apply elem_of_cons; right; apply elem_of_app; left. by apply (Hsess q).
        -- apply list_elem_of_singleton in Hq. discriminate.
    + rewrite app_nil_r. cbn [app]. split_and!.
      * intros e _ Hin. apply elem_of_cons in Hin as [[=] | Hin]. by apply (Hno _ Hin).
      * intros r [=].
      * intros q Hq. apply elem_of_cons in Hq as [[=] | Hq].
        apply elem_of_cons; right. by apply (Hsess q).
  - cbn [app]. split_and!.
    + intros e _ Hin. apply list_elem_of_singleton in Hin. discriminate.
    + intros r [=].
    + intros q Hq. apply list_elem_of_singleton in Hq. discriminate.
Qed.

Lemma verify_upload_closes_the_driver_on_success_only_witness :
  res (verify_upload (failing_at 2 timed_out) start) = Raise timed_out ∧
  DriverClose ∉ log (verify_upload (failing_at 2 timed_out) start).
Proof.
  assert (H : res (verify_upload (failing_at 2 timed_out) start) = Raise timed_out)
    by (vm_compute; reflexivity).
  pose proof (verify_upload_closes_the_driver_on_success_only (failing_at 2 timed_out) start) as T.
  cbv zeta in T. exact (conj H (proj1 T timed_out H)).
Defined.

(** ** The configuration check and the provider *)

Lemma errors_in_order (k p o h u : bool) :
  let errors := Config.append_if p "NEO4J_PASSWORD is not set"
                  (Config.append_if k "PINECONE_API_KEY is not set" []) in
  let errors := Config.append_if u "NEO4J_URI is not properly configured"
      (if o then errors ++ ["OPENAI_API_KEY is not set (LLM_PROVIDER=openai)"]
       else if h then errors ++ ["HUGGINGFACE_API_KEY is not set (LLM_PROVIDER=huggingface)"]
       else errors) in
  errors `sublist_of` ["PINECONE_API_KEY is not set"; "NEO4J_PASSWORD is not set";
                       "OPENAI_API_KEY is not set (LLM_PROVIDER=openai)";
                       "HUGGINGFACE_API_KEY is not set (LLM_PROVIDER=huggingface)";
                       "NEO4J_URI is not properly configured"] ∧
  length errors ≤ 4.
Proof.
  destruct k, p, o, h, u; cbv zeta; unfold Config.append_if; cbn [app length];
    (split; [| lia]);
    repeat first [ apply sublist_nil | apply sublist_skip | apply sublist_cons ].
Qed.

(** X13 (src/config.py, validate_config): the message of the error lists
    the problems in one fixed order, whatever the settings: the Pinecone
    key, the Neo4j password, the key of the provider, the Neo4j URI.  It has
    at least one line and at most four, since the two provider problems
    exclude each other. *)
Theorem validate_config_reports_in_order (c : Config.settings) (e : exn) :
  Config.validate_config c = Raise e →
  ∃ errors, e = ValueError (Config.error_msg errors) ∧
    errors `sublist_of` ["PINECONE_API_KEY is not set"; "NEO4J_PASSWORD is not set";
                         "OPENAI_API_KEY is not set (LLM_PROVIDER=openai)";
                         "HUGGINGFACE_API_KEY is not set (LLM_PROVIDER=huggingface)";
                         "NEO4J_URI is not properly configured"] ∧
    1 ≤ length errors ≤ 4.
Proof.
  unfold Config.validate_config. cbv zeta. intros He.
  exists (Config.collect_errors c).
  pose proof (errors_in_order (Config.unset (Config.PINECONE_API_KEY c))
                (Config.unset (Config.NEO4J_PASSWORD c))
                (bool_decide (Config.LLM_PROVIDER c = "openai") &&
                 Config.unset (Config.OPENAI_API_KEY c))
                (bool_decide (Config.LLM_PROVIDER c = "huggingface") &&
                 Config.unset (Config.HUGGINGFACE_API_KEY c))
                (contains "your-neo4j-uri" (Config.NEO4J_URI c))) as H.
  cbv zeta in H. rewrite <- collect_errors_tests in H. destruct H as [Hsub Hlen].
  destruct (Config.collect_errors c) as [|m errors] eqn:Herrs; [discriminate |].
  injection He as <-. split_and!; [done | done | cbn [length]; lia | done].
Qed.

Lemma validate_config_reports_in_order_witness :
  ∃ errors,
    ValueError (Config.error_msg ["PINECONE_API_KEY is not set"; "NEO4J_PASSWORD is not set";
                                  "HUGGINGFACE_API_KEY is not set (LLM_PROVIDER=huggingface)";
                                  "NEO4J_URI is not properly configured"]) =
      ValueError (Config.error_msg errors) ∧
    errors `sublist_of` ["PINECONE_API_KEY is not set"; "NEO4J_PASSWORD is not set";
                         "OPENAI_API_KEY is not set (LLM_PROVIDER=openai)";
                         "HUGGINGFACE_API_KEY is not set (LLM_PROVIDER=huggingface)";
                         "NEO4J_URI is not properly configured"] ∧
    1 ≤ length errors ≤ 4.
Proof.
  apply (validate_config_reports_in_order (Config.load ∅)). vm_compute. reflexivity.
Defined.

(** X14 (src/config.py, validate_config): the provider is compared with
    the two names literally.  For any other value, a misspelt or capitalised
    one included, no provider key is asked for: the outcome is the same
    whatever the two keys are, and the check passes as soon as the Pinecone
    key, the Neo4j password and the Neo4j URI are in order. *)
Theorem validate_config_unknown_provider (c c' : Config.settings) :
  Config.LLM_PROVIDER c ≠ "openai" → Config.LLM_PROVIDER c ≠ "huggingface" →
  Config.LLM_PROVIDER c' = Config.LLM_PROVIDER c →
  Config.PINECONE_API_KEY c' = Config.PINECONE_API_KEY c →
  Config.NEO4J_PASSWORD c' = Config.NEO4J_PASSWORD c →
  Config.NEO4J_URI c' = Config.NEO4J_URI c →
  Config.validate_config c' = Config.validate_config c ∧
  (Config.PINECONE_API_KEY c ≠ "" → Config.NEO4J_PASSWORD c ≠ "" →
   contains "your-neo4j-uri" (Config.NEO4J_URI c) = false →
   Config.validate_config c = Ok true).
Proof.
  intros Ho Hh Hp Hk Hw Hu.
  unfold Config.validate_config. cbv zeta. rewrite !collect_errors_tests. cbv zeta.
  rewrite Hp, Hk, Hw, Hu.
  rewrite (bool_decide_eq_false_2 _ Ho), (bool_decide_eq_false_2 _ Hh). cbn [andb].
  split; [done |].
  intros Hk' Hw' Hu'. unfold Config.unset.
  rewrite (bool_decide_eq_false_2 _ Hk'), (bool_decide_eq_false_2 _ Hw'), Hu'.
  reflexivity.
Qed.

Lemma validate_config_unknown_provider_witness :
  Config.validate_config (Config.load (<["OPENAI_API_KEY" := "sk"]> capitalised_provider)) =
    Config.validate_config (Config.load capitalised_provider) ∧
  Config.validate_config (Config.load capitalised_provider) = Ok true.
Proof.
  pose proof (validate_config_unknown_provider (Config.load capitalised_provider)
                (Config.load (<["OPENAI_API_KEY" := "sk"]> capitalised_provider))) as T.
  assert (H1 : Config.LLM_PROVIDER (Config.load capitalised_provider) ≠ "openai")
    by (vm_compute; discriminate).
  assert (H2 : Config.LLM_PROVIDER (Config.load capitalised_provider) ≠ "huggingface")
    by (vm_compute; discriminate).
  destruct (T H1 H2) as [Tsame Tpass]; try (vm_compute; reflexivity).
  split; [exact Tsame |].
  apply Tpass; [vm_compute; discriminate | vm_compute; discriminate | vm_compute; reflexivity].
Defined.

(** ** The start of the script *)

Ltac start_leaf :=
  split_and!;
  [ first [ done | by repeat apply prefix_cons; apply prefix_nil ]
  | first [ by intros ? [= <-] | intros ? [=] ]
  | first [ by intros ? [= <-] | intros ? [=] ] ].

Section StartPaths.
Context (h : host) (env : gmap string string).

(** Whatever happens, the calls of the start are the first ones of
    [full_start], and the start goes on only after all of them. *)
Lemma startup_calls :
  match int_of h (Config.getenv env "PINECONE_VECTOR_DIM" "1024") with
  | Ok d => (startup h env []).2 `prefix_of` full_start h env d ∧
            (∀ data, (startup h env []).1 = Done data →
                     (startup h env []).2 = full_start h env d ∧ data_file h = Some data) ∧
            (∀ st, (startup h env []).1 = Exit st → st = 1%Z)
  | Raise e => startup h env [] = (Uncaught e, [])
  end.
Proof.
  unfold startup, full_start, sbind, scall, of_result, sys_exit, sret, sleep.
  destruct (int_of h _) as [d|e]; [| reflexivity].
  destruct (falsy (env !! "PINECONE_API_KEY")); cbn [fst snd app length];
    [start_leaf |].
  destruct (setup_fault h 0); cbn [fst snd app length]; [start_leaf |].
  destruct (setup_fault h 1); cbn [fst snd app length]; [start_leaf |].
  destruct (falsy (env !! "NEO4J_URI") || falsy (env !! "NEO4J_USERNAME") ||
            falsy (env !! "NEO4J_PASSWORD")); cbn [fst snd app length]; [start_leaf |].
  destruct (setup_fault h 2); cbn [fst snd app length]; [start_leaf |].
  destruct (setup_fault h 3); cbn [fst snd app length]; [start_leaf |].
  destruct (bool_decide (INDEX_NAME env ∈ existing_indexes h)); cbn [fst snd app length].
  - destruct (setup_fault h 4); cbn [fst snd app length]; [start_leaf |].
    destruct (data_file h) as [data|]; cbn [fst snd app length]; [| start_leaf].
    destruct (setup_fault h 5); cbn [fst snd app length]; start_leaf.
  - destruct (setup_fault h 4); cbn [fst snd app length]; [start_leaf |].
    destruct (setup_fault h 6); cbn [fst snd app length]; [start_leaf |].
    destruct (data_file h) as [data|]; cbn [fst snd app length]; [| start_leaf].
    destruct (setup_fault h 7); cbn [fst snd app length]; start_leaf.
Qed.

End StartPaths.

Section Raises.
Context {vector : Type} (svc : services vector) (P : exn → Prop).
Hypothesis Hsvc : faults_are P svc.

Lemma raises_only_ret {A} (a : A) : raises_only P (ret (vector:=vector) a).
Proof. intros w e [=]. Qed.

Lemma raises_only_raise {A} e : P e → raises_only P (raise (vector:=vector) (A:=A) e).
Proof. by intros He w e' [= <-]. Qed.

Lemma raises_only_get_store : raises_only P (get_store (vector:=vector)).
Proof. intros w e [=]. Qed.

Lemma raises_only_put_store g : raises_only P (put_store (vector:=vector) g).
Proof. intros w e [=]. Qed.

Lemma raises_only_get_clock : raises_only P (get_clock svc).
Proof. intros w e [=]. Qed.

Lemma raises_only_emit (ev : event vector) : raises_only P (emit ev).
Proof. intros w e [=]. Qed.

Lemma raises_only_call (ev : event vector) : raises_only P (call svc ev).
Proof.
  intros w e. unfold call. cbn [res].
  destruct (fault_at svc (ticks w)) as [e'|] eqn:Hf; [| done].
  intros [= <-]. by apply (Hsvc _ _ Hf).
Qed.

Lemma raises_only_commit : raises_only P (commit svc).
Proof.
  intros w e. unfold commit.
  destruct (fault_at svc (ticks w)) as [e'|] eqn:Hf; cbn [res]; [| done].
  intros [= <-]. by apply (Hsvc _ _ Hf).
Qed.

Lemma raises_only_bind {A B} (m : M vector A) (k : A → M vector B) :
  raises_only P m → (∀ a, raises_only P (k a)) → raises_only P (bind m k).
Proof.
  intros Hm Hk w e. unfold bind.
  destruct (res (m w)) as [a|e'] eqn:Hr; cbn [res].
  - apply Hk.
  - intros [= <-]. by apply (Hm w).
Qed.

Lemma raises_only_try_except {A} (m : M vector A) caught (handler : exn → M vector A) :
  raises_only P m → (∀ e, P e → raises_only P (handler e)) →
  raises_only P (try_except m caught handler).
Proof.
  intros Hm Hh w e. unfold try_except.
  destruct (res (m w)) as [a|e'] eqn:Hr; [by rewrite Hr |].
  pose proof (Hm w e' Hr) as He'.
  destruct (caught e'); cbn [res].
  - by apply Hh.
  - rewrite Hr. by intros [= <-].
Qed.

Lemma raises_only_try_finally {A} (m : M vector A) (fin : M vector unit) :
  raises_only P m → raises_only P fin → raises_only P (try_finally m fin).
Proof.
  intros Hm Hf w e. unfold try_finally. cbn [res].
  destruct (res (fin (final (m w)))) as [[]|e'] eqn:Hr.
  - apply Hm.
  - intros [= <-]. by apply (Hf _ _ Hr).
Qed.

Lemma raises_only_for_each {A} (body : A → M vector unit) (l : list A) :
  (∀ x, raises_only P (body x)) → raises_only P (for_each body l).
Proof.
  intros Hb. induction l as [|x l IH]; cbn [for_each].
  - apply raises_only_ret.
  - apply raises_only_bind; [apply Hb | intros _; apply IH].
Qed.

Lemma raises_only_for_acc {A B} (body : B → A → M vector B) (l : list A) (acc : B) :
  (∀ acc x, raises_only P (body acc x)) → raises_only P (for_acc body l acc).
Proof.
  intros Hb. revert acc. induction l as [|x l IH]; intros acc; cbn [for_acc].
  - apply raises_only_ret.
  - apply raises_only_bind; [apply Hb | intros acc'; apply IH].
Qed.

Lemma raises_only_tx_run q : raises_only P (tx_run svc q).
Proof.
  unfold tx_run.
  apply raises_only_bind; [apply raises_only_get_clock | intros now].
  apply raises_only_bind; [apply raises_only_call | intros _].
  apply raises_only_bind; [apply raises_only_get_store | intros g]. apply raises_only_put_store.
Qed.

Lemma raises_only_write_transaction (f : M vector unit) :
  raises_only P f → raises_only P (write_transaction svc f).
Proof.
  intros Hf. unfold write_transaction.
  apply raises_only_bind; [apply raises_only_get_store | intros g0].
  apply raises_only_bind; [apply raises_only_call | intros _].
  apply raises_only_try_except.
  - apply raises_only_bind; [done | intros _; apply raises_only_commit].
  - intros e He. apply raises_only_bind; [apply raises_only_put_store | intros _].
    apply raises_only_bind; [apply raises_only_emit | intros _; by apply raises_only_raise].
Qed.

Lemma raises_only_with_session {A} (body : M vector A) :
  raises_only P body → raises_only P (with_session svc body).
Proof.
  intros Hb. unfold with_session.
  apply raises_only_bind; [apply raises_only_call | intros _].
  apply raises_only_try_finally; [done | apply raises_only_emit].
Qed.

Lemma raises_only_upload_to_pinecone data : raises_only P (upload_to_pinecone svc data).
Proof.
  unfold upload_to_pinecone, pinecone_step, model_encode, index_upsert.
  apply raises_only_bind.
  - apply raises_only_for_acc. intros acc x.
    apply raises_only_bind;
      [apply raises_only_bind; [apply raises_only_call | intros; apply raises_only_ret] |].
    intros a. case_decide.
    + apply raises_only_bind; [apply raises_only_call | intros; apply raises_only_ret].
    + apply raises_only_ret.
  - intros [|v vs]; [apply raises_only_ret | apply raises_only_call].
Qed.

Lemma raises_only_upload_to_neo4j data : raises_only P (upload_to_neo4j svc data).
Proof.
  unfold upload_to_neo4j.
  apply raises_only_with_session.
  apply raises_only_bind.
  { apply raises_only_write_transaction, raises_only_tx_run. }
  intros _. apply raises_only_bind.
  - apply raises_only_for_each. intros it.
    apply raises_only_write_transaction, raises_only_tx_run.
  - intros _. apply raises_only_for_each. intros it.
    apply raises_only_write_transaction. unfold create_relationships.
    destruct (item_connections it) as [conns|]; [| apply raises_only_ret].
    apply raises_only_for_each. intros c. apply raises_only_tx_run.
Qed.

(** What the [try] block of the main block ends on was raised outside. *)
Lemma raises_only_upload_body data : raises_only P (upload_body svc data).
Proof.
  unfold upload_body.
  apply raises_only_bind; [apply raises_only_upload_to_pinecone | intros _].
  apply raises_only_bind; [apply raises_only_upload_to_neo4j | intros _].
  apply raises_only_bind; [apply raises_only_call | intros _].
  apply raises_only_with_session. apply raises_only_call.
Qed.

End Raises.

Section ScriptPaths.
Context {vector : Type} (h : host) (svc : services vector).
Implicit Types (env : gmap string string) (w : world).

(** The calls of the start in the events of the script are those of
    [startup]. *)
Lemma script_setup_events env w ev :
  inl ev ∈ events (script h svc env w) ↔ ev ∈ (startup h env []).2.
Proof.
  unfold script. destruct (startup h env []) as [[data|st|e] t]; cbn [events snd].
  - rewrite elem_of_app, !list_elem_of_fmap. split.
    + intros [(x & [= ->] & Hx) | (x & [=] & _)]. done.
    + intros Hx. left. by exists ev.
  - rewrite list_elem_of_fmap. split; [by intros (x & [= ->] & Hx) | by exists ev].
  - rewrite list_elem_of_fmap. split; [by intros (x & [= ->] & Hx) | by exists ev].
Qed.

(** Closing the driver is the last thing the main block does, and the
    block ends normally unless an exception of the upload passes the
    handler. *)
Lemma main_closes_last data w :
  last (log (main svc data w)) = Some DriverClose ∧
  res (main svc data w) =
    match res (upload_body svc data w) with
    | Ok _ => Ok tt
    | Raise e => if is_Exception e then Ok tt else Raise e
    end.
Proof.
  unfold main, try_finally. cbn [res log emit]. split; [apply last_snoc |].
  unfold try_except. destruct (res (upload_body svc data w)) as [[]|e] eqn:Hb; [done |].
  destruct (is_Exception e); [reflexivity | done].
Qed.

(** Without the three settings of Neo4j the script stops at their check. *)
Lemma script_stops_at_credentials env w :
  falsy (env !! "NEO4J_URI") || falsy (env !! "NEO4J_USERNAME") ||
    falsy (env !! "NEO4J_PASSWORD") = true →
  status (script h svc env w) = 1%Z ∧ after (script h svc env w) = w ∧
  events (script h svc env w) `prefix_of`
    [inl (PineconeInit (default "" (env !! "PINECONE_API_KEY")));
     inl (LoadModel "BAAI/bge-large-en-v1.5")].
Proof.
  intros Hc.
  unfold script, startup, sbind, scall, of_result, sys_exit, sret.
  destruct (int_of h _) as [d|e]; cbn [fst snd app length map status after events].
  2:{ split_and!; [done | done | apply prefix_nil]. }
  destruct (falsy (env !! "PINECONE_API_KEY")); cbn [fst snd app length map status after events].
  { split_and!; [done | done | apply prefix_nil]. }
  destruct (setup_fault h 0); cbn [fst snd app length map status after events].
  { split_and!; [done | done | by apply prefix_cons, prefix_nil]. }
  destruct (setup_fault h 1); cbn [fst snd app length map status after events].
  { done. }
  rewrite Hc. cbn [fst snd app length map status after events]. done.
Qed.

End ScriptPaths.

(** X15 (src/upload_data.py, module start, lines 16-39): without a
    Pinecone key, unset or empty, the script leaves with status 1 before it
    calls anything: no client is created, no model loaded, and the stores
    are as they were. *)
Theorem script_without_pinecone_key {vector} (h : host) (svc : services vector)
    (env : gmap string string) (w : world) :
  falsy (env !! "PINECONE_API_KEY") = true →
  script h svc env w = Run 1 [] w.
Proof.
  intros Hk. unfold script, startup, sbind, of_result.
  destruct (int_of h _) as [d|e]; [| reflexivity].
  rewrite Hk. reflexivity.
Qed.

Lemma script_without_pinecone_key_witness :
  script fresh_host quiet (<["PINECONE_API_KEY" := ""]> capitalised_provider) start =
    Run 1 [] start.
Proof.
  apply (script_without_pinecone_key fresh_host quiet
           (<["PINECONE_API_KEY" := ""]> capitalised_provider) start).
  vm_compute. reflexivity.
Defined.

(** X16 (src/upload_data.py, module start, lines 30-56): when the URI,
    the user name or the password of Neo4j is unset or empty, the script
    leaves with status 1 and the stores as they were, and no driver is
    created.  The check comes after Pinecone is initialised and the
    embedding model is loaded: with a Pinecone key and no failing call,
    exactly these two calls are made first. *)
Theorem script_without_neo4j_credentials {vector} (h : host) (svc : services vector)
    (env : gmap string string) (w : world) :
  falsy (env !! "NEO4J_URI") || falsy (env !! "NEO4J_USERNAME") ||
    falsy (env !! "NEO4J_PASSWORD") = true →
  let r := script h svc env w in
  let first_calls := [inl (PineconeInit (default "" (env !! "PINECONE_API_KEY")));
                      inl (LoadModel "BAAI/bge-large-en-v1.5")] in
  status r = 1%Z ∧ after r = w ∧ events r `prefix_of` first_calls ∧
  (falsy (env !! "PINECONE_API_KEY") = false → no_setup_faults h →
   (∃ d, int_of h (Config.getenv env "PINECONE_VECTOR_DIM" "1024") = Ok d) →
   events r = first_calls).
Proof.
  intros Hc r first_calls. subst r first_calls.
  destruct (script_stops_at_credentials h svc env w Hc) as (Hs & Ha & Hp).
  split_and!; [done | done | done |].
  intros Hk Hf [d Hd].
  unfold script, startup, sbind, scall, of_result, sys_exit, sret.
  rewrite Hd, Hk. cbn [fst snd app length]. rewrite !Hf. cbn [fst snd app length].
  rewrite Hc. reflexivity.
Qed.

Lemma script_without_neo4j_credentials_witness :
  status (script fresh_host quiet (delete "NEO4J_PASSWORD" capitalised_provider) start) = 1%Z ∧
  events (script fresh_host quiet (delete "NEO4J_PASSWORD" capitalised_provider) start) =
    [inl (PineconeInit "pc-key"); inl (LoadModel "BAAI/bge-large-en-v1.5")].
Proof.
  pose proof (script_without_neo4j_credentials fresh_host quiet
                (delete "NEO4J_PASSWORD" capitalised_provider) start) as T.
  cbv zeta in T.
  destruct T as (Hs & _ & _ & He); [vm_compute; reflexivity |].
  split; [exact Hs |].
  apply He; [vm_compute; reflexivity | intros k; reflexivity |].
  exists 1024%Z. vm_compute. reflexivity.
Defined.

(** In an initial segment of a list, what comes after [x] is there only
    with [x]. *)
Lemma prefix_reaches {A} (t l1 l2 : list A) (x y : A) :
  t `prefix_of` l1 ++ x :: l2 → y ∈ t → y ∉ l1 → y ≠ x → x ∈ t.
Proof.
  intros Ht Hy Hl Hx.
  assert (Hp : (l1 ++ [x]) `prefix_of` l1 ++ x :: l2).
  { exists l2. by rewrite <- app_assoc. }
  destruct (prefix_weak_total _ _ _ Ht Hp) as [[k Hk] | [k ->]].
  - exfalso. assert (Hin : y ∈ l1 ++ [x]) by (rewrite Hk; apply elem_of_app; by left).
    apply elem_of_app in Hin as [Hin | Hin]; [done |].
    by apply list_elem_of_singleton in Hin.
  - apply elem_of_app. left. apply elem_of_app. right. by apply list_elem_of_singleton.
Qed.

(** X17 (src/upload_data.py, module start, lines 61-76): the index is
    created only when the list of the indexes lacks its name, on every path.
    When the name is listed the script neither creates an index nor waits;
    a creation there is, is of the index named by the settings, with the
    dimension read from PINECONE_VECTOR_DIM, and the only pause is the one
    of 30 seconds that follows it. *)
Theorem index_created_only_when_absent {vector} (h : host) (svc : services vector)
    (env : gmap string string) (w : world) :
  let r := script h svc env w in
  (INDEX_NAME env ∈ existing_indexes h →
   ∀ ev, inl ev ∈ events r →
         (match ev with CreateIndex _ _ | Sleep _ => False | _ => True end)) ∧
  (∀ name d, inl (CreateIndex name d) ∈ events r →
     name = INDEX_NAME env ∧ (INDEX_NAME env ∉ existing_indexes h) ∧
     int_of h (Config.getenv env "PINECONE_VECTOR_DIM" "1024") = Ok d) ∧
  (∀ s, inl (Sleep s) ∈ events r →
     s = 30 ∧ ∃ d, inl (CreateIndex (INDEX_NAME env) d) ∈ events r).
Proof.
  intros r. subst r.
  assert (Hfull : ∀ ev, inl ev ∈ events (script h svc env w) →
            ∃ d, int_of h (Config.getenv env "PINECONE_VECTOR_DIM" "1024") = Ok d ∧
                 (startup h env []).2 `prefix_of` full_start h env d ∧
                 ev ∈ full_start h env d).
  { intros ev Hev. apply script_setup_events in Hev.
    pose proof (startup_calls h env) as Hc.
    destruct (int_of h _) as [d|e].
    - destruct Hc as [Hp _]. exists d. split_and!; [done | done |].
      destruct Hp as [k ->]. apply elem_of_app. by left.
    - rewrite Hc in Hev. cbn [snd] in Hev. by apply elem_of_nil in Hev. }
  split_and!.
  - intros Hin ev Hev. destruct (Hfull ev Hev) as (d & _ & _ & Hd).
    unfold full_start in Hd. rewrite (bool_decide_eq_true_2 _ Hin) in Hd.
    cbn [app] in Hd. repeat (apply elem_of_cons in Hd as [-> | Hd]; [done |]).
    by apply elem_of_nil in Hd.
  - intros name d Hev. destruct (Hfull _ Hev) as (d' & Hint & _ & Hd).
    unfold full_start in Hd. case_bool_decide as Hin; cbn [app] in Hd.
    + repeat (apply elem_of_cons in Hd as [[=] | Hd]). by apply elem_of_nil in Hd.
    + repeat (apply elem_of_cons in Hd as [Heq | Hd]; [try discriminate Heq |]).
      * injection Heq as -> ->. done.
      * by apply elem_of_nil in Hd.
  - intros s Hev. destruct (Hfull _ Hev) as (d & Hint & Hp & Hd).
    apply script_setup_events in Hev.
    unfold full_start in Hd, Hp. case_bool_decide as Hin; cbn [app] in Hd, Hp.
    + repeat (apply elem_of_cons in Hd as [[=] | Hd]). by apply elem_of_nil in Hd.
    + split.
      * repeat (apply elem_of_cons in Hd as [Heq | Hd]; [try discriminate Heq |]).
        -- by injection Heq as ->.
        -- by apply elem_of_nil in Hd.
      * exists d. apply script_setup_events.
        apply (prefix_reaches _
                 [PineconeInit (default "" (env !! "PINECONE_API_KEY"));
                  LoadModel "BAAI/bge-large-en-v1.5";
                  MakeDriver (default "" (env !! "NEO4J_URI"))
                    (default "" (env !! "NEO4J_USERNAME"))
                    (default "" (env !! "NEO4J_PASSWORD"));
                  ListIndexes]
                 [Sleep 30; OpenIndex (INDEX_NAME env); LoadData DATA_FILE] _ (Sleep s));
          [exact Hp | exact Hev | | done].
        intros Hl. repeat (apply elem_of_cons in Hl as [[=] | Hl]).
        by apply elem_of_nil in Hl.
Qed.

Lemma index_created_only_when_absent_witness :
  inl (CreateIndex "sikkim-service-rule" 1024) ∈
    events (script fresh_host quiet capitalised_provider start) ∧
  "sikkim-service-rule" = INDEX_NAME capitalised_provider ∧
  read_int (Config.getenv capitalised_provider "PINECONE_VECTOR_DIM" "1024") = Ok 1024%Z.
Proof.
  assert (H : inl (CreateIndex "sikkim-service-rule" 1024) ∈
              events (script fresh_host quiet capitalised_provider start)).
  { apply list_elem_of_In. vm_compute. do 4 right. left. reflexivity. }
  pose proof (index_created_only_when_absent fresh_host quiet capitalised_provider start) as T.
  cbv zeta in T. destruct T as (_ & T & _).
  destruct (T _ _ H) as (Hn & _ & Hd).
  exact (conj H (conj Hn Hd)).
Defined.

(** X18 (src/upload_data.py, module start, lines 78-89): the data file
    is looked for last.  When it is missing the script leaves with status 1
    and nothing is uploaded, but only after everything else of the start:
    with the settings in order and no failing call, the clients and the
    driver are created, and the index too when it was not there, with its
    pause; and the driver is not closed. *)
Theorem script_without_data_file {vector} (h : host) (svc : services vector)
    (env : gmap string string) (w : world) :
  data_file h = None →
  let r := script h svc env w in
  status r = 1%Z ∧ after r = w ∧ (∀ ev, inr ev ∉ events r) ∧
  (∀ d, int_of h (Config.getenv env "PINECONE_VECTOR_DIM" "1024") = Ok d →
        no_setup_faults h →
        falsy (env !! "PINECONE_API_KEY") = false →
        falsy (env !! "NEO4J_URI") || falsy (env !! "NEO4J_USERNAME") ||
          falsy (env !! "NEO4J_PASSWORD") = false →
        ∃ last_call, full_start h env d = (startup h env []).2 ++ [last_call] ∧
                     events r = map inl (startup h env []).2).
Proof.
  intros Hdata r. subst r.
  pose proof (startup_calls h env) as Hc.
  assert (Hev : events (script h svc env w) = map inl (startup h env []).2 ∧
                after (script h svc env w) = w ∧ status (script h svc env w) = 1%Z).
  { unfold script. destruct (int_of h _) as [d|e].
    - destruct Hc as (_ & Hdone & Hexit).
      destruct (startup h env []) as [[data|st|e] t]; cbn [events after status fst snd] in *.
      + destruct (Hdone data eq_refl) as [_ Hsome]. congruence.
      + by rewrite (Hexit st eq_refl).
      + done.
    - by rewrite Hc. }
  destruct Hev as (Hev & Hafter & Hstatus).
  split_and!; [done | done | |].
  - intros ev. rewrite Hev, list_elem_of_fmap. by intros (x & [=] & _).
  - intros d Hint Hf Hk Hn. rewrite Hev.
    unfold startup, full_start, sbind, scall, of_result, sys_exit, sret, sleep.
    rewrite Hint, Hk, Hdata. cbn [fst snd app length]. rewrite !Hf, Hn.
    cbn [fst snd app length].
    destruct (bool_decide (INDEX_NAME env ∈ existing_indexes h));
      cbn [fst snd app length]; rewrite ?Hf; cbn [fst snd app length];
      by exists (LoadData DATA_FILE).
Qed.

Lemma script_without_data_file_witness :
  status (script (Host read_int (λ _, None) [] None) quiet capitalised_provider start) = 1%Z ∧
  events (script (Host read_int (λ _, None) [] None) quiet capitalised_provider start) =
    [inl (PineconeInit "pc-key"); inl (LoadModel "BAAI/bge-large-en-v1.5");
     inl (MakeDriver "neo4j+s://db.example.io" "neo4j" "secret"); inl ListIndexes;
     inl (CreateIndex "sikkim-service-rule" 1024); inl (Sleep 30);
     inl (OpenIndex "sikkim-service-rule")].
Proof.
  pose proof (script_without_data_file (Host read_int (λ _, None) [] None) quiet
                capitalised_provider start eq_refl) as T.
  cbv zeta in T. destruct T as (Hs & _ & _ & _).
  split; [exact Hs | vm_compute; reflexivity].
Defined.

(** ** The two modules and the user name *)

(** X19 (src/upload_data.py, lines 26-56, and src/config.py, lines 9-11):
    the two modules read the Neo4j user from different variables.  The
    script takes it from NEO4J_USERNAME and has no default: when only
    NEO4J_USER is set, which is the variable config.py reads, the script
    leaves with status 1 and creates no driver.  NEO4J_USER does not change
    what the script does, and NEO4J_USERNAME does not change the settings of
    config.py. *)
Theorem user_name_variables_differ {vector} (h : host) (svc : services vector)
    (env : gmap string string) (user : string) (w : world) :
  env !! "NEO4J_USERNAME" = None →
  let env' := <["NEO4J_USER" := user]> env in
  Config.NEO4J_USER (Config.load env') = user ∧
  status (script h svc env' w) = 1%Z ∧
  (∀ uri name password, inl (MakeDriver uri name password) ∉ events (script h svc env' w)) ∧
  script h svc env' w = script h svc env w ∧
  Config.load (<["NEO4J_USERNAME" := user]> env) = Config.load env.
Proof.
  intros Hu env'. subst env'.
  assert (Hsame : ∀ k, k ≠ "NEO4J_USER" → <["NEO4J_USER" := user]> env !! k = env !! k).
  { intros k Hk. by rewrite lookup_insert_ne. }
  assert (Hstart : startup h (<["NEO4J_USER" := user]> env) [] = startup h env []).
  { unfold startup, INDEX_NAME, Config.getenv. by rewrite !Hsame. }
  assert (Hscript : script h svc (<["NEO4J_USER" := user]> env) w = script h svc env w).
  { unfold script. by rewrite Hstart. }
  split_and!.
  - unfold Config.load, Config.getenv. cbn [Config.NEO4J_USER].
    by rewrite lookup_insert_eq.
  - rewrite Hscript. apply script_stops_at_credentials.
    rewrite Hu. cbn [falsy]. by rewrite orb_true_r.
  - rewrite Hscript. intros uri name password Hin.
    destruct (script_stops_at_credentials h svc env w) as (_ & _ & [k Hk]);
      [rewrite Hu; cbn [falsy]; by rewrite orb_true_r |].
    assert (Hin' : inl (MakeDriver uri name password) ∈
              [inl (PineconeInit (default "" (env !! "PINECONE_API_KEY")));
               (inl (LoadModel "BAAI/bge-large-en-v1.5") : setup_event + event vector)]).
    { rewrite Hk. apply elem_of_app. by left. }
    repeat (apply elem_of_cons in Hin' as [[=] | Hin']). by apply elem_of_nil in Hin'.
  - done.
  - unfold Config.load, Config.getenv. by rewrite !lookup_insert_ne.
Qed.

Lemma user_name_variables_differ_witness :
  Config.NEO4J_USER (Config.load (<["NEO4J_USER" := "neo4j"]>
                                    (delete "NEO4J_USERNAME" capitalised_provider))) = "neo4j" ∧
  status (script fresh_host quiet
            (<["NEO4J_USER" := "neo4j"]> (delete "NEO4J_USERNAME" capitalised_provider))
            start) = 1%Z.
Proof.
  pose proof (user_name_variables_differ fresh_host quiet
                (delete "NEO4J_USERNAME" capitalised_provider) "neo4j" start) as T.
  cbv zeta in T. destruct T as (H1 & H2 & _); [vm_compute; reflexivity |].
  exact (conj H1 H2).
Defined.

(** ** The exit status *)

(** X20 (src/upload_data.py, module start and main block, lines 16-92
    and 202-228): the exit status of the script tells whether the start went
    through, not whether the upload did.  When the start reaches the main
    block, closing the driver is the last thing the script does, and the
    status is 0 whatever instances of [Exception] the model, the index and
    the graph store raise during the upload: the handler takes them all.
    When the start does not reach the main block, the status is 1 and no
    upload call is made. *)
Theorem exit_status_is_of_the_start {vector} (h : host) (svc : services vector)
    (env : gmap string string) (w : world) :
  let r := script h svc env w in
  (∀ data, (startup h env []).1 = Done data →
     last (events r) = Some (inr DriverClose) ∧
     after r = final (main svc data w) ∧
     (faults_are (λ e, is_Exception e = true) svc → status r = 0%Z)) ∧
  ((∀ data, (startup h env []).1 ≠ Done data) →
     status r = 1%Z ∧ after r = w ∧ ∀ ev, inr ev ∉ events r).
Proof.
  intros r. subst r. unfold script.
  pose proof (startup_calls h env) as Hc.
  destruct (int_of h _) as [d|e].
  - destruct Hc as (_ & _ & Hexit).
    destruct (startup h env []) as [[data|st|e] t]; cbn [fst snd events after status] in *.
    + destruct (main_closes_last svc data w) as [Hlast Hres]. split.
      * intros data' [= <-]. split_and!; [| done |].
        -- destruct (log (main svc data w)) as [|ev l] eqn:Hl using rev_ind; [done |].
           rewrite last_snoc in Hlast. injection Hlast as ->.
           rewrite map_app. cbn [map]. by rewrite app_assoc, last_snoc.
        -- intros Hsvc. rewrite Hres.
           destruct (res (upload_body svc data w)) as [[]|e] eqn:Hb; [done |].
           by rewrite (raises_only_upload_body svc _ Hsvc data w e Hb).
      * intros Hno. by destruct (Hno data).
    + split; [by intros data [=] |]. intros _. rewrite (Hexit st eq_refl).
      split_and!; [done | done |]. intros ev. rewrite list_elem_of_fmap. by intros (x & [=] & _).
    + split; [by intros data [=] |]. intros _.
      split_and!; [done | done |]. intros ev. rewrite list_elem_of_fmap. by intros (x & [=] & _).
  - rewrite Hc. cbn [fst snd events after status]. split; [by intros data [=] |]. intros _.
    split_and!; [done | done |]. intros ev. cbn [map]. apply not_elem_of_nil.
Qed.

Lemma exit_status_is_of_the_start_witness :
  (startup fresh_host capitalised_provider []).1 = Done scenario ∧
  faults_are (λ e, is_Exception e = true) (failing_at 0 timed_out) ∧
  res (upload_to_pinecone (failing_at 0 timed_out) scenario start) = Raise timed_out ∧
  status (script fresh_host (failing_at 0 timed_out) capitalised_provider start) = 0%Z.
Proof.
  assert (H : (startup fresh_host capitalised_provider []).1 = Done scenario)
    by (vm_compute; reflexivity).
  assert (Hf : faults_are (λ e, is_Exception e = true) (failing_at 0 timed_out)).
  { intros k e. unfold failing_at. cbn [fault_at]. case_decide; [| done]. by intros [= <-]. }
  pose proof (exit_status_is_of_the_start fresh_host (failing_at 0 timed_out)
                capitalised_provider start) as T.
  cbv zeta in T. destruct T as [T _]. destruct (T scenario H) as (_ & _ & Hs).
  split_and!; [exact H | exact Hf | vm_compute; reflexivity | exact (Hs Hf)].
Defined.
